(** * The ClaimTrie orchestrator of lbcd (claimtrie/claimtrie.go)

    A shallow embedding of the height orchestrator: the [ClaimTrie] struct,
    its change submitters, [AppendBlock], [ResetHeight], [MerkleHash], [New]
    and [Close], together with [removeDuplicates].

    The four collaborators of the orchestrator (block repo, temporal repo,
    node manager, merkle trie) are Go interfaces whose implementations live
    in other packages.  They are type classes here, all acting on one shared
    store, so that the trie may read what the node manager holds.  Every
    call the orchestrator makes on a collaborator is recorded, in order, in
    a journal carried next to the struct fields. *)

From Stdlib Require Import String ZArith Bool List Lia Sorted Permutation.
From Stdlib.Strings Require Import Byte.
Import ListNotations.
Local Open Scope Z_scope.

(** ** int32 arithmetic *)

Definition MaxInt32 : Z := 2147483647.
Definition MinInt32 : Z := -2147483648.

(** Go's [int32] addition wraps around in two's complement. *)
Definition wrap32 (z : Z) : Z := (z + 2147483648) mod 4294967296 - 2147483648.

Definition int32 (z : Z) : Prop := MinInt32 <= z <= MaxInt32.

(** ** Package bytes *)

Module bytes.

(** [bytes.Compare]: lexicographic order on unsigned bytes; a proper prefix
    is smaller. *)
Fixpoint Compare (a b : list byte) : comparison :=
  match a, b with
  | [], [] => Eq
  | [], _ :: _ => Lt
  | _ :: _, [] => Gt
  | x :: a', y :: b' =>
      match N.compare (Byte.to_N x) (Byte.to_N y) with
      | Eq => Compare a' b'
      | c => c
      end
  end.

(** [bytes.Equal]: same length and same bytes. *)
Fixpoint Equal (a b : list byte) : bool :=
  match a, b with
  | [], [] => true
  | x :: a', y :: b' => Byte.eqb x y && Equal a' b'
  | _, _ => false
  end.

End bytes.

(** ** Package sort *)

Module sort.

Section Slice.
Context {A : Type} (less : A -> A -> bool).

Fixpoint insert (x : A) (l : list A) : list A :=
  match l with
  | [] => [x]
  | y :: l' => if less x y then x :: l else y :: insert x l'
  end.

(** [sort.Slice] reorders the slice so that no element is [less] than
    one before it.  The library's algorithm is not stable; for the
    comparison used in this file elements that are not ordered are
    equal, so every such reordering is the same list
    ([Slice_unique] below) and insertion sort stands for it. *)
Fixpoint Slice (l : list A) : list A :=
  match l with
  | [] => []
  | x :: l' => insert x (Slice l')
  end.
End Slice.

End sort.

(** ** Go slices

    A slice value is [nil] or a (possibly empty) sequence; the trie's
    [SetRoot] tells the two apart. *)

Definition slice (A : Type) : Type := option (list A).

Definition elems {A : Type} (s : slice A) : list A :=
  match s with
  | Some l => l
  | None => []
  end.

(** [append(s, xs...)]: appending nothing to [nil] gives [nil]. *)
Definition append {A : Type} (s : slice A) (xs : list A) : slice A :=
  match s, xs with
  | None, [] => None
  | _, _ => Some (elems s ++ xs)
  end.

Definition name : Type := list byte.

(** [chainhash.Hash] is a 32-byte array; [IsEqual] compares the bytes.
    The orchestrator holds hashes by pointer; the pointers it gets from the
    block repo and the trie are taken to be non-nil. *)
Definition Hash : Type := list byte.

Definition IsEqual (a b : Hash) : bool := bytes.Equal a b.

(** ** removeDuplicates *)

(** [removeDuplicates] sorts and compacts its argument in place and
    returns the shortened slice.  The orchestrator goes on with the returned
    slice only, so slices are values here.

    The comparison handed to [sort.Slice]:
    [bytes.Compare(names[i], names[j]) < 0]. *)
Definition names_less (a b : name) : bool :=
  match bytes.Compare a b with
  | Lt => true
  | _ => false
  end.

(** The loop [for i := len(names) - 2; i >= 0; i--], with [k = i + 1]
    iterations left.  An index outside the slice is a run-time panic,
    [None] here. *)
Fixpoint removeDuplicates_loop (k : nat) (names : list name) : option (list name) :=
  match k with
  | O => Some names
  | S i =>
      match nth_error names i, nth_error names (S i) with
      | Some a, Some b =>
          if bytes.Equal a b
          then removeDuplicates_loop i (firstn i names ++ skipn (S i) names)
          else removeDuplicates_loop i names
      | _, _ => None
      end
  end.

Definition removeDuplicates_checked (names : slice name) : option (slice name) :=
  match names with
  | None => Some None
  | Some l =>
      let sorted := sort.Slice names_less l in
      option_map Some (removeDuplicates_loop (length sorted - 1) sorted)
  end.

(** The same loop once the indices are known to be in range
    ([removeDuplicates_checked_eq]). *)
Fixpoint removeDuplicates_run (k : nat) (names : list name) : list name :=
  match k with
  | O => names
  | S i =>
      if bytes.Equal (nth i names []) (nth (S i) names [])
      then removeDuplicates_run i (firstn i names ++ skipn (S i) names)
      else removeDuplicates_run i names
  end.

Definition removeDuplicates (names : slice name) : slice name :=
  match names with
  | None => None
  | Some l =>
      let sorted := sort.Slice names_less l in
      Some (removeDuplicates_run (length sorted - 1) sorted)
  end.

(** ** Packages wire and change *)

Module wire.
Record OutPoint : Type := mkOutPoint {
  Hash : list byte;
  Index : Z
}.
End wire.

Module change.

Inductive ChangeType : Type :=
| AddClaim
| UpdateClaim
| SpendClaim
| AddSupport
| SpendSupport.

Definition ClaimID : Type := list byte.

(** The fields of [change.Change] that the orchestrator sets. *)
Record Change : Type := mkChange {
  Type_ : ChangeType;
  Height : Z;
  Name : list byte;
  ClaimID_ : ClaimID;
  OutPoint : wire.OutPoint;
  Amount : Z
}.

Definition with_Height (h : Z) (c : Change) : Change :=
  mkChange (Type_ c) h (Name c) (ClaimID_ c) (OutPoint c) (Amount c).

End change.

(** ** Errors *)

Inductive error : Type :=
| KVError (what : string)
| Wrap (cause : error) (msg : string)
| RestoreClaimHashFailed (hash : Hash) (height : Z)
| RestoreHashFailed (height : Z).

Inductive result (A : Type) : Type :=
| Ok (a : A)
| Err (e : error).

Arguments Ok {A} a.
Arguments Err {A} e.

(** ** The collaborators *)

Class Param : Type := {
  AllClaimsInMerkleForkHeight : Z
}.

Class BlockRepo (S : Type) : Type := {
  blockRepo_Load : S -> result Z;
  blockRepo_Get : Z -> S -> result Hash;
  blockRepo_Set : Z -> Hash -> S -> S * option error;
  blockRepo_Close : S -> S * option error
}.

Class TemporalRepo (S : Type) : Type := {
  temporalRepo_NodesAt : Z -> S -> result (slice name);
  temporalRepo_SetNodesAt : list name -> list Z -> S -> S * option error;
  temporalRepo_Close : S -> S * option error
}.

Class NodeManager (S : Type) : Type := {
  nodeManager_AppendChange : change.Change -> S -> S * option error;
  nodeManager_IncrementHeightTo : Z -> S -> S * result (slice name);
  nodeManager_DecrementHeightTo : slice name -> Z -> S -> S * option error;
  nodeManager_NextUpdateHeightOfNode : name -> S -> S * (name * Z);
  nodeManager_IterateNames : S -> list name;
  nodeManager_Close : S -> S * option error
}.

Class MerkleTrie (S : Type) : Type := {
  merkleTrie_Update : name -> bool -> S -> S * unit;
  merkleTrie_MerkleHash : S -> S * Hash;
  merkleTrie_MerkleHashAllClaims : S -> S * Hash;
  merkleTrie_SetRoot : Hash -> slice name -> S -> S * unit;
  merkleTrie_Close : S -> S * option error
}.

(** The registered cleanup functions. *)
Inductive Cleanup : Type :=
| blockRepoClose
| temporalRepoClose
| nodeManagerClose
| persistentTrieClose.

(** One entry per call made on a collaborator. *)
Inductive Call : Type :=
| CallLoad
| CallGet (height : Z)
| CallSet (height : Z) (hash : Hash)
| CallNodesAt (height : Z)
| CallSetNodesAt (names : list name) (heights : list Z)
| CallAppendChange (chg : change.Change)
| CallIncrementHeightTo (height : Z)
| CallDecrementHeightTo (names : slice name) (height : Z)
| CallNextUpdateHeightOfNode (n : name)
| CallIterateNames
| CallUpdate (n : name) (required : bool)
| CallMerkleHash
| CallMerkleHashAllClaims
| CallSetRoot (hash : Hash) (names : slice name)
| CallCleanup (c : Cleanup).

(** ** The orchestrator *)

Section ClaimTrie.

Context {S : Type}.

(** [heap] is the store the four handles of the Go struct point into;
    [journal] is the record of calls, oldest first. *)
Record ClaimTrie : Type := mkClaimTrie {
  heap : S;
  height : Z;
  cleanups : list Cleanup;
  journal : list Call
}.

Definition M (A : Type) : Type := ClaimTrie -> A * ClaimTrie.

Definition ret {A : Type} (a : A) : M A := fun ct => (a, ct).

Definition bind {A B : Type} (m : M A) (k : A -> M B) : M B :=
  fun ct => let (a, ct') := m ct in k a ct'.

Definition set_height (h : Z) : M unit :=
  fun ct => (tt, mkClaimTrie (heap ct) h (cleanups ct) (journal ct)).

(** A call that may change the store. *)
Definition call {A : Type} (c : Call) (f : S -> S * A) : M A :=
  fun ct =>
    let (s', a) := f (heap ct) in
    (a, mkClaimTrie s' (height ct) (cleanups ct) (journal ct ++ [c])).

(** A call that only reads the store. *)
Definition read {A : Type} (c : Call) (f : S -> A) : M A :=
  call c (fun s => (s, f s)).

End ClaimTrie.

Arguments ClaimTrie S : clear implicits.

Declare Scope ct_scope.
Delimit Scope ct_scope with ct.
Notation "x <- m ;; k" := (bind m (fun x => k))
  (at level 61, m at next level, right associativity) : ct_scope.
Notation "m ;;; k" := (bind m (fun _ => k))
  (at level 61, right associativity) : ct_scope.

Section Operations.

Context {S : Type}.
Context {param : Param}.
Context {blockRepo : BlockRepo S} {temporalRepo : TemporalRepo S}.
Context {nodeManager : NodeManager S} {merkleTrie : MerkleTrie S}.

Local Open Scope ct_scope.

Local Abbreviation M := (@M S).

(** [Height] returns the current block height. *)
Definition Height : M Z := fun ct => (height ct, ct).

(** [MerkleHash] picks the hash scheme by the current height. *)
Definition MerkleHash : M Hash :=
  h <- Height ;;
  if h >=? AllClaimsInMerkleForkHeight
  then call CallMerkleHashAllClaims merkleTrie_MerkleHashAllClaims
  else call CallMerkleHash merkleTrie_MerkleHash.

Definition forwardNodeChange (chg : change.Change) : M (option error) :=
  h <- Height ;;
  let chg := change.with_Height (wrap32 (h + 1)) chg in
  err <- call (CallAppendChange chg) (nodeManager_AppendChange chg) ;;
  match err with
  | Some e => ret (Some (Wrap e "node manager handle change"))
  | None => ret None
  end.

(** The literals leave [Height] at its zero value; an omitted [Amount] is
    zero as well. *)
Definition AddClaim (n : name) (op : wire.OutPoint) (id : change.ClaimID) (amt : Z)
  : M (option error) :=
  forwardNodeChange (change.mkChange change.AddClaim 0 n id op amt).

Definition UpdateClaim (n : name) (op : wire.OutPoint) (amt : Z) (id : change.ClaimID)
  : M (option error) :=
  forwardNodeChange (change.mkChange change.UpdateClaim 0 n id op amt).

Definition SpendClaim (n : name) (op : wire.OutPoint) (id : change.ClaimID)
  : M (option error) :=
  forwardNodeChange (change.mkChange change.SpendClaim 0 n id op 0).

Definition AddSupport (n : name) (op : wire.OutPoint) (amt : Z) (id : change.ClaimID)
  : M (option error) :=
  forwardNodeChange (change.mkChange change.AddSupport 0 n id op amt).

Definition SpendSupport (n : name) (op : wire.OutPoint) (id : change.ClaimID)
  : M (option error) :=
  forwardNodeChange (change.mkChange change.SpendSupport 0 n id op 0).

(** The body of [for _, name := range names] in [AppendBlock]. *)
Fixpoint AppendBlock_range (names : list name)
    (updateNames : list name) (updateHeights : list Z)
  : M (list name * list Z) :=
  match names with
  | [] => ret (updateNames, updateHeights)
  | n :: rest =>
      call (CallUpdate n true) (merkleTrie_Update n true) ;;;
      next <- call (CallNextUpdateHeightOfNode n) (nodeManager_NextUpdateHeightOfNode n) ;;
      let (newName, nextUpdate) := next : name * Z in
      if nextUpdate <=? 0
      then AppendBlock_range rest updateNames updateHeights
      else AppendBlock_range rest (updateNames ++ [newName]) (updateHeights ++ [nextUpdate])
  end.

(** The callback of [IterateNames] always answers [true], so every name
    is visited. *)
Fixpoint markAll (names : list name) : M unit :=
  match names with
  | [] => ret tt
  | n :: rest => call (CallUpdate n false) (merkleTrie_Update n false) ;;; markAll rest
  end.

Definition updateTrieForHashForkIfNecessary : M bool :=
  h <- Height ;;
  if negb (h =? AllClaimsInMerkleForkHeight)
  then ret false
  else
    all <- read CallIterateNames nodeManager_IterateNames ;;
    markAll all ;;;
    ret true.

(** [AppendBlock] increases block by one. *)
Definition AppendBlock : M (option error) :=
  h0 <- Height ;;
  set_height (wrap32 (h0 + 1)) ;;;
  h <- Height ;;
  r <- call (CallIncrementHeightTo h) (nodeManager_IncrementHeightTo h) ;;
  match r with
  | Err e => ret (Some (Wrap e "node manager increment"))
  | Ok names =>
      r <- read (CallNodesAt h) (temporalRepo_NodesAt h) ;;
      match r with
      | Err e => ret (Some (Wrap e "temporal repo get"))
      | Ok expirations =>
          let names := removeDuplicates names in
          let updateNames := elems names in
          let updateHeights := map (fun _ => h) (elems names) in
          let names := append names (elems expirations) in
          let names := removeDuplicates names in
          batch <- AppendBlock_range (elems names) updateNames updateHeights ;;
          let (updateNames, updateHeights) := batch : list name * list Z in
          err <- call (CallSetNodesAt updateNames updateHeights)
                      (temporalRepo_SetNodesAt updateNames updateHeights) ;;
          match err with
          | Some e => ret (Some (Wrap e "temporal repo set"))
          | None =>
              hitFork <- updateTrieForHashForkIfNecessary ;;
              hash <- MerkleHash ;;
              call (CallSet h hash) (blockRepo_Set h hash) ;;;
              (if hitFork : bool
               then call (CallSetRoot hash names) (merkleTrie_SetRoot hash names)
               else ret tt) ;;;
              ret None
          end
      end
  end.

(** The loop [for h := height + 1; h <= ct.height; h++] of [ResetHeight].
    The counter is an [int32]: the loop does not end by itself when
    [ct.height] is [MaxInt32].  [None] stands for a run that uses up
    [fuel] iterations without leaving the loop. *)
Fixpoint ResetHeight_collect (fuel : nat) (h : Z) (names : slice name)
  : ClaimTrie S -> option (result (slice name) * ClaimTrie S) :=
  fun ct =>
    if h <=? height ct then
      match fuel with
      | O => None
      | Datatypes.S fuel' =>
          let (r, ct') := read (CallNodesAt h) (temporalRepo_NodesAt h) ct in
          match r with
          | Err e => Some (Err e, ct')
          | Ok results =>
              ResetHeight_collect fuel' (wrap32 (h + 1)) (append names (elems results)) ct'
          end
      end
    else Some (Ok names, ct).

Definition ResetHeight_finish (target : Z) (names : slice name) : M (option error) :=
  err <- call (CallDecrementHeightTo names target)
              (nodeManager_DecrementHeightTo names target) ;;
  match err with
  | Some e => ret (Some e)
  | None =>
      h <- Height ;;
      let passedHashFork :=
        (h >=? AllClaimsInMerkleForkHeight) && (target <? AllClaimsInMerkleForkHeight) in
      set_height target ;;;
      r <- read (CallGet target) (blockRepo_Get target) ;;
      match r with
      | Err e => ret (Some e)
      | Ok hash =>
          let names := if passedHashFork then None else names in
          call (CallSetRoot hash names) (merkleTrie_SetRoot hash names) ;;;
          root <- MerkleHash ;;
          if negb (IsEqual root hash)
          then ret (Some (RestoreHashFailed target))
          else ret None
      end
  end.

(** [ResetHeight] resets the ClaimTrie to a previous known height. *)
Definition ResetHeight (fuel : nat) (target : Z)
  : ClaimTrie S -> option (option error * ClaimTrie S) :=
  fun ct =>
    match ResetHeight_collect fuel (wrap32 (target + 1)) (Some []) ct with
    | None => None
    | Some (Err e, ct') => Some (Some e, ct')
    | Some (Ok names, ct') => Some (ResetHeight_finish target names ct')
    end.

Definition runCleanup (c : Cleanup) : M (option error) :=
  call (CallCleanup c)
    match c with
    | blockRepoClose => blockRepo_Close
    | temporalRepoClose => temporalRepo_Close
    | nodeManagerClose => nodeManager_Close
    | persistentTrieClose => merkleTrie_Close
    end.

(** The errors of the cleanups are logged and dropped. *)
Fixpoint Close_from (cs : list Cleanup) : M unit :=
  match cs with
  | [] => ret tt
  | c :: rest => runCleanup c ;;; Close_from rest
  end.

(** [Close] runs the cleanups, last registered first. *)
Definition Close : M unit :=
  fun ct => Close_from (rev (cleanups ct)) ct.

(** [New], from the point where the repositories are open: [s] is the
    store behind the four handles and [RamTrie] the configuration flag
    that selects the in-memory trie, which registers no cleanup.  When
    the error is not [None] the Go function returns a nil pointer; the
    second component is then the state in which the abandoned instance is
    left. *)
Definition New (RamTrie : bool) (s : S) : option error * ClaimTrie S :=
  let cleanups :=
    [blockRepoClose; temporalRepoClose; nodeManagerClose]
      ++ (if RamTrie then [] else [persistentTrieClose]) in
  match blockRepo_Load s with
  | Err e => (Some (Wrap e "load block tip"), mkClaimTrie s 0 [] [CallLoad])
  | Ok previousHeight =>
      let ct := mkClaimTrie s previousHeight cleanups [CallLoad] in
      if previousHeight >? 0 then
        (r <- read (CallGet previousHeight) (blockRepo_Get previousHeight) ;;
         match r with
         | Err e => Close ;;; ret (Some (Wrap e "block repo get"))
         | Ok hash =>
             r <- call (CallIncrementHeightTo previousHeight)
                       (nodeManager_IncrementHeightTo previousHeight) ;;
             match r with
             | Err e => Close ;;; ret (Some (Wrap e "increment height to"))
             | Ok _ =>
                 call (CallSetRoot hash None) (merkleTrie_SetRoot hash None) ;;;
                 root <- MerkleHash ;;
                 if negb (IsEqual root hash)
                 then Close ;;; ret (Some (RestoreClaimHashFailed hash previousHeight))
                 else ret None
             end
         end) ct
      else (None, ct)
  end.

End Operations.

(** ** [New] from its first line *)

(** The constructors [New] calls before it restores the last height:
    [blockrepo.NewPebble], [temporalrepo.NewPebble], [noderepo.NewPebble],
    [node.NewBaseManager] and [merkletrierepo.NewPebble].  Their code is in
    the packages of the collaborators; each returns an error or opens its
    collaborator on the store. *)
Class Constructors (S : Type) : Type := {
  blockrepo_NewPebble : S -> S * option error;
  temporalrepo_NewPebble : S -> S * option error;
  noderepo_NewPebble : S -> S * option error;
  node_NewBaseManager : S -> S * option error;
  merkletrierepo_NewPebble : S -> S * option error
}.

Module claimtrie.

Section Construction.

Context {S : Type}.
Context {param : Param}.
Context {constructors : Constructors S}.
Context {blockRepo : BlockRepo S} {temporalRepo : TemporalRepo S}.
Context {nodeManager : NodeManager S} {merkleTrie : MerkleTrie S}.

(** [New(cfg)] as a whole.  The constructors are called in the order of
    the source, the trie repo only for the persistent trie; an error of one
    of them is returned wrapped, with nothing else done: the cleanups
    registered by then -- [blockRepo.Close] after the first constructor,
    [temporalRepo.Close] after the second -- are not run, and no instance
    exists.  With the collaborators open, the function goes on as [New]
    above describes. *)
Definition New (RamTrie : bool) (s : S) : option error * ClaimTrie S :=
  let (s1, err) := blockrepo_NewPebble s in
  match err with
  | Some e => (Some (Wrap e "creating block repo"), mkClaimTrie s1 0 [] [])
  | None =>
      let (s2, err) := temporalrepo_NewPebble s1 in
      match err with
      | Some e => (Some (Wrap e "creating temporal repo"), mkClaimTrie s2 0 [] [])
      | None =>
          let (s3, err) := noderepo_NewPebble s2 in
          match err with
          | Some e => (Some (Wrap e "creating node repo"), mkClaimTrie s3 0 [] [])
          | None =>
              let (s4, err) := node_NewBaseManager s3 in
              match err with
              | Some e =>
                  (Some (Wrap e "creating node base manager"), mkClaimTrie s4 0 [] [])
              | None =>
                  if RamTrie then New RamTrie s4
                  else
                    let (s5, err) := merkletrierepo_NewPebble s4 in
                    match err with
                    | Some e =>
                        (Some (Wrap e "creating trie repo"), mkClaimTrie s5 0 [] [])
                    | None => New RamTrie s5
                    end
              end
          end
      end
  end.

End Construction.

End claimtrie.

(** ** The collaborators as the specification describes them

    The packages behind the four interfaces are not part of the
    orchestrator's file.  [SpecModel] gives one implementation of them on a
    single store.  What a node is (its next update height, its hash) and how
    the node hashes make a root are left to a [NodeSemantics]. *)

Module SpecModel.

(** Modelled from the spec: the node state machine (package node, spec
    4.3) and the hash schemes of the trie (spec 4.5), as the functions the
    collaborators depend on. *)
Class NodeSemantics : Type := mkNodeSemantics {
  (** the next update height of a node, from the changes of its name up
      to height [H], and [H]; 0 when nothing is left to happen *)
  next_update_height : list change.Change -> Z -> Z;
  (** the node hash, from the pre-fork or the all-claims scheme, the
      changes of the name up to height [H], and [H]; none when the node
      is omitted from the trie *)
  node_hash : bool -> list change.Change -> Z -> option Hash;
  (** the root, from the node hashes in the order of the names *)
  root_over : list (name * Hash) -> Hash
}.

(** Modelled from the spec: what a position of the trie stores for a
    name: the input the node manager supplied (the changes of the name and
    the height they were read at) and the node hash computed from it. *)
Record Leaf : Type := mkLeaf {
  leaf_history : list change.Change;
  leaf_height : Z;
  leaf_hash : option Hash
}.

(** Modelled from the spec: the state of the four collaborators (spec 2
    and 4): the block-hash repo, the temporal repo, the change log with the
    buffer and height of the node manager, the trie (the nodes it holds in
    memory, the names marked dirty with their [require_recompute] flag,
    whether the tree was cleared and is to be rebuilt, and its root), and
    whether each KV store is failing. *)
Record Store : Type := mkStore {
  blocks : list (Z * Hash);
  temporal : list (Z * name);
  log : list change.Change;
  buffer : list change.Change;
  nm_height : Z;
  cache : list (name * Leaf);
  marks : list (name * bool);
  rebuild : bool;
  adopted : option Hash;
  blocks_down : bool;
  temporal_down : bool;
  nodes_down : bool
}.

Definition empty : Store := mkStore [] [] [] [] 0 [] [] false None false false false.

(** Modelled from the spec: "the full change log truncated at the current
    height". *)
Definition truncate (H : Z) (l : list change.Change) : list change.Change :=
  filter (fun c => change.Height c <=? H) l.

(** Modelled from the spec: "load_changes(name) -> ordered list", the
    changes of one name in the order of the log. *)
Definition history (n : name) (l : list change.Change) : list change.Change :=
  filter (fun c => bytes.Equal (change.Name c) n) l.

Definition mem (n : name) (l : list name) : bool := existsb (bytes.Equal n) l.

Fixpoint distinct (l : list name) : list name :=
  match l with
  | [] => []
  | x :: t => x :: filter (fun y => negb (bytes.Equal x y)) (distinct t)
  end.

(** Modelled from the spec: the block-hash repo (package blockrepo), which
    "maps height -> Merkle root"; the last persisted height is the greatest
    key, 0 for an empty repo; a failure of the underlying KV store makes
    every operation fail and change nothing. *)
Definition Load (s : Store) : result Z :=
  if blocks_down s then Err (KVError "block repo")
  else Ok (fold_right (fun p m => Z.max (fst p) m) 0 (blocks s)).

(** Modelled from the spec: the block-hash repo's lookup of the root
    persisted for a height; a height without a root is an error. *)
Definition Get (h : Z) (s : Store) : result Hash :=
  if blocks_down s then Err (KVError "block repo")
  else match find (fun p => fst p =? h) (blocks s) with
       | Some p => Ok (snd p)
       | None => Err (KVError "block repo: not found")
       end.

(** Modelled from the spec: "block_repo.set(height, root)". *)
Definition Set_ (h : Z) (r : Hash) (s : Store) : Store * option error :=
  if blocks_down s then (s, Some (KVError "block repo"))
  else (mkStore ((h, r) :: blocks s) (temporal s) (log s) (buffer s) (nm_height s)
          (cache s) (marks s) (rebuild s) (adopted s)
          (blocks_down s) (temporal_down s) (nodes_down s), None).

(** Modelled from the spec: the temporal repo (package temporalrepo):
    "nodes_at(h) -> set<name> and set_nodes_at(names, heights) (parallel
    arrays of equal length; each pair records that name n needs attention
    at height h). Duplicate insertions are idempotent."  Nothing removes a
    pair: the orchestrator calls no other method of the repo. *)
Definition has_pair (p : Z * name) (t : list (Z * name)) : bool :=
  existsb (fun q => (fst q =? fst p) && bytes.Equal (snd q) (snd p)) t.

(** Modelled from the spec: one insertion into the temporal repo,
    idempotent. *)
Definition add_pair (t : list (Z * name)) (p : Z * name) : list (Z * name) :=
  if has_pair p t then t else t ++ [p].

(** Modelled from the spec: the set of names recorded for a height. *)
Definition names_at (h : Z) (t : list (Z * name)) : list name :=
  map snd (filter (fun p => fst p =? h) t).

(** Modelled from the spec: "nodes_at(h)" on the recorded pairs; the
    slice is nil when no name is recorded. *)
Definition nodes_at (h : Z) (t : list (Z * name)) : slice name :=
  match names_at h t with
  | [] => None
  | l => Some l
  end.

(** Modelled from the spec: "set_nodes_at(names, heights)" on the recorded
    pairs. *)
Definition set_nodes_at (names : list name) (heights : list Z) (t : list (Z * name))
  : list (Z * name) :=
  fold_left add_pair (combine heights names) t.

(** Modelled from the spec: "nodes_at(h)". *)
Definition NodesAt (h : Z) (s : Store) : result (slice name) :=
  if temporal_down s then Err (KVError "temporal repo")
  else Ok (nodes_at h (temporal s)).

(** Modelled from the spec: "set_nodes_at(names, heights)". *)
Definition SetNodesAt (names : list name) (heights : list Z) (s : Store)
  : Store * option error :=
  if temporal_down s then (s, Some (KVError "temporal repo"))
  else (mkStore (blocks s) (set_nodes_at names heights (temporal s))
          (log s) (buffer s) (nm_height s)
          (cache s) (marks s) (rebuild s) (adopted s)
          (blocks_down s) (temporal_down s) (nodes_down s), None).

(** Modelled from the spec: "iterate_names", every name of the change
    log once. *)
Definition IterateNames (s : Store) : list name :=
  distinct (map change.Name (log s)).

(** Modelled from the spec: the node the node manager supplies for a
    name: its changes up to the height of the node manager, and that
    height. *)
Definition fresh_input (n : name) (s : Store) : list change.Change * Z :=
  (history n (truncate (nm_height s) (log s)), nm_height s).

(** Modelled from the spec: the node the trie holds in memory for a
    name, if any. *)
Definition lookup (n : name) (c : list (name * Leaf)) : option Leaf :=
  option_map snd (find (fun p => bytes.Equal (fst p) n) c).

(** Modelled from the spec: the names the next [merkle_hash] has to work
    on: every name of the node manager once the tree was cleared ("rebuilt
    from node manager"), then the names marked dirty. *)
Definition dirty (s : Store) : list (name * bool) :=
  (if rebuild s then map (fun n => (n, true)) (IterateNames s) else []) ++ marks s.

Section WithSemantics.

Context {sem : NodeSemantics}.

(** Modelled from the spec: the [next_update_height] of the node of a
    name at the height of the node manager. *)
Definition next_of (n : name) (s : Store) : Z :=
  next_update_height (history n (truncate (nm_height s) (log s))) (nm_height s).

(** Modelled from the spec: the node manager (package node), below the
    normalization fork, where a name is its own canonical name:
    "append_change(chg): buffers the change (not yet applied)";
    "advance_to(target_h) -> names_touched: for every name with a
    buffered change or whose cached next_update_height <= target_h,
    rebuild and persist; return the set of touched names";
    "rewind_to(names, target_h): drops buffered/persisted changes above
    target_h for the given names";
    "next_update_height_of(name) -> (canonical_name, height)";
    "iterate_names".  The touched names are returned "sorted,
    de-duplicated"; [IncrementHeightTo_unsorted] is the same manager
    returning them as they come, a name once for each of its changes. *)
Definition AppendChange (chg : change.Change) (s : Store) : Store * option error :=
  if nodes_down s then (s, Some (KVError "node repo"))
  else (mkStore (blocks s) (temporal s) (log s) (buffer s ++ [chg]) (nm_height s)
          (cache s) (marks s) (rebuild s) (adopted s)
          (blocks_down s) (temporal_down s) (nodes_down s), None).

(** Modelled from the spec: the names "whose cached next_update_height <=
    target_h". *)
Definition due (target : Z) (s : Store) : list name :=
  filter (fun n => (0 <? next_of n s) && (next_of n s <=? target))
         (distinct (map change.Name (log s))).

(** Modelled from the spec: "every name with a buffered change or whose
    cached next_update_height <= target_h". *)
Definition touched (target : Z) (s : Store) : list name :=
  map change.Name (buffer s) ++ due target s.

(** Modelled from the spec: the buffered changes are persisted and the
    node manager is at the target height. *)
Definition advance (target : Z) (s : Store) : Store :=
  mkStore (blocks s) (temporal s) (log s ++ buffer s) [] target
    (cache s) (marks s) (rebuild s) (adopted s)
    (blocks_down s) (temporal_down s) (nodes_down s).

(** Modelled from the spec: "advance_to(target_h) -> names_touched ...
    (sorted, de-duplicated)". *)
Definition IncrementHeightTo (target : Z) (s : Store) : Store * result (slice name) :=
  if nodes_down s then (s, Err (KVError "node repo"))
  else (advance target s, Ok (removeDuplicates (Some (touched target s)))).

(** Modelled from the spec: [advance_to] again, the touched names left as
    they come. *)
Definition IncrementHeightTo_unsorted (target : Z) (s : Store)
  : Store * result (slice name) :=
  if nodes_down s then (s, Err (KVError "node repo"))
  else (advance target s, Ok (Some (touched target s))).

(** Modelled from the spec: a change survives a rewind unless it is "above
    target_h" and "for the given names". *)
Definition kept (names : list name) (target : Z) (c : change.Change) : bool :=
  negb ((target <? change.Height c) && mem (change.Name c) names).

(** Modelled from the spec: "rewind_to(names, target_h): drops
    buffered/persisted changes above target_h for the given names". *)
Definition DecrementHeightTo (names : slice name) (target : Z) (s : Store)
  : Store * option error :=
  if nodes_down s then (s, Some (KVError "node repo"))
  else (mkStore (blocks s) (temporal s)
          (filter (kept (elems names) target) (log s))
          (filter (kept (elems names) target) (buffer s)) target
          (cache s) (marks s) (rebuild s) (adopted s)
          (blocks_down s) (temporal_down s) (nodes_down s), None).

(** Modelled from the spec: "next_update_height_of(name) ->
    (canonical_name, height)", below the normalization fork. *)
Definition NextUpdateHeightOfNode (n : name) (s : Store) : Store * (name * Z) :=
  (s, (n, next_of n s)).

(** Modelled from the spec: the merkle trie (package merkletrie), whose
    positions each store "an optional node hash supplied by the node
    manager".  "update(name, require_recompute): mark the path from the
    root to name dirty". *)
Definition Update (n : name) (required : bool) (s : Store) : Store * unit :=
  (mkStore (blocks s) (temporal s) (log s) (buffer s) (nm_height s)
     (cache s) (marks s ++ [(n, required)]) (rebuild s) (adopted s)
     (blocks_down s) (temporal_down s) (nodes_down s), tt).

(** Modelled from the spec: the recomputation of one dirty name: its
    input is supplied anew by the node manager, unless "require_recompute
    is false", when "the leaf node's cached input is assumed unchanged";
    its hash is computed from the input by the scheme in force. *)
Definition recompute (allClaims : bool) (s : Store) (c : list (name * Leaf))
    (m : name * bool) : list (name * Leaf) :=
  let input :=
    if snd m then fresh_input (fst m) s
    else match lookup (fst m) c with
         | Some l => (leaf_history l, leaf_height l)
         | None => fresh_input (fst m) s
         end in
  (fst m, mkLeaf (fst input) (snd input) (node_hash allClaims (fst input) (snd input)))
    :: c.

(** Modelled from the spec: the node hashes of the tree, in the order of
    the names; a node without hash is "omitted from the trie". *)
Definition leaves (c : list (name * Leaf)) : list (name * Hash) :=
  flat_map (fun n => match lookup n c with
                     | Some l => match leaf_hash l with
                                 | Some h => [(n, h)]
                                 | None => []
                                 end
                     | None => []
                     end)
           (elems (removeDuplicates (Some (map fst c)))).

(** Modelled from the spec: "lazily recompute dirty paths bottom-up and
    return the root": the dirty names are recomputed, the others keep the
    hash they have, and the root over all of them is the root of the tree
    from then on. *)
Definition rehash (allClaims : bool) (s : Store) : Store * Hash :=
  let c := fold_left (recompute allClaims s) (dirty s) (cache s) in
  let r := root_over (leaves c) in
  (mkStore (blocks s) (temporal s) (log s) (buffer s) (nm_height s)
     c [] false (Some r)
     (blocks_down s) (temporal_down s) (nodes_down s), r).

(** Modelled from the spec: "merkle_hash() / merkle_hash_all_claims()";
    with nothing dirty the root the tree has is returned as it is. *)
Definition hash_with (allClaims : bool) (s : Store) : Store * Hash :=
  match adopted s, rebuild s, marks s with
  | Some r, false, [] => (s, r)
  | _, _, _ => rehash allClaims s
  end.

(** Modelled from the spec: "merkle_hash()", by the pre-fork scheme. *)
Definition MerkleHash_ (s : Store) : Store * Hash := hash_with false s.

(** Modelled from the spec: "merkle_hash_all_claims()", by the post-fork
    scheme. *)
Definition MerkleHashAllClaims (s : Store) : Store * Hash := hash_with true s.

(** Modelled from the spec: "set_root(hash, names_or_null): adopt hash as
    the authoritative root after a restart or rewind; if names_or_null is
    null, clear the entire in-memory tree", which is then rebuilt from
    the node manager ("to force a full rebuild", spec 4.6); the names given
    otherwise are those the rewind has changed ("else pass the union"),
    which are marked for recomputation. *)
Definition SetRoot (hash : Hash) (names : slice name) (s : Store) : Store * unit :=
  match names with
  | None =>
      (mkStore (blocks s) (temporal s) (log s) (buffer s) (nm_height s)
         [] [] true (Some hash)
         (blocks_down s) (temporal_down s) (nodes_down s), tt)
  | Some l =>
      (mkStore (blocks s) (temporal s) (log s) (buffer s) (nm_height s)
         (cache s) (marks s ++ map (fun n => (n, true)) l) (rebuild s) (Some hash)
         (blocks_down s) (temporal_down s) (nodes_down s), tt)
  end.

(** Modelled from the spec: "idempotent close" of a KV store. *)
Definition Close_ (s : Store) : Store * option error := (s, None).

#[global] Instance blockRepo : BlockRepo Store :=
  Build_BlockRepo Store Load Get Set_ Close_.

#[global] Instance temporalRepo : TemporalRepo Store :=
  Build_TemporalRepo Store NodesAt SetNodesAt Close_.

#[global] Instance nodeManager : NodeManager Store :=
  Build_NodeManager Store AppendChange IncrementHeightTo DecrementHeightTo
    NextUpdateHeightOfNode IterateNames Close_.

Definition nodeManager_unsorted : NodeManager Store :=
  Build_NodeManager Store AppendChange IncrementHeightTo_unsorted DecrementHeightTo
    NextUpdateHeightOfNode IterateNames Close_.

#[global] Instance merkleTrie : MerkleTrie Store :=
  Build_MerkleTrie Store Update MerkleHash_ MerkleHashAllClaims SetRoot Close_.

End WithSemantics.

(** *** A node semantics to run the model with

    Claims and supports are entries that expire [expiration] blocks after
    they were accepted; an update keeps the accepted height of the entry
    it replaces; a spend removes the entry at its outpoint.  Every entry
    is active from the height it is accepted at.  Hashes are plain lists
    of what they commit to, so that different claim sets have different
    roots. *)

Record Entry : Type := mkEntry {
  e_name : name;
  e_outpoint : wire.OutPoint;
  e_id : change.ClaimID;
  e_accepted : Z
}.

Definition same_outpoint (a b : wire.OutPoint) : bool :=
  bytes.Equal (wire.Hash a) (wire.Hash b) && (wire.Index a =? wire.Index b).

(** Modelled from the spec: how a change modifies the entries of a node
    (spec 4.3): "AddClaim / AddSupport: append with accepted_height =
    change.height"; "UpdateClaim: ... inherits the prior accepted_height";
    "SpendClaim / SpendSupport: remove entries matching outpoint". *)
Definition apply_change (es : list Entry) (c : change.Change) : list Entry :=
  let here e := bytes.Equal (e_name e) (change.Name c) in
  match change.Type_ c with
  | change.AddClaim | change.AddSupport =>
      es ++ [mkEntry (change.Name c) (change.OutPoint c) (change.ClaimID_ c) (change.Height c)]
  | change.UpdateClaim =>
      let old e := here e && bytes.Equal (e_id e) (change.ClaimID_ c) in
      let accepted :=
        match find old es with
        | Some e => e_accepted e
        | None => change.Height c
        end in
      filter (fun e => negb (old e)) es
        ++ [mkEntry (change.Name c) (change.OutPoint c) (change.ClaimID_ c) accepted]
  | change.SpendClaim | change.SpendSupport =>
      filter (fun e => negb (here e && same_outpoint (e_outpoint e) (change.OutPoint c))) es
  end.

Definition entries (l : list change.Change) : list Entry := fold_left apply_change l [].

(** Modelled from the spec: "each claim/support expires at accepted_height
    + expiration ...; expired entries are excluded from consideration at
    heights >= expiration". *)
Definition alive (expiration H : Z) (es : list Entry) : list Entry :=
  filter (fun e => H <? e_accepted e + expiration) es.

Definition earliest (hs : list Z) : Z :=
  match hs with
  | [] => 0
  | h :: rest => fold_left Z.min rest h
  end.

(** Modelled from the spec: [next_update_height] as "the minimum over ...
    next expiration of any active claim/support ... or 0 if none remains",
    for nodes without pending activations or takeovers; the pre-fork node
    hash commits to one entry alive, the first, in place of the controlling
    claim, and the post-fork one to "all active claims"; a node without
    entries alive is "omitted from the trie"; the root is the list of the
    names and their node hashes, in place of its hash. *)
Definition expiring (expiration : Z) : NodeSemantics :=
  mkNodeSemantics
    (fun hist H => earliest (map (fun e => e_accepted e + expiration)
                                 (alive expiration H (entries hist))))
    (fun allClaims hist H =>
       match alive expiration H (entries hist) with
       | [] => None
       | e :: rest =>
           Some (if allClaims
                 then x01 :: flat_map (fun e => wire.Hash (e_outpoint e)) (e :: rest)
                 else wire.Hash (e_outpoint e))
       end)
    (fun l => x00 :: flat_map (fun p => fst p ++ snd p) l).

End SpecModel.


(** ** Vocabulary of the statements *)

(** Ascending order of names, strict and not. *)
Definition name_lt (a b : name) : Prop := bytes.Compare a b = Lt.

Definition name_le (a b : name) : Prop := names_less b a = false.

(** What the loop of [removeDuplicates] computes: an element equal to its
    right neighbour is dropped. *)
Fixpoint compact (l : list name) : list name :=
  match l with
  | [] => []
  | x :: t =>
      match compact t with
      | [] => [x]
      | (y :: _) as t' => if bytes.Equal x y then t' else x :: t'
      end
  end.

Section Effects.

Context {S : Type}.
Context {param : Param}.
Context {blockRepo : BlockRepo S} {temporalRepo : TemporalRepo S}.
Context {nodeManager : NodeManager S} {merkleTrie : MerkleTrie S}.

(** The names [AppendBlock] works on, from what the node manager and the
    temporal repo returned. *)
Definition touched_names (names : slice name) : slice name := removeDuplicates names.

Definition all_names (names expirations : slice name) : slice name :=
  removeDuplicates (append (removeDuplicates names) (elems expirations)).

(** The store after the range loop of [AppendBlock], and the pairs
    (canonical name, next update height) it adds to the temporal batch. *)
Fixpoint range_effect (names : list name) (s : S) : S * list (name * Z) :=
  match names with
  | [] => (s, [])
  | n :: rest =>
      let s1 := fst (merkleTrie_Update n true s) in
      let (s2, next) := nodeManager_NextUpdateHeightOfNode n s1 in
      let (s3, l) := range_effect rest s2 in
      (s3, if snd next <=? 0 then l else next :: l)
  end.

Definition range_calls (names : list name) : list Call :=
  flat_map (fun n => [CallUpdate n true; CallNextUpdateHeightOfNode n]) names.

(** The store after the hash fork sweep, and its calls. *)
Definition sweep_effect (names : list name) (s : S) : S :=
  fold_left (fun s n => fst (merkleTrie_Update n false s)) names s.

Definition sweep_calls (names : list name) : list Call :=
  CallIterateNames :: map (fun n => CallUpdate n false) names.

(** The trie method [MerkleHash] of the orchestrator resorts to at height [h]. *)
Definition hash_effect (h : Z) (s : S) : S * Hash :=
  if h >=? AllClaimsInMerkleForkHeight
  then merkleTrie_MerkleHashAllClaims s
  else merkleTrie_MerkleHash s.

Definition hash_call (h : Z) : Call :=
  if h >=? AllClaimsInMerkleForkHeight then CallMerkleHashAllClaims else CallMerkleHash.

(** The heights the loop of [ResetHeight] visits: [n] of them, from [h]. *)
Fixpoint heights_from (h : Z) (n : nat) : list Z :=
  match n with
  | O => []
  | Datatypes.S n' => h :: heights_from (h + 1) n'
  end.

End Effects.

(** The calls of the hash fork sweep, wherever they occur. *)
Definition is_sweep_call (c : Call) : bool :=
  match c with
  | CallIterateNames => true
  | CallUpdate _ false => true
  | CallSetRoot _ _ => true
  | _ => false
  end.

(** The calls made from one state of the orchestrator to a later one. *)
Definition calls_since {S : Type} (before after : ClaimTrie S) : list Call :=
  skipn (length (journal before)) (journal after).

Section BlockEffects.

Context {S : Type}.
Context {param : Param}.
Context {blockRepo : BlockRepo S} {temporalRepo : TemporalRepo S}.
Context {nodeManager : NodeManager S} {merkleTrie : MerkleTrie S}.

(** The temporal batch of [AppendBlock]: the touched names at the new
    height [h], then the scheduled pairs. *)
Definition batch_names (touched : slice name) (sch : list (name * Z)) : list name :=
  elems touched ++ map fst sch.

Definition batch_heights (h : Z) (touched : slice name) (sch : list (name * Z)) : list Z :=
  map (fun _ => h) (elems touched) ++ map snd sch.

(** The part of [AppendBlock] after the temporal batch is written, from
    the store [s] at that point: the sweep at the fork height, the root,
    its persisting, and [SetRoot] at the fork height. *)
Definition swept (h : Z) (s : S) : S :=
  if h =? AllClaimsInMerkleForkHeight
  then sweep_effect (nodeManager_IterateNames s) s
  else s.

Definition block_root (h : Z) (s : S) : Hash := snd (hash_effect h (swept h s)).

Definition persisted (h : Z) (s : S) : S * option error :=
  blockRepo_Set h (block_root h s) (fst (hash_effect h (swept h s))).

Definition tail_effect (h : Z) (all : slice name) (s : S) : S :=
  if h =? AllClaimsInMerkleForkHeight
  then fst (merkleTrie_SetRoot (block_root h s) all (fst (persisted h s)))
  else fst (persisted h s).

Definition tail_calls (h : Z) (all : slice name) (s : S) : list Call :=
  (if h =? AllClaimsInMerkleForkHeight
   then sweep_calls (nodeManager_IterateNames s) else [])
  ++ [hash_call h; CallSet h (block_root h s)]
  ++ (if h =? AllClaimsInMerkleForkHeight
      then [CallSetRoot (block_root h s) all] else []).

End BlockEffects.

Section ResetEffects.

Context {S : Type}.
Context {temporalRepo : TemporalRepo S}.

(** The names a successful [NodesAt] returned. *)
Definition nodes_of (r : result (slice name)) : list name :=
  match r with
  | Ok names => elems names
  | Err _ => []
  end.

(** What the loop of [ResetHeight] gathers over the heights [hs]. *)
Definition collected (hs : list Z) (s : S) : list name :=
  flat_map (fun k => nodes_of (temporalRepo_NodesAt k s)) hs.

Definition readable (hs : list Z) (s : S) : Prop :=
  forall k, In k hs -> exists r, temporalRepo_NodesAt k s = Ok r.

(** The heights above [target] up to the current one. *)
Definition rewound_heights (target current : Z) : list Z :=
  heights_from (target + 1) (Z.to_nat (current - target)).

End ResetEffects.

Definition with_journal {S : Type} (ct : ClaimTrie S) (calls : list Call) : ClaimTrie S :=
  mkClaimTrie (heap ct) (height ct) (cleanups ct) (journal ct ++ calls).

Section SubmitterShape.

Context {S : Type}.
Context {nodeManager : NodeManager S}.

(** What a change submitter does: the height stays, and one change of the
    given content, stamped with the int32 successor of the current height,
    is handed to the node manager's [AppendChange]; the store is the one
    that call leaves, and the submitter returns nil when the call does and
    its error, wrapped, otherwise. *)
Definition forwards (ty : change.ChangeType) (n : name) (op : wire.OutPoint)
    (id : change.ClaimID) (amt : Z) (m : ClaimTrie S -> option error * ClaimTrie S) : Prop :=
  forall ct : ClaimTrie S,
    let chg := change.mkChange ty (wrap32 (height ct + 1)) n id op amt in
    let answer := nodeManager_AppendChange chg (heap ct) in
    height (snd (m ct)) = height ct /\
    cleanups (snd (m ct)) = cleanups ct /\
    journal (snd (m ct)) = journal ct ++ [CallAppendChange chg] /\
    heap (snd (m ct)) = fst answer /\
    fst (m ct) = option_map (fun e => Wrap e "node manager handle change") (snd answer) /\
    (int32 (height ct) -> height ct < MaxInt32 -> change.Height chg = height ct + 1).

End SubmitterShape.

(** The names handed to [Update(name, true)], in the order of the calls. *)
Definition updated_names (calls : list Call) : list name :=
  flat_map (fun c => match c with CallUpdate n true => [n] | _ => [] end) calls.

(** The batches written to the temporal repo. *)
Definition batches (calls : list Call) : list (list name * list Z) :=
  flat_map (fun c => match c with CallSetNodesAt ns hs => [(ns, hs)] | _ => [] end) calls.

(** The names a call of [IncrementHeightTo] reported. *)
Definition reported (r : result (slice name)) : slice name :=
  match r with
  | Ok names => names
  | Err _ => None
  end.

Section Outcomes.

Context {S : Type}.
Context {param : Param}.
Context {blockRepo : BlockRepo S} {temporalRepo : TemporalRepo S}.
Context {nodeManager : NodeManager S} {merkleTrie : MerkleTrie S}.

(** The four ways through [AppendBlock]. *)
Inductive AppendBlock_outcome (ct : ClaimTrie S) : option error -> ClaimTrie S -> Prop :=
| increment_failed (s1 : S) (e : error) :
    let h := wrap32 (height ct + 1) in
    nodeManager_IncrementHeightTo h (heap ct) = (s1, Err e) ->
    AppendBlock_outcome ct (Some (Wrap e "node manager increment"))
      (mkClaimTrie s1 h (cleanups ct) (journal ct ++ [CallIncrementHeightTo h]))
| nodesAt_failed (s1 : S) (names : slice name) (e : error) :
    let h := wrap32 (height ct + 1) in
    nodeManager_IncrementHeightTo h (heap ct) = (s1, Ok names) ->
    temporalRepo_NodesAt h s1 = Err e ->
    AppendBlock_outcome ct (Some (Wrap e "temporal repo get"))
      (mkClaimTrie s1 h (cleanups ct)
         (journal ct ++ [CallIncrementHeightTo h; CallNodesAt h]))
| setNodesAt_failed (s1 : S) (names expirations : slice name) (s3 : S) (e : error) :
    let h := wrap32 (height ct + 1) in
    let all := all_names names expirations in
    let s2 := fst (range_effect (elems all) s1) in
    let sch := snd (range_effect (elems all) s1) in
    let bn := batch_names (touched_names names) sch in
    let bh := batch_heights h (touched_names names) sch in
    nodeManager_IncrementHeightTo h (heap ct) = (s1, Ok names) ->
    temporalRepo_NodesAt h s1 = Ok expirations ->
    temporalRepo_SetNodesAt bn bh s2 = (s3, Some e) ->
    AppendBlock_outcome ct (Some (Wrap e "temporal repo set"))
      (mkClaimTrie s3 h (cleanups ct)
         (journal ct ++ [CallIncrementHeightTo h; CallNodesAt h]
            ++ range_calls (elems all) ++ [CallSetNodesAt bn bh]))
| block_appended (s1 : S) (names expirations : slice name) (s3 : S) :
    let h := wrap32 (height ct + 1) in
    let all := all_names names expirations in
    let s2 := fst (range_effect (elems all) s1) in
    let sch := snd (range_effect (elems all) s1) in
    let bn := batch_names (touched_names names) sch in
    let bh := batch_heights h (touched_names names) sch in
    nodeManager_IncrementHeightTo h (heap ct) = (s1, Ok names) ->
    temporalRepo_NodesAt h s1 = Ok expirations ->
    temporalRepo_SetNodesAt bn bh s2 = (s3, None) ->
    AppendBlock_outcome ct None
      (mkClaimTrie (tail_effect h all s3) h (cleanups ct)
         (journal ct ++ ([CallIncrementHeightTo h; CallNodesAt h]
            ++ range_calls (elems all) ++ [CallSetNodesAt bn bh]) ++ tail_calls h all s3)).

End Outcomes.

(** ** Runs of the orchestrator *)

(** The calls a client makes between two queries of the root. *)
Inductive Op : Type :=
| OpAddClaim (n : name) (op : wire.OutPoint) (id : change.ClaimID) (amt : Z)
| OpUpdateClaim (n : name) (op : wire.OutPoint) (amt : Z) (id : change.ClaimID)
| OpSpendClaim (n : name) (op : wire.OutPoint) (id : change.ClaimID)
| OpAddSupport (n : name) (op : wire.OutPoint) (amt : Z) (id : change.ClaimID)
| OpSpendSupport (n : name) (op : wire.OutPoint) (id : change.ClaimID)
| OpAppendBlock.

(** What a client sees of one call: the error returned and, after
    [AppendBlock], the height reached and the root [MerkleHash] gives. *)
Inductive Seen : Type :=
| SeenSubmit (err : option error)
| SeenBlock (err : option error) (height : Z) (root : Hash).

Section Runs.

Context {S : Type}.
Context {param : Param}.
Context {blockRepo : BlockRepo S} {temporalRepo : TemporalRepo S}.
Context {nodeManager : NodeManager S} {merkleTrie : MerkleTrie S}.

Definition submit (o : Op) : ClaimTrie S -> option error * ClaimTrie S :=
  match o with
  | OpAddClaim n op id amt => AddClaim n op id amt
  | OpUpdateClaim n op amt id => UpdateClaim n op amt id
  | OpSpendClaim n op id => SpendClaim n op id
  | OpAddSupport n op amt id => AddSupport n op amt id
  | OpSpendSupport n op id => SpendSupport n op id
  | OpAppendBlock => AppendBlock
  end.

Definition is_block (o : Op) : bool :=
  match o with
  | OpAppendBlock => true
  | _ => false
  end.

Fixpoint run (ops : list Op) (ct : ClaimTrie S) : list Seen * ClaimTrie S :=
  match ops with
  | [] => ([], ct)
  | o :: rest =>
      let (err, ct1) := submit o ct in
      if is_block o then
        let (root, ct2) := MerkleHash ct1 in
        let (seen, ct3) := run rest ct2 in
        (SeenBlock err (height ct2) root :: seen, ct3)
      else
        let (seen, ct3) := run rest ct1 in
        (SeenSubmit err :: seen, ct3)
  end.

End Runs.

(** Two slices hold the same names: as sets, and as to being nil. *)
Definition same_elems (a b : slice name) : Prop :=
  forall n, In n (elems a) <-> In n (elems b).

Definition same_names (a b : slice name) : Prop :=
  (a = None <-> b = None) /\ same_elems a b.

Definition same_result {A : Type} (rel : A -> A -> Prop) (a b : result A) : Prop :=
  match a, b with
  | Ok x, Ok y => rel x y
  | Err e1, Err e2 => e1 = e2
  | _, _ => False
  end.

Section Simulation.

Context {S1 S2 : Type}.
Context {blockRepo1 : BlockRepo S1} {temporalRepo1 : TemporalRepo S1}.
Context {nodeManager1 : NodeManager S1} {merkleTrie1 : MerkleTrie S1}.
Context {blockRepo2 : BlockRepo S2} {temporalRepo2 : TemporalRepo S2}.
Context {nodeManager2 : NodeManager S2} {merkleTrie2 : MerkleTrie S2}.

Variable R : S1 -> S2 -> Prop.

Definition related {A : Type} (rel : A -> A -> Prop) (x : S1 * A) (y : S2 * A) : Prop :=
  R (fst x) (fst y) /\ rel (snd x) (snd y).

(** Two implementations of the collaborators answer alike from related
    stores.  The names of [IncrementHeightTo] and [NodesAt] may come in any
    order and any number of times, and what [blockRepo.Set] returns is
    free. *)
Record simulation : Prop := mkSimulation {
  sim_AppendChange : forall chg s1 s2, R s1 s2 ->
    related eq (nodeManager_AppendChange chg s1) (nodeManager_AppendChange chg s2);
  sim_IncrementHeightTo : forall h s1 s2, R s1 s2 ->
    related (same_result same_names)
      (nodeManager_IncrementHeightTo h s1) (nodeManager_IncrementHeightTo h s2);
  sim_NextUpdateHeightOfNode : forall n s1 s2, R s1 s2 ->
    related eq (nodeManager_NextUpdateHeightOfNode n s1)
               (nodeManager_NextUpdateHeightOfNode n s2);
  sim_IterateNames : forall s1 s2, R s1 s2 ->
    nodeManager_IterateNames s1 = nodeManager_IterateNames s2;
  sim_NodesAt : forall h s1 s2, R s1 s2 ->
    same_result same_elems (temporalRepo_NodesAt h s1) (temporalRepo_NodesAt h s2);
  sim_SetNodesAt : forall ns hs s1 s2, R s1 s2 ->
    related eq (temporalRepo_SetNodesAt ns hs s1) (temporalRepo_SetNodesAt ns hs s2);
  sim_Set : forall h r s1 s2, R s1 s2 ->
    R (fst (blockRepo_Set h r s1)) (fst (blockRepo_Set h r s2));
  sim_Update : forall n b s1 s2, R s1 s2 ->
    R (fst (merkleTrie_Update n b s1)) (fst (merkleTrie_Update n b s2));
  sim_MerkleHash : forall s1 s2, R s1 s2 ->
    related eq (merkleTrie_MerkleHash s1) (merkleTrie_MerkleHash s2);
  sim_MerkleHashAllClaims : forall s1 s2, R s1 s2 ->
    related eq (merkleTrie_MerkleHashAllClaims s1) (merkleTrie_MerkleHashAllClaims s2);
  sim_SetRoot : forall hash names s1 s2, R s1 s2 ->
    R (fst (merkleTrie_SetRoot hash names s1)) (fst (merkleTrie_SetRoot hash names s2))
}.

End Simulation.

(** ** The orchestrator on the collaborators of the specification *)

Section ModelVocabulary.

Context {sem : SpecModel.NodeSemantics}.

(** The node of a name, as far as the semantics sees it: the changes of
    the name up to the height of the node manager. *)
Definition node_history (n : name) (s : SpecModel.Store) : list change.Change :=
  SpecModel.history n (SpecModel.truncate (SpecModel.nm_height s) (SpecModel.log s)).

(** The state of a node will change at height [h]: [h] is its next update
    height, or the next one after that, and so on, as long as no further
    change is submitted. *)
Inductive will_change (hist : list change.Change) (current : Z) : Z -> Prop :=
| change_next :
    current < SpecModel.next_update_height hist current ->
    will_change hist current (SpecModel.next_update_height hist current)
| change_later (h : Z) :
    current < SpecModel.next_update_height hist current ->
    will_change hist (SpecModel.next_update_height hist current) h ->
    will_change hist current h.

(** The temporal index lists exactly the coming state changes. *)
Definition index_exact (s : SpecModel.Store) : Prop :=
  forall (h : Z) (n : name),
    In n (SpecModel.names_at h (SpecModel.temporal s)) <->
    will_change (node_history n s) (SpecModel.nm_height s) h.

(** Modelled from the spec: what the node state machine promises of the
    two functions: [next_update_height] is "the smallest future height at
    which its state will change", so the hash of a node that is not due at
    the next height is the same there; and a node without changes has no
    claims and is "omitted from the trie". *)
Record lawful : Prop := mkLawful {
  quiet_step : forall (hist : list change.Change) (H : Z) (allClaims : bool),
    0 <= H ->
    ~ 0 < SpecModel.next_update_height hist H <= H + 1 ->
    SpecModel.node_hash allClaims hist (H + 1) = SpecModel.node_hash allClaims hist H;
  node_absent : forall (allClaims : bool) (H : Z),
    SpecModel.node_hash allClaims [] H = None
}.

(** Modelled from the spec: "The Merkle root is a pure function of the
    full change log truncated at the current height and the fork height
    constant": the root over the hashes of the nodes of all names of the
    log. *)
Definition reference_leaves (allClaims : bool) (H : Z) (l : list change.Change)
  : list (name * Hash) :=
  flat_map (fun n => match SpecModel.node_hash allClaims
                             (SpecModel.history n (SpecModel.truncate H l)) H with
                     | Some h => [(n, h)]
                     | None => []
                     end)
           (elems (removeDuplicates (Some (map change.Name l)))).

Definition reference_root {param : Param} (H : Z) (l : list change.Change) : Hash :=
  SpecModel.root_over (reference_leaves (H >=? AllClaimsInMerkleForkHeight) H l).

(** A node the trie holds is as good as the one the node manager would
    supply now: it has the changes of the name, its input hashes as the
    present one does, and its hash is the one of the scheme in force. *)
Definition good_leaf (allClaims : bool) (s : SpecModel.Store) (n : name)
    (l : SpecModel.Leaf) : Prop :=
  SpecModel.leaf_history l = node_history n s /\
  (forall b : bool,
     SpecModel.node_hash b (SpecModel.leaf_history l) (SpecModel.leaf_height l)
     = SpecModel.node_hash b (node_history n s) (SpecModel.nm_height s)) /\
  SpecModel.leaf_hash l
  = SpecModel.node_hash allClaims (node_history n s) (SpecModel.nm_height s).

(** The input of a node is as good as the present one. *)
Definition input_ok (s : SpecModel.Store) (n : name) (l : SpecModel.Leaf) : Prop :=
  SpecModel.leaf_history l = node_history n s /\
  (forall b : bool,
     SpecModel.node_hash b (SpecModel.leaf_history l) (SpecModel.leaf_height l)
     = SpecModel.node_hash b (node_history n s) (SpecModel.nm_height s)).

(** The trie is consistent with the node manager: it is not waiting to be
    rebuilt, every node it holds is good, it holds a node for every name of
    the log, and its root, if it has one, is the root of the log; no change
    of the log lies above the height of the node manager. *)
Definition consistent {param : Param} (s : SpecModel.Store) : Prop :=
  let H := SpecModel.nm_height s in
  0 <= H /\
  Forall (fun c => change.Height c <= H) (SpecModel.log s) /\
  SpecModel.rebuild s = false /\
  (forall n l, SpecModel.lookup n (SpecModel.cache s) = Some l ->
               good_leaf (H >=? AllClaimsInMerkleForkHeight) s n l) /\
  (forall c, In c (SpecModel.log s) ->
             SpecModel.lookup (change.Name c) (SpecModel.cache s) <> None) /\
  (SpecModel.adopted s = None \/
   SpecModel.adopted s = Some (reference_root H (SpecModel.log s))).

(** A state on which the round trip can be made: the trie is consistent,
    nothing is buffered, the node manager is at the height of the
    orchestrator, the KV stores work, and the block repo holds the root of
    the current height. *)
Definition settled {param : Param} (ct : ClaimTrie SpecModel.Store) : Prop :=
  let s := heap ct in
  consistent s /\
  SpecModel.buffer s = [] /\
  SpecModel.nm_height s = height ct /\
  SpecModel.blocks_down s = false /\
  SpecModel.temporal_down s = false /\
  SpecModel.nodes_down s = false /\
  SpecModel.Get (height ct) s = Ok (fst (MerkleHash ct)).

End ModelVocabulary.

(** *** Concrete data *)

Definition fork3 : Param := Build_Param 3.

Definition ten : SpecModel.NodeSemantics := SpecModel.expiring 10.

Definition fresh (s : SpecModel.Store) : ClaimTrie SpecModel.Store :=
  mkClaimTrie s 0 [blockRepoClose; temporalRepoClose; nodeManagerClose; persistentTrieClose] [].

Definition name_a : name := [x61].

Definition name_b : name := [x62].

Definition op1 : wire.OutPoint := wire.mkOutPoint [x01] 0.

Definition op2 : wire.OutPoint := wire.mkOutPoint [x02] 1.

Definition id1 : change.ClaimID := [x11].

Definition id2 : change.ClaimID := [x12].

(** Stores whose KV back ends fail. *)
Definition nodes_broken : SpecModel.Store :=
  SpecModel.mkStore [] [] [] [] 0 [] [] false None false false true.

Definition blocks_broken : SpecModel.Store :=
  SpecModel.mkStore [] [] [] [] 0 [] [] false None true false false.

(** The change a submitter call hands to the node manager at height [h]. *)
Definition change_of (h : Z) (o : Op) : list change.Change :=
  let stamp := wrap32 (h + 1) in
  match o with
  | OpAddClaim n op id amt => [change.mkChange change.AddClaim stamp n id op amt]
  | OpUpdateClaim n op amt id => [change.mkChange change.UpdateClaim stamp n id op amt]
  | OpSpendClaim n op id => [change.mkChange change.SpendClaim stamp n id op 0]
  | OpAddSupport n op amt id => [change.mkChange change.AddSupport stamp n id op amt]
  | OpSpendSupport n op id => [change.mkChange change.SpendSupport stamp n id op 0]
  | OpAppendBlock => []
  end.

(** Modelled from the spec: what a client is to see of a sequence of calls
    made from height [H] on top of the changes [l], when nothing fails:
    each [AppendBlock] reaches the next height and shows the root of all
    changes submitted before it. *)
Fixpoint reference {sem : SpecModel.NodeSemantics} {param : Param}
    (ops : list Op) (H : Z) (l : list change.Change) : list Seen :=
  match ops with
  | [] => []
  | o :: rest =>
      if is_block o
      then SeenBlock None (H + 1) (reference_root (H + 1) l) :: reference rest (H + 1) l
      else SeenSubmit None :: reference rest H (l ++ change_of H o)
  end.

(** The store with more changes in the buffer of the node manager. *)
Definition buffered (s : SpecModel.Store) (cs : list change.Change) : SpecModel.Store :=
  SpecModel.mkStore (SpecModel.blocks s) (SpecModel.temporal s) (SpecModel.log s)
    (SpecModel.buffer s ++ cs) (SpecModel.nm_height s)
    (SpecModel.cache s) (SpecModel.marks s) (SpecModel.rebuild s) (SpecModel.adopted s)
    (SpecModel.blocks_down s) (SpecModel.temporal_down s) (SpecModel.nodes_down s).

Section ConcreteRuns.

#[local] Existing Instance fork3.
#[local] Existing Instance ten.

(** One empty block appended to a fresh instance. *)
Definition at_height_1 : ClaimTrie SpecModel.Store :=
  snd (run [OpAppendBlock] (fresh SpecModel.empty)).

(** The same with a claim on [name_a] submitted for block 2. *)
Definition with_pending_claim : ClaimTrie SpecModel.Store :=
  snd (run [OpAppendBlock; OpAddClaim name_a op1 id1 100] (fresh SpecModel.empty)).

(** A claim on [name_a] accepted in block 1 and spent in block 2. *)
Definition claimed_then_spent : ClaimTrie SpecModel.Store :=
  snd (run [OpAddClaim name_a op1 id1 100; OpAppendBlock;
            OpSpendClaim name_a op1 id1; OpAppendBlock] (fresh SpecModel.empty)).

(** Two blocks, the second with two claims and a support; the next block
    is the hash fork of [fork3]. *)
Definition before_the_fork : ClaimTrie SpecModel.Store :=
  snd (run [OpAppendBlock; OpAddClaim name_b op2 id2 50; OpAddClaim name_a op1 id1 100;
            OpAddSupport name_b op1 7 id2; OpAppendBlock] (fresh SpecModel.empty)).

(** A store whose block repo holds a root for height 1: the right one,
    and a wrong one. *)
Definition persisted_right : SpecModel.Store :=
  SpecModel.mkStore [(1, [x00])] [] [] [] 0 [] [] false None false false false.

Definition persisted_wrong : SpecModel.Store :=
  SpecModel.mkStore [(1, [x07])] [] [] [] 0 [] [] false None false false false.

End ConcreteRuns.


(** ** Vocabulary for the further properties *)

(** The cleanups [New] registers, in the order of registration. *)
Definition registered (RamTrie : bool) : list Cleanup :=
  [blockRepoClose; temporalRepoClose; nodeManagerClose]
    ++ (if RamTrie then [] else [persistentTrieClose]).

Definition is_cleanup (c : Call) : bool :=
  match c with
  | CallCleanup _ => true
  | _ => false
  end.

Section CloseEffects.

Context {S : Type}.
Context {blockRepo : BlockRepo S} {temporalRepo : TemporalRepo S}.
Context {nodeManager : NodeManager S} {merkleTrie : MerkleTrie S}.

(** The function a registered cleanup stands for. *)
Definition cleanup_effect (c : Cleanup) : S -> S * option error :=
  match c with
  | blockRepoClose => blockRepo_Close
  | temporalRepoClose => temporalRepo_Close
  | nodeManagerClose => nodeManager_Close
  | persistentTrieClose => merkleTrie_Close
  end.

(** The store after the cleanups [cs] have run one after the other. *)
Definition close_effect (cs : list Cleanup) (s : S) : S :=
  fold_left (fun s c => fst (cleanup_effect c s)) cs s.

End CloseEffects.

(** The messages of the errors [New] returns before it has an instance. *)
Definition early_exits : list string :=
  ["creating block repo"; "creating temporal repo"; "creating node repo";
   "creating node base manager"; "creating trie repo"; "load block tip"]%string.

(** Constructors that all succeed, and the same with a trie repo that
    cannot be opened. *)
Definition opening {S : Type} : Constructors S :=
  Build_Constructors S (fun s => (s, None)) (fun s => (s, None)) (fun s => (s, None))
    (fun s => (s, None)) (fun s => (s, None)).

Definition trie_repo_locked {S : Type} : Constructors S :=
  Build_Constructors S (fun s => (s, None)) (fun s => (s, None)) (fun s => (s, None))
    (fun s => (s, None)) (fun s => (s, Some (KVError "trie repo"))).

Section NewEffects.

Context {S : Type}.
Context {param : Param}.
Context {constructors : Constructors S}.
Context {blockRepo : BlockRepo S} {nodeManager : NodeManager S}.
Context {merkleTrie : MerkleTrie S}.

(** The store the constructors of [New] leave when all of them succeed. *)
Definition construct_effect (RamTrie : bool) (s : S) : S :=
  let s1 := fst (blockrepo_NewPebble s) in
  let s2 := fst (temporalrepo_NewPebble s1) in
  let s3 := fst (noderepo_NewPebble s2) in
  let s4 := fst (node_NewBaseManager s3) in
  if RamTrie then s4 else fst (merkletrierepo_NewPebble s4).

(** The store [New] has reached when it stops restoring the height [h]:
    the one it started from when [Get] fails, the one [IncrementHeightTo]
    leaves when that fails, and the one the root computation leaves
    otherwise. *)
Definition restore_effect (h : Z) (s : S) : S :=
  match blockRepo_Get h s with
  | Err _ => s
  | Ok hash =>
      match snd (nodeManager_IncrementHeightTo h s) with
      | Err _ => fst (nodeManager_IncrementHeightTo h s)
      | Ok _ =>
          fst (hash_effect h
                 (fst (merkleTrie_SetRoot hash None
                         (fst (nodeManager_IncrementHeightTo h s)))))
      end
  end.

End NewEffects.

(** The calls [ResetHeight] makes. *)
Definition is_rewind_call (c : Call) : bool :=
  match c with
  | CallNodesAt _ => true
  | CallDecrementHeightTo _ _ => true
  | CallGet _ => true
  | CallSetRoot _ _ => true
  | CallMerkleHash => true
  | CallMerkleHashAllClaims => true
  | _ => false
  end.

(** The calls that compute a root or hand one to the block repo. *)
Definition is_root_call (c : Call) : bool :=
  match c with
  | CallMerkleHash => true
  | CallMerkleHashAllClaims => true
  | CallSet _ _ => true
  | _ => false
  end.

(** The names asked for their next update height, in the order of the calls. *)
Definition asked_names (calls : list Call) : list name :=
  flat_map (fun c => match c with CallNextUpdateHeightOfNode n => [n] | _ => [] end) calls.

(** The heights stamped on the changes handed to the node manager. *)
Definition stamps (calls : list Call) : list Z :=
  flat_map (fun c => match c with CallAppendChange chg => [change.Height chg] | _ => [] end)
           calls.

(** The heights the node manager was advanced to. *)
Definition advances (calls : list Call) : list Z :=
  flat_map (fun c => match c with CallIncrementHeightTo h => [h] | _ => [] end) calls.

(** The height after [n] increments of [AppendBlock]. *)
Fixpoint bump (n : nat) (h : Z) : Z :=
  match n with
  | O => h
  | Datatypes.S n' => bump n' (wrap32 (h + 1))
  end.

Definition blocks_in (ops : list Op) : nat := length (filter is_block ops).


(** ** Vocabulary for the orchestrator on the model *)

Section ModelEffects.

Context {sem : SpecModel.NodeSemantics} {param : Param}.

(** The store with more names marked dirty. *)
Definition marked (s : SpecModel.Store) (ms : list (name * bool)) : SpecModel.Store :=
  SpecModel.mkStore (SpecModel.blocks s) (SpecModel.temporal s) (SpecModel.log s)
    (SpecModel.buffer s) (SpecModel.nm_height s)
    (SpecModel.cache s) (SpecModel.marks s ++ ms) (SpecModel.rebuild s) (SpecModel.adopted s)
    (SpecModel.blocks_down s) (SpecModel.temporal_down s) (SpecModel.nodes_down s).

(** The trie can return its root or recompute it, to the same effect. *)
Definition trie_ready (s : SpecModel.Store) : Prop :=
  SpecModel.rebuild s = false /\
  (SpecModel.adopted s = None \/
   SpecModel.adopted s = Some (SpecModel.root_over (SpecModel.leaves (SpecModel.cache s)))).

(** The names [AppendBlock] works on in the model, their schedule, the
    names dirty when the root is computed, the nodes and the root after
    that, and the store [AppendBlock] leaves when the node repo and the
    temporal repo work. *)
Definition model_touched (h : Z) (s : SpecModel.Store) : slice name :=
  removeDuplicates (Some (SpecModel.touched h s)).

Definition model_all (h : Z) (s : SpecModel.Store) : slice name :=
  all_names (Some (SpecModel.touched h s)) (SpecModel.nodes_at h (SpecModel.temporal s)).

Definition model_schedule (h : Z) (s : SpecModel.Store) : list (name * Z) :=
  map (fun n => (n, SpecModel.next_of n (SpecModel.advance h s)))
      (filter (fun n => negb (SpecModel.next_of n (SpecModel.advance h s) <=? 0))
              (elems (model_all h s))).

Definition model_marks (h : Z) (s : SpecModel.Store) : list (name * bool) :=
  SpecModel.marks s
    ++ map (fun n => (n, true)) (elems (model_all h s))
    ++ (if h =? AllClaimsInMerkleForkHeight
        then map (fun n => (n, false))
                 (SpecModel.distinct (map change.Name (SpecModel.log s ++ SpecModel.buffer s)))
        else []).

Definition model_cache (h : Z) (s : SpecModel.Store) : list (name * SpecModel.Leaf) :=
  fold_left (SpecModel.recompute (h >=? AllClaimsInMerkleForkHeight) (SpecModel.advance h s))
            (model_marks h s) (SpecModel.cache s).

Definition model_root (h : Z) (s : SpecModel.Store) : Hash :=
  SpecModel.root_over (SpecModel.leaves (model_cache h s)).

Definition model_appended (h : Z) (s : SpecModel.Store) : SpecModel.Store :=
  SpecModel.mkStore
    (if SpecModel.blocks_down s then SpecModel.blocks s
     else (h, model_root h s) :: SpecModel.blocks s)
    (SpecModel.set_nodes_at (batch_names (model_touched h s) (model_schedule h s))
       (batch_heights h (model_touched h s) (model_schedule h s)) (SpecModel.temporal s))
    (SpecModel.log s ++ SpecModel.buffer s) [] h
    (model_cache h s)
    (if h =? AllClaimsInMerkleForkHeight
     then map (fun n => (n, true)) (elems (model_all h s)) else [])
    false (Some (model_root h s))
    (SpecModel.blocks_down s) (SpecModel.temporal_down s) (SpecModel.nodes_down s).

End ModelEffects.

Section Answers.

Context {S : Type}.
Context {nodeManager : NodeManager S} {merkleTrie : MerkleTrie S}.

(** What the node manager answers in the range loop of [AppendBlock]: each
    name the loop asks for, with the pair (canonical name, next update
    height) returned for it, from the store the loop has reached. *)
Fixpoint answers (names : list name) (s : S) : list (name * (name * Z)) :=
  match names with
  | [] => []
  | n :: rest =>
      let s1 := fst (merkleTrie_Update n true s) in
      let (s2, next) := nodeManager_NextUpdateHeightOfNode n s1 in
      (n, next) :: answers rest s2
  end.

End Answers.

(** ** The temporal repo beside any other collaborators *)

(** Modelled from the spec: the temporal repo is a KV store of its own
    ("Temporal repo: key = big-endian u32 height || length-prefixed name;
    value empty"), which "maps height -> set of names" and which the other
    collaborators do not write to: the store is the store [N] of the block
    repo, the node manager and the trie, whatever they are, with the pairs
    recorded in the temporal repo beside it. *)
Definition Indexed (N : Type) : Type := N * list (Z * name).

Section IndexedStore.

Context {N : Type}.
Context {blockRepoN : BlockRepo N} {nodeManagerN : NodeManager N}.
Context {merkleTrieN : MerkleTrie N}.

(** A method of another collaborator, on the store with the index. *)
Definition beside {A : Type} (f : N -> N * A) (s : Indexed N) : Indexed N * A :=
  ((fst (f (fst s)), snd s), snd (f (fst s))).

Definition indexed_blockRepo : BlockRepo (Indexed N) :=
  Build_BlockRepo (Indexed N)
    (fun s => blockRepo_Load (fst s))
    (fun h s => blockRepo_Get h (fst s))
    (fun h r => beside (blockRepo_Set h r))
    (beside blockRepo_Close).

(** Modelled from the spec: "nodes_at(h) -> set<name> and
    set_nodes_at(names, heights)", over a KV store that works. *)
Definition indexed_temporalRepo : TemporalRepo (Indexed N) :=
  Build_TemporalRepo (Indexed N)
    (fun h s => Ok (SpecModel.nodes_at h (snd s)))
    (fun names heights s => ((fst s, SpecModel.set_nodes_at names heights (snd s)), None))
    (fun s => (s, None)).

Definition indexed_nodeManager : NodeManager (Indexed N) :=
  Build_NodeManager (Indexed N)
    (fun chg => beside (nodeManager_AppendChange chg))
    (fun h => beside (nodeManager_IncrementHeightTo h))
    (fun names h => beside (nodeManager_DecrementHeightTo names h))
    (fun n => beside (nodeManager_NextUpdateHeightOfNode n))
    (fun s => nodeManager_IterateNames (fst s))
    (beside nodeManager_Close).

Definition indexed_merkleTrie : MerkleTrie (Indexed N) :=
  Build_MerkleTrie (Indexed N)
    (fun n required => beside (merkleTrie_Update n required))
    (beside merkleTrie_MerkleHash)
    (beside merkleTrie_MerkleHashAllClaims)
    (fun hash names => beside (merkleTrie_SetRoot hash names))
    (beside merkleTrie_Close).

End IndexedStore.

(** A node manager that normalizes: it is the node manager of the model,
    and answers with the name in lower case (of the letter A, which is all
    the runs below need), as "next_update_height_of(name) ->
    (canonical_name, height)" may. *)
Definition lower_case (n : name) : name :=
  map (fun b => if Byte.eqb b x41 then x61 else b) n.

Definition normalizing {sem : SpecModel.NodeSemantics} : NodeManager SpecModel.Store :=
  Build_NodeManager SpecModel.Store
    SpecModel.AppendChange SpecModel.IncrementHeightTo SpecModel.DecrementHeightTo
    (fun n s => (s, (lower_case n, SpecModel.next_of n s)))
    SpecModel.IterateNames SpecModel.Close_.

Definition name_A : name := [x41].

(** An instance at height 0 over the store of the model with the
    normalizing node manager, the temporal repo beside it, after a claim on
    the name A was submitted for block 1. *)
Definition claim_on_A : ClaimTrie (Indexed SpecModel.Store) :=
  snd (AddClaim (nodeManager := indexed_nodeManager (nodeManagerN := normalizing (sem := ten)))
         name_A op1 id1 100
         (mkClaimTrie (SpecModel.empty, []) 0 [] [])).


(** * Properties *)

(** ** Byte strings are totally ordered by [bytes.Compare] *)

Lemma to_N_inj (x y : byte) : Byte.to_N x = Byte.to_N y -> x = y.
Proof.
intros E.
assert (Some x = Some y) as H by (rewrite <- (Byte.of_to_N x), <- (Byte.of_to_N y), E; reflexivity).
now inversion H.
Qed.

Lemma Equal_true (a b : list byte) : bytes.Equal a b = true <-> a = b.
Proof.
revert b; induction a as [|x a IH]; intros [|y b]; simpl; split; intros H;
  try reflexivity; try discriminate.
- apply andb_true_iff in H as [Hxy Hab].
  apply Byte.byte_dec_bl in Hxy. apply IH in Hab. now subst.
- inversion H; subst. apply andb_true_iff; split.
  + now apply Byte.byte_dec_lb.
  + now apply IH.
Qed.

Lemma Equal_refl (a : list byte) : bytes.Equal a a = true.
Proof. now apply Equal_true. Qed.

Lemma Equal_false (a b : list byte) : bytes.Equal a b = false <-> a <> b.
Proof.
split.
- intros H E. apply Equal_true in E. congruence.
- intros H. destruct (bytes.Equal a b) eqn:E; [|reflexivity].
  apply Equal_true in E. contradiction.
Qed.

Lemma Compare_Eq (a b : list byte) : bytes.Compare a b = Eq <-> a = b.
Proof.
revert b; induction a as [|x a IH]; intros [|y b]; simpl; split; intros H;
  try reflexivity; try discriminate.
- destruct (N.compare_spec (Byte.to_N x) (Byte.to_N y)) as [E| |]; try discriminate.
  apply to_N_inj in E. apply IH in H. now subst.
- inversion H; subst. rewrite N.compare_refl. now apply IH.
Qed.

Lemma Compare_antisym (a b : list byte) :
  bytes.Compare b a = CompOpp (bytes.Compare a b).
Proof.
revert b; induction a as [|x a IH]; intros [|y b]; simpl; try reflexivity.
rewrite (N.compare_antisym (Byte.to_N x) (Byte.to_N y)).
destruct (N.compare (Byte.to_N x) (Byte.to_N y)); simpl; auto.
Qed.

Lemma Compare_Lt_trans (a b c : list byte) :
  bytes.Compare a b = Lt -> bytes.Compare b c = Lt -> bytes.Compare a c = Lt.
Proof.
revert b c; induction a as [|x a IH]; intros [|y b] [|z c]; simpl;
  try reflexivity; try discriminate.
destruct (N.compare_spec (Byte.to_N x) (Byte.to_N y)) as [E1|L1|G1]; try discriminate;
  destruct (N.compare_spec (Byte.to_N y) (Byte.to_N z)) as [E2|L2|G2]; try discriminate;
  intros H1 H2.
- rewrite E1, E2, N.compare_refl. eauto.
- rewrite E1. now rewrite (proj2 (N.compare_lt_iff _ _) L2).
- rewrite <- E2. now rewrite (proj2 (N.compare_lt_iff _ _) L1).
- assert (Byte.to_N x < Byte.to_N z)%N as L by lia.
  now rewrite (proj2 (N.compare_lt_iff _ _) L).
Qed.

Lemma names_less_lt (a b : name) : names_less a b = true <-> name_lt a b.
Proof. unfold names_less, name_lt. destruct (bytes.Compare a b); split; congruence. Qed.

Lemma name_le_cases (a b : name) : name_le a b <-> name_lt a b \/ a = b.
Proof.
unfold name_le, name_lt, names_less. rewrite (Compare_antisym a b).
destruct (bytes.Compare a b) eqn:E; simpl; split; intros H; auto; try discriminate.
- right. now apply Compare_Eq.
- destruct H as [H|H]; [discriminate|]. apply Compare_Eq in H. congruence.
Qed.

Lemma name_lt_irrefl (a : name) : ~ name_lt a a.
Proof. unfold name_lt. intros H. rewrite (proj2 (Compare_Eq a a) eq_refl) in H. discriminate. Qed.

Lemma name_lt_trans (a b c : name) : name_lt a b -> name_lt b c -> name_lt a c.
Proof. apply Compare_Lt_trans. Qed.

Lemma name_le_trans (a b c : name) : name_le a b -> name_le b c -> name_le a c.
Proof.
rewrite !name_le_cases. intros [H1|H1] [H2|H2]; subst; auto.
left. eapply name_lt_trans; eauto.
Qed.

Lemma names_less_asym (a b : name) : names_less a b = true -> names_less b a = false.
Proof.
unfold names_less. rewrite (Compare_antisym a b).
destruct (bytes.Compare a b); simpl; congruence.
Qed.

(** ** [sort.Slice] sorts *)

Section SliceFacts.

Context {A : Type} (less : A -> A -> bool).
Hypothesis less_asym : forall a b, less a b = true -> less b a = false.

Let le (a b : A) : Prop := less b a = false.

Lemma insert_perm (x : A) (l : list A) : Permutation (x :: l) (sort.insert less x l).
Proof.
induction l as [|y l IH]; simpl; [reflexivity|].
destruct (less x y); [reflexivity|].
rewrite perm_swap. now constructor.
Qed.

Lemma Slice_perm (l : list A) : Permutation l (sort.Slice less l).
Proof.
induction l as [|x l IH]; simpl; [constructor|].
rewrite <- insert_perm. now constructor.
Qed.

Lemma insert_sorted (x : A) (l : list A) :
  Sorted le l -> Sorted le (sort.insert less x l).
Proof.
induction l as [|y l IH]; simpl; intros H.
- repeat constructor.
- destruct (less x y) eqn:E.
  + constructor; [assumption|]. constructor. now apply less_asym.
  + inversion H as [|? ? Hs Hh]; subst. constructor; [now apply IH|].
    destruct l as [|z l]; simpl.
    * now constructor.
    * destruct (less x z); constructor; auto. now inversion Hh.
Qed.

Lemma Slice_sorted (l : list A) : Sorted le (sort.Slice less l).
Proof.
induction l as [|x l IH]; simpl; [constructor|]. now apply insert_sorted.
Qed.

End SliceFacts.

Lemma sorted_name_le_strong (l : list name) :
  Sorted name_le l -> StronglySorted name_le l.
Proof.
apply Sorted_StronglySorted. intros a b c. apply name_le_trans.
Qed.

Lemma Slice_names_sorted (l : list name) :
  StronglySorted name_le (sort.Slice names_less l).
Proof.
apply sorted_name_le_strong. apply (Slice_sorted names_less names_less_asym).
Qed.

(** Two ascending arrangements of the same names are the same list: the
    result of [sort.Slice] does not depend on the sorting algorithm. *)
Lemma sorted_perm_unique (l1 l2 : list name) :
  StronglySorted name_le l1 -> StronglySorted name_le l2 ->
  Permutation l1 l2 -> l1 = l2.
Proof.
revert l2; induction l1 as [|x l1 IH]; intros l2 S1 S2 P.
- apply Permutation_nil in P. now subst.
- destruct l2 as [|y l2]; [apply Permutation_sym, Permutation_nil in P; discriminate|].
  apply StronglySorted_inv in S1 as [S1 F1], S2 as [S2 F2].
  rewrite Forall_forall in F1, F2.
  assert (x = y) as ->.
  { assert (In x (y :: l2)) as Hx by (eapply Permutation_in; [exact P|now left]).
    assert (In y (x :: l1)) as Hy
      by (eapply Permutation_in; [apply Permutation_sym; exact P|now left]).
    destruct Hx as [Hx|Hx]; [congruence|].
    destruct Hy as [Hy|Hy]; [congruence|].
    apply F1 in Hy. apply F2 in Hx.
    apply name_le_cases in Hx, Hy.
    destruct Hx as [Hx|Hx]; [|congruence].
    destruct Hy as [Hy|Hy]; [|congruence].
    exfalso. apply (name_lt_irrefl x). eapply name_lt_trans; eauto. }
  f_equal. apply IH; auto. eapply Permutation_cons_inv; eauto.
Qed.

Lemma Slice_unique (l l' : list name) :
  Permutation l l' -> StronglySorted name_le l' -> l' = sort.Slice names_less l.
Proof.
intros P S'. apply sorted_perm_unique; auto.
- apply Slice_names_sorted.
- rewrite <- P. apply Slice_perm.
Qed.

(** ** The loop of [removeDuplicates] *)

Lemma compact_cons (x : name) (t : list name) :
  compact (x :: t) =
  match compact t with
  | [] => [x]
  | (y :: _) as t' => if bytes.Equal x y then t' else x :: t'
  end.
Proof. reflexivity. Qed.

Lemma compact_idem (l : list name) : compact (compact l) = compact l.
Proof.
induction l as [|x t IH]; [reflexivity|].
rewrite compact_cons.
destruct (compact t) as [|z t'] eqn:E; [reflexivity|].
destruct (bytes.Equal x z) eqn:Exz; [assumption|].
rewrite compact_cons, IH. now rewrite Exz.
Qed.

Lemma compact_app (a b : list name) : compact (a ++ b) = compact (a ++ compact b).
Proof.
induction a as [|x a IH]; simpl app.
- now rewrite compact_idem.
- now rewrite !compact_cons, IH.
Qed.

Lemma nth_after (pre : list name) (x y : name) (suf : list name) :
  nth (Datatypes.S (length pre)) (pre ++ x :: y :: suf) [] = y.
Proof. induction pre as [|z pre IH]; [reflexivity|exact IH]. Qed.

Lemma firstn_pre (pre suf : list name) : firstn (length pre) (pre ++ suf) = pre.
Proof. induction pre as [|z pre IH]; simpl; [now destruct suf|now rewrite IH]. Qed.

Lemma skipn_after (pre : list name) (x : name) (suf : list name) :
  skipn (Datatypes.S (length pre)) (pre ++ x :: suf) = suf.
Proof. induction pre as [|z pre IH]; [reflexivity|exact IH]. Qed.

Lemma run_step (pre : list name) (x y : name) (suf : list name) :
  removeDuplicates_run (Datatypes.S (length pre)) (pre ++ x :: y :: suf) =
  if bytes.Equal x y
  then removeDuplicates_run (length pre) (pre ++ y :: suf)
  else removeDuplicates_run (length pre) (pre ++ x :: y :: suf).
Proof.
cbn [removeDuplicates_run].
rewrite nth_middle, nth_after, firstn_pre, skipn_after. reflexivity.
Qed.

Lemma run_compact (pre suf : list name) :
  suf <> [] -> compact suf = suf ->
  removeDuplicates_run (length pre) (pre ++ suf) = compact (pre ++ suf).
Proof.
revert suf; induction pre as [|x pre IH] using rev_ind; intros suf Hne Hfix.
- simpl. now rewrite Hfix.
- destruct suf as [|y suf]; [contradiction|].
  rewrite <- app_assoc. simpl.
  rewrite length_app. simpl. rewrite Nat.add_1_r.
  rewrite run_step.
  destruct (bytes.Equal x y) eqn:Exy.
  + rewrite IH by (auto; discriminate).
    rewrite (compact_app pre (x :: y :: suf)).
    rewrite (compact_app pre (y :: suf)).
    f_equal. f_equal. rewrite (compact_cons x), Hfix. now rewrite Exy.
  + apply IH; [discriminate|].
    rewrite (compact_cons x), Hfix. now rewrite Exy.
Qed.

Lemma run_is_compact (l : list name) :
  removeDuplicates_run (length l - 1) l = compact l.
Proof.
destruct l as [|z l] using rev_ind; [reflexivity|].
rewrite length_app. simpl. replace (length l + 1 - 1)%nat with (length l) by lia.
apply run_compact; [discriminate|reflexivity].
Qed.

Lemma loop_in_range (k : nat) (l : list name) :
  (k < length l \/ k = 0)%nat ->
  removeDuplicates_loop k l = Some (removeDuplicates_run k l).
Proof.
revert l; induction k as [|i IH]; intros l Hk; [reflexivity|].
destruct Hk as [Hk|Hk]; [|discriminate].
cbn [removeDuplicates_loop removeDuplicates_run].
destruct (nth_error l i) as [a|] eqn:Ea;
  [|apply nth_error_None in Ea; lia].
destruct (nth_error l (Datatypes.S i)) as [b|] eqn:Eb;
  [|apply nth_error_None in Eb; lia].
rewrite (nth_error_nth _ _ _ Ea), (nth_error_nth _ _ _ Eb).
destruct (bytes.Equal a b).
- apply IH. left. rewrite length_app, length_firstn, length_skipn. lia.
- apply IH. left. lia.
Qed.

Lemma compact_nil (l : list name) : compact l = [] -> l = [].
Proof.
destruct l as [|x t]; [reflexivity|]. simpl.
destruct (compact t) as [|y t']; [discriminate|].
destruct (bytes.Equal x y); discriminate.
Qed.

Lemma compact_In (l : list name) (n : name) : In n (compact l) <-> In n l.
Proof.
induction l as [|x t IH]; simpl; [reflexivity|].
destruct (compact t) as [|y t'] eqn:E.
- apply compact_nil in E. subst. reflexivity.
- destruct (bytes.Equal x y) eqn:Exy.
  + apply Equal_true in Exy. subst y. rewrite IH. split; auto.
    intros [H|H]; auto. subst. apply IH. now left.
  + simpl. simpl in IH. rewrite <- IH. reflexivity.
Qed.

Lemma compact_sorted (l : list name) :
  StronglySorted name_le l -> StronglySorted name_lt (compact l).
Proof.
induction l as [|x t IH]; intros Hs; simpl; [constructor|].
apply StronglySorted_inv in Hs as [Hs Hx]. specialize (IH Hs).
destruct (compact t) as [|y t'] eqn:E; [repeat constructor|].
destruct (bytes.Equal x y) eqn:Exy; [assumption|].
constructor; [assumption|].
rewrite Forall_forall in Hx.
assert (name_lt x y) as Hxy.
{ assert (In y t) as Hy by (apply compact_In; rewrite E; now left).
  apply Hx, name_le_cases in Hy. destruct Hy as [Hy|Hy]; [assumption|].
  apply Equal_false in Exy. contradiction. }
apply StronglySorted_inv in IH as [_ Hy]. rewrite Forall_forall in Hy.
apply Forall_forall. intros z [Hz|Hz]; [now subst|].
eapply name_lt_trans; eauto.
Qed.

Lemma strictly_sorted_NoDup (l : list name) : StronglySorted name_lt l -> NoDup l.
Proof.
induction 1 as [|x l Hs IH Hx]; constructor; auto.
intros Hin. rewrite Forall_forall in Hx. apply (name_lt_irrefl x). auto.
Qed.

Lemma removeDuplicates_elems (names : slice name) :
  elems (removeDuplicates names) = compact (sort.Slice names_less (elems names)).
Proof.
destruct names as [l|]; simpl; [|reflexivity]. apply run_is_compact.
Qed.

Lemma removeDuplicates_sorted (names : slice name) :
  StronglySorted name_lt (elems (removeDuplicates names)).
Proof.
rewrite removeDuplicates_elems. apply compact_sorted, Slice_names_sorted.
Qed.

Lemma removeDuplicates_In (names : slice name) (n : name) :
  In n (elems (removeDuplicates names)) <-> In n (elems names).
Proof.
rewrite removeDuplicates_elems, compact_In.
split; apply Permutation_in;
  [apply Permutation_sym|]; apply Slice_perm.
Qed.

Lemma removeDuplicates_nil (names : slice name) :
  removeDuplicates names = None <-> names = None.
Proof. destruct names; simpl; split; congruence. Qed.

Lemma removeDuplicates_checked_eq (names : slice name) :
  removeDuplicates_checked names = Some (removeDuplicates names).
Proof.
destruct names as [l|]; simpl; [|reflexivity].
rewrite loop_in_range; [reflexivity|].
destruct (sort.Slice names_less l); simpl; lia.
Qed.

(** ** What the operations do to the store and the journal *)

Section OperationFacts.

Context {S : Type}.
Context {param : Param}.
Context {blockRepo : BlockRepo S} {temporalRepo : TemporalRepo S}.
Context {nodeManager : NodeManager S} {merkleTrie : MerkleTrie S}.

Lemma MerkleHash_eq (ct : ClaimTrie S) :
  MerkleHash ct =
  (snd (hash_effect (height ct) (heap ct)),
   mkClaimTrie (fst (hash_effect (height ct) (heap ct))) (height ct) (cleanups ct)
     (journal ct ++ [hash_call (height ct)])).
Proof.
unfold MerkleHash, hash_effect, hash_call, bind, Height, call.
destruct (height ct >=? AllClaimsInMerkleForkHeight).
- now destruct (merkleTrie_MerkleHashAllClaims (heap ct)).
- now destruct (merkleTrie_MerkleHash (heap ct)).
Qed.

Lemma AppendBlock_range_eq (names : list name) :
  forall (un : list name) (uh : list Z) (ct : ClaimTrie S),
  AppendBlock_range names un uh ct =
  ((un ++ map fst (snd (range_effect names (heap ct))),
    uh ++ map snd (snd (range_effect names (heap ct)))),
   mkClaimTrie (fst (range_effect names (heap ct))) (height ct) (cleanups ct)
     (journal ct ++ range_calls names)).
Proof.
induction names as [|n rest IH]; intros un uh ct.
- simpl. unfold ret. rewrite !app_nil_r. now destruct ct.
- cbn [AppendBlock_range range_effect range_calls flat_map].
  unfold bind, call at 1 2.
  destruct (merkleTrie_Update n true (heap ct)) as [s1 []] eqn:E1. cbn [fst heap].
  destruct (nodeManager_NextUpdateHeightOfNode n s1) as [s2 [newName nextUpdate]] eqn:E2.
  cbn [heap height cleanups journal snd].
  destruct (range_effect rest s2) as [s3 l] eqn:E3.
  destruct (nextUpdate <=? 0); rewrite IH; cbn [heap height cleanups journal];
    rewrite E3; cbn [fst snd map]; rewrite <- !app_assoc; reflexivity.
Qed.

Lemma markAll_eq (names : list name) :
  forall ct : ClaimTrie S,
  markAll names ct =
  (tt, mkClaimTrie (sweep_effect names (heap ct)) (height ct) (cleanups ct)
         (journal ct ++ map (fun n => CallUpdate n false) names)).
Proof.
induction names as [|n rest IH]; intros ct.
- simpl. unfold ret. rewrite app_nil_r. now destruct ct.
- cbn [markAll sweep_effect fold_left map]. unfold bind, call.
  destruct (merkleTrie_Update n false (heap ct)) as [s1 []] eqn:E1.
  rewrite IH. cbn [heap height cleanups journal fst].
  rewrite <- app_assoc. reflexivity.
Qed.

Lemma updateTrieForHashForkIfNecessary_eq (ct : ClaimTrie S) :
  updateTrieForHashForkIfNecessary ct =
  if height ct =? AllClaimsInMerkleForkHeight
  then (true, mkClaimTrie (sweep_effect (nodeManager_IterateNames (heap ct)) (heap ct))
                (height ct) (cleanups ct)
                (journal ct ++ sweep_calls (nodeManager_IterateNames (heap ct))))
  else (false, ct).
Proof.
unfold updateTrieForHashForkIfNecessary, bind, Height, read, call, ret.
destruct (height ct =? AllClaimsInMerkleForkHeight); cbn [negb]; [|reflexivity].
rewrite markAll_eq. cbn [heap height cleanups journal].
unfold sweep_calls. rewrite <- app_assoc. reflexivity.
Qed.

End OperationFacts.

Section AppendBlockFacts.

Context {S : Type}.
Context {param : Param}.
Context {blockRepo : BlockRepo S} {temporalRepo : TemporalRepo S}.
Context {nodeManager : NodeManager S} {merkleTrie : MerkleTrie S}.

Variable ct : ClaimTrie S.

Let h : Z := wrap32 (height ct + 1).

Lemma AppendBlock_increment_fails (s1 : S) (e : error) :
  nodeManager_IncrementHeightTo h (heap ct) = (s1, Err e) ->
  AppendBlock ct =
  (Some (Wrap e "node manager increment"),
   mkClaimTrie s1 h (cleanups ct) (journal ct ++ [CallIncrementHeightTo h])).
Proof.
intros Hinc.
unfold AppendBlock, bind, Height, set_height, call, ret.
cbn [heap height cleanups journal]. fold h. rewrite Hinc. reflexivity.
Qed.

Lemma AppendBlock_nodesAt_fails (s1 : S) (names : slice name) (e : error) :
  nodeManager_IncrementHeightTo h (heap ct) = (s1, Ok names) ->
  temporalRepo_NodesAt h s1 = Err e ->
  AppendBlock ct =
  (Some (Wrap e "temporal repo get"),
   mkClaimTrie s1 h (cleanups ct)
     (journal ct ++ [CallIncrementHeightTo h; CallNodesAt h])).
Proof.
intros Hinc Hat.
unfold AppendBlock, bind, Height, set_height, read, call, ret.
cbn [heap height cleanups journal]. fold h. rewrite Hinc.
cbn [heap height cleanups journal]. rewrite Hat.
rewrite <- app_assoc. reflexivity.
Qed.

Lemma AppendBlock_after_reads (s1 : S) (names expirations : slice name) :
  nodeManager_IncrementHeightTo h (heap ct) = (s1, Ok names) ->
  temporalRepo_NodesAt h s1 = Ok expirations ->
  let all := all_names names expirations in
  let s2 := fst (range_effect (elems all) s1) in
  let sch := snd (range_effect (elems all) s1) in
  let bn := batch_names (touched_names names) sch in
  let bh := batch_heights h (touched_names names) sch in
  let s3 := fst (temporalRepo_SetNodesAt bn bh s2) in
  let calls :=
    [CallIncrementHeightTo h; CallNodesAt h] ++ range_calls (elems all)
      ++ [CallSetNodesAt bn bh] in
  AppendBlock ct =
  match snd (temporalRepo_SetNodesAt bn bh s2) with
  | Some e =>
      (Some (Wrap e "temporal repo set"),
       mkClaimTrie s3 h (cleanups ct) (journal ct ++ calls))
  | None =>
      (None,
       mkClaimTrie (tail_effect h all s3) h (cleanups ct)
         (journal ct ++ calls ++ tail_calls h all s3))
  end.
Proof.
intros Hinc Hat. cbv zeta.
unfold all_names, touched_names, batch_names, batch_heights.
unfold AppendBlock, bind, Height, set_height, read, call at 1 2, ret.
cbn [heap height cleanups journal]. fold h. rewrite Hinc.
cbn [heap height cleanups journal]. rewrite Hat.
rewrite AppendBlock_range_eq. cbn [heap height cleanups journal].
unfold call at 1. cbn [heap height cleanups journal].
destruct (temporalRepo_SetNodesAt _ _ _) as [s3 [e|]] eqn:Eset; cbn [fst snd].
- rewrite <- !app_assoc. reflexivity.
- rewrite updateTrieForHashForkIfNecessary_eq. cbn [heap height cleanups journal].
  unfold tail_effect, tail_calls, persisted, block_root, swept.
  destruct (h =? AllClaimsInMerkleForkHeight) eqn:Efork.
  + rewrite MerkleHash_eq. cbn [heap height cleanups journal].
    unfold call. cbn [heap height cleanups journal].
    destruct (blockRepo_Set h _ _) as [s6 err] eqn:E6.
    cbn [fst heap height cleanups journal].
    destruct (merkleTrie_SetRoot _ _ s6) as [s7 []] eqn:E7. cbn [fst].
    unfold ret. rewrite <- !app_assoc. reflexivity.
  + rewrite MerkleHash_eq. cbn [heap height cleanups journal].
    unfold call. cbn [heap height cleanups journal].
    destruct (blockRepo_Set h _ _) as [s6 err] eqn:E6. cbn [fst].
    unfold ret. rewrite <- !app_assoc. reflexivity.
Qed.

End AppendBlockFacts.

(** ** int32 *)

Lemma wrap32_in_range (z : Z) : int32 z -> wrap32 z = z.
Proof.
unfold int32, MinInt32, MaxInt32, wrap32. intros H.
rewrite Z.mod_small; lia.
Qed.

Lemma wrap32_int32 (z : Z) : int32 (wrap32 z).
Proof.
unfold int32, MinInt32, MaxInt32, wrap32.
pose proof (Z.mod_pos_bound (z + 2147483648) 4294967296 ltac:(lia)). lia.
Qed.

Lemma heights_from_In (k h : Z) (n : nat) :
  In k (heights_from h n) <-> h <= k < h + Z.of_nat n.
Proof.
revert h; induction n as [|n IH]; intros h; cbn [heights_from In].
- lia.
- rewrite IH. lia.
Qed.

Lemma rewound_heights_In (k target current : Z) :
  In k (rewound_heights target current) <-> target < k <= current.
Proof. unfold rewound_heights. rewrite heights_from_In. lia. Qed.

Section ResetHeightFacts.

Context {S : Type}.
Context {param : Param}.
Context {blockRepo : BlockRepo S} {temporalRepo : TemporalRepo S}.
Context {nodeManager : NodeManager S} {merkleTrie : MerkleTrie S}.

Lemma with_journal_nil (ct : ClaimTrie S) : with_journal ct [] = ct.
Proof. unfold with_journal. rewrite app_nil_r. now destruct ct. Qed.

(** The loop gathers the names of every height it visits, as long as the
    counter does not overflow. *)
Lemma ResetHeight_collect_ok (n : nat) :
  forall (fuel : nat) (h : Z) (l : list name) (ct : ClaimTrie S),
  (n <= fuel)%nat ->
  n = Z.to_nat (height ct + 1 - h) ->
  MinInt32 <= h -> height ct < MaxInt32 ->
  readable (heights_from h n) (heap ct) ->
  ResetHeight_collect fuel h (Some l) ct =
  Some (Ok (Some (l ++ collected (heights_from h n) (heap ct))),
        with_journal ct (map CallNodesAt (heights_from h n))).
Proof.
induction n as [|n IH]; intros fuel h l ct Hfuel Hn Hlo Hhi Hread.
- assert ((h <=? height ct) = false) as Hle by (apply Z.leb_gt; lia).
  destruct fuel; cbn [ResetHeight_collect]; rewrite Hle;
    cbn [heights_from collected flat_map map];
    rewrite with_journal_nil, app_nil_r; reflexivity.
- assert ((h <=? height ct) = true) as Hle by (apply Z.leb_le; lia).
  destruct fuel as [|fuel]; [lia|].
  cbn [ResetHeight_collect]. rewrite Hle.
  unfold read, call.
  destruct (Hread h) as [r Hr]; [now left|]. rewrite Hr.
  rewrite wrap32_in_range by (unfold int32, MinInt32, MaxInt32 in *; lia).
  cbn [append]. replace (append (Some l) (elems r)) with (Some (l ++ elems r))
    by (unfold append; destruct (elems r); reflexivity).
  rewrite IH; cbn [heap height cleanups journal]; try lia.
  + cbn [heights_from collected flat_map map]. rewrite Hr. cbn [nodes_of].
    unfold with_journal. cbn [heap height cleanups journal].
    rewrite <- !app_assoc. reflexivity.
  + intros k Hk. apply Hread. now right.
Qed.

(** The loop stops at the first height whose names cannot be read. *)
Lemma ResetHeight_collect_fails (n : nat) :
  forall (fuel : nat) (h : Z) (l : slice name) (ct : ClaimTrie S) (e : error),
  (n < fuel)%nat ->
  h + Z.of_nat n <= height ct ->
  MinInt32 <= h -> height ct < MaxInt32 ->
  readable (heights_from h n) (heap ct) ->
  temporalRepo_NodesAt (h + Z.of_nat n) (heap ct) = Err e ->
  ResetHeight_collect fuel h l ct =
  Some (Err e, with_journal ct (map CallNodesAt (heights_from h (Datatypes.S n)))).
Proof.
induction n as [|n IH]; intros fuel h l ct e Hfuel Hn Hlo Hhi Hread Herr.
- assert ((h <=? height ct) = true) as Hle by (apply Z.leb_le; lia).
  destruct fuel as [|fuel]; [lia|].
  cbn [ResetHeight_collect]. rewrite Hle. unfold read, call.
  rewrite Z.add_0_r in Herr. rewrite Herr. reflexivity.
- assert ((h <=? height ct) = true) as Hle by (apply Z.leb_le; lia).
  destruct fuel as [|fuel]; [lia|].
  cbn [ResetHeight_collect]. rewrite Hle. unfold read, call.
  destruct (Hread h) as [r Hr]; [now left|]. rewrite Hr.
  rewrite wrap32_in_range by (unfold int32, MinInt32, MaxInt32 in *; lia).
  rewrite (IH _ _ _ _ e); cbn [heap height cleanups journal]; try lia.
  + unfold with_journal. cbn [heap height cleanups journal heights_from map].
    rewrite <- !app_assoc. reflexivity.
  + intros k Hk. apply Hread. now right.
  + rewrite <- Herr. f_equal. lia.
Qed.

(** At [MaxInt32] the condition [h <= ct.height] holds for every [int32]
    counter: the loop goes on as long as the temporal repo answers. *)
Lemma ResetHeight_collect_never_ends (fuel : nat) :
  forall (h : Z) (names : slice name) (ct : ClaimTrie S),
  height ct = MaxInt32 -> int32 h ->
  (forall k, exists r, temporalRepo_NodesAt k (heap ct) = Ok r) ->
  ResetHeight_collect fuel h names ct = None.
Proof.
induction fuel as [|fuel IH]; intros h names ct Hmax Hh Hread;
  cbn [ResetHeight_collect];
  assert ((h <=? height ct) = true) as ->
    by (apply Z.leb_le; rewrite Hmax; apply Hh).
- reflexivity.
- unfold read, call. destruct (Hread h) as [r ->].
  apply IH; cbn [heap height]; auto using wrap32_int32.
Qed.

Lemma ResetHeight_finish_eq (target : Z) (names : slice name) (ct : ClaimTrie S) :
  let s1 := fst (nodeManager_DecrementHeightTo names target (heap ct)) in
  let passedHashFork :=
    (height ct >=? AllClaimsInMerkleForkHeight) && (target <? AllClaimsInMerkleForkHeight) in
  let names' := if passedHashFork then None else names in
  ResetHeight_finish target names ct =
  match snd (nodeManager_DecrementHeightTo names target (heap ct)) with
  | Some e =>
      (Some e, mkClaimTrie s1 (height ct) (cleanups ct)
                 (journal ct ++ [CallDecrementHeightTo names target]))
  | None =>
      match blockRepo_Get target s1 with
      | Err e =>
          (Some e, mkClaimTrie s1 target (cleanups ct)
                     (journal ct ++ [CallDecrementHeightTo names target; CallGet target]))
      | Ok hash =>
          let s2 := fst (merkleTrie_SetRoot hash names' s1) in
          (if IsEqual (snd (hash_effect target s2)) hash
           then None else Some (RestoreHashFailed target),
           mkClaimTrie (fst (hash_effect target s2)) target (cleanups ct)
             (journal ct ++ [CallDecrementHeightTo names target; CallGet target;
                             CallSetRoot hash names'; hash_call target]))
      end
  end.
Proof.
cbv zeta.
unfold ResetHeight_finish, bind, Height, set_height, read, call at 1 2, ret.
cbn [heap height cleanups journal].
destruct (nodeManager_DecrementHeightTo names target (heap ct)) as [s1 [e|]];
  cbn [fst snd heap height cleanups journal]; [reflexivity|].
destruct (blockRepo_Get target s1) as [hash|e].
- unfold call. cbn [heap height cleanups journal].
  destruct (merkleTrie_SetRoot _ _ s1) as [s2 []]. cbn [fst].
  rewrite MerkleHash_eq. cbn [heap height cleanups journal fst snd].
  rewrite <- !app_assoc.
  destruct (IsEqual _ hash); reflexivity.
- rewrite <- !app_assoc. reflexivity.
Qed.

Lemma ResetHeight_eq (fuel : nat) (target : Z) (ct : ClaimTrie S) :
  let hs := rewound_heights target (height ct) in
  int32 target -> target < MaxInt32 -> height ct < MaxInt32 ->
  (length hs <= fuel)%nat ->
  readable hs (heap ct) ->
  ResetHeight fuel target ct =
  Some (ResetHeight_finish target (Some (collected hs (heap ct)))
          (with_journal ct (map CallNodesAt hs))).
Proof.
intros hs Ht Hlt Hhi Hfuel Hread. unfold ResetHeight.
rewrite wrap32_in_range by (unfold int32, MinInt32, MaxInt32 in *; lia).
assert (length hs = Z.to_nat (height ct - target)) as Hlen.
{ subst hs. unfold rewound_heights. generalize (target + 1).
  induction (Z.to_nat (height ct - target)) as [|n IH]; intros z; simpl; auto. }
rewrite (ResetHeight_collect_ok (Z.to_nat (height ct - target))); try lia.
- reflexivity.
- unfold int32 in Ht. lia.
- exact Hread.
Qed.

End ResetHeightFacts.

Section Claims.

Context {S : Type}.
Context {param : Param}.
Context {blockRepo : BlockRepo S} {temporalRepo : TemporalRepo S}.
Context {nodeManager : NodeManager S} {merkleTrie : MerkleTrie S}.

Lemma forwardNodeChange_eq (chg : change.Change) (ct : ClaimTrie S) :
  let chg' := change.with_Height (wrap32 (height ct + 1)) chg in
  snd (forwardNodeChange chg ct) =
  mkClaimTrie (fst (nodeManager_AppendChange chg' (heap ct))) (height ct) (cleanups ct)
    (journal ct ++ [CallAppendChange chg']).
Proof.
cbv zeta. unfold forwardNodeChange, bind, Height, call, ret.
destruct (nodeManager_AppendChange _ (heap ct)) as [s' [e|]]; reflexivity.
Qed.

Lemma forwardNodeChange_forwards (ty : change.ChangeType) (n : name)
    (op : wire.OutPoint) (id : change.ClaimID) (amt : Z) :
  forwards ty n op id amt (forwardNodeChange (change.mkChange ty 0 n id op amt)).
Proof.
intros ct chg answer. rewrite forwardNodeChange_eq. cbn [height cleanups journal heap].
assert (Herr : fst (forwardNodeChange (change.mkChange ty 0 n id op amt) ct) =
               option_map (fun e => Wrap e "node manager handle change") (snd answer)).
{ subst answer chg. unfold forwardNodeChange, bind, Height, call, ret.
  cbn [heap height]. unfold change.with_Height.
  cbn [change.Type_ change.Name change.ClaimID_ change.OutPoint change.Amount].
  destruct (nodeManager_AppendChange _ (heap ct)) as [s' [e|]]; reflexivity. }
repeat split; try exact Herr. intros Hr Hlt. subst chg. cbn [change.Height].
apply wrap32_in_range. unfold int32, MinInt32, MaxInt32 in *. lia.
Qed.

(** C8. Each of [AddClaim], [UpdateClaim], [SpendClaim], [AddSupport] and
    [SpendSupport] leaves the height of the orchestrator as it is and hands
    the node manager's [AppendChange] one change, of the submitter's type
    and arguments, whose [Height] is the current height plus one (in int32
    arithmetic; the plain sum below [MaxInt32]): the store afterwards is the
    one [AppendChange] leaves, and the submitter returns what [AppendChange]
    returns, an error wrapped. *)
Theorem submitters_preserve_height (n : name) (op : wire.OutPoint)
    (id : change.ClaimID) (amt : Z) :
  forwards change.AddClaim n op id amt (AddClaim n op id amt) /\
  forwards change.UpdateClaim n op id amt (UpdateClaim n op amt id) /\
  forwards change.SpendClaim n op id 0 (SpendClaim n op id) /\
  forwards change.AddSupport n op id amt (AddSupport n op amt id) /\
  forwards change.SpendSupport n op id 0 (SpendSupport n op id).
Proof.
repeat split; apply forwardNodeChange_forwards.
Qed.

End Claims.

Lemma range_calls_no_sweep (names : list name) :
  filter is_sweep_call (range_calls names) = [].
Proof. induction names as [|n rest IH]; simpl; auto. Qed.

Lemma range_calls_updated (names : list name) :
  updated_names (range_calls names) = names.
Proof. induction names as [|n rest IH]; simpl; [|rewrite IH]; auto. Qed.

Lemma range_calls_batches (names : list name) : batches (range_calls names) = [].
Proof. induction names as [|n rest IH]; simpl; auto. Qed.

Lemma sweep_updates_none (names : list name) :
  updated_names (map (fun n => CallUpdate n false) names) = [].
Proof. induction names as [|n rest IH]; simpl; auto. Qed.

Lemma sweep_batches_none (names : list name) :
  batches (map (fun n => CallUpdate n false) names) = [].
Proof. induction names as [|n rest IH]; simpl; auto. Qed.

Lemma updated_names_app (a b : list Call) :
  updated_names (a ++ b) = updated_names a ++ updated_names b.
Proof. apply flat_map_app. Qed.

Lemma batches_app (a b : list Call) : batches (a ++ b) = batches a ++ batches b.
Proof. apply flat_map_app. Qed.

Lemma skipn_journal {A : Type} (l x : list A) : skipn (length l) (l ++ x) = x.
Proof. induction l; simpl; auto. Qed.

Lemma block_calls_updated (h : Z) (l bn : list name) (bh : list Z) :
  updated_names ([CallIncrementHeightTo h; CallNodesAt h]
                   ++ range_calls l ++ [CallSetNodesAt bn bh]) = l.
Proof.
change ([CallIncrementHeightTo h; CallNodesAt h] ++ range_calls l ++ [CallSetNodesAt bn bh])
  with (CallIncrementHeightTo h :: CallNodesAt h :: (range_calls l ++ [CallSetNodesAt bn bh])).
cbn [updated_names flat_map app].
fold (updated_names (range_calls l ++ [CallSetNodesAt bn bh])).
rewrite updated_names_app, range_calls_updated. cbn. apply app_nil_r.
Qed.

Lemma block_calls_batches (h : Z) (l bn : list name) (bh : list Z) :
  batches ([CallIncrementHeightTo h; CallNodesAt h]
             ++ range_calls l ++ [CallSetNodesAt bn bh]) = [(bn, bh)].
Proof.
change ([CallIncrementHeightTo h; CallNodesAt h] ++ range_calls l ++ [CallSetNodesAt bn bh])
  with (CallIncrementHeightTo h :: CallNodesAt h :: (range_calls l ++ [CallSetNodesAt bn bh])).
cbn [batches flat_map app].
fold (batches (range_calls l ++ [CallSetNodesAt bn bh])).
rewrite batches_app, range_calls_batches. reflexivity.
Qed.

Lemma block_calls_no_sweep (h : Z) (l bn : list name) (bh : list Z) :
  filter is_sweep_call ([CallIncrementHeightTo h; CallNodesAt h]
                          ++ range_calls l ++ [CallSetNodesAt bn bh]) = [].
Proof.
cbn [app filter is_sweep_call]. rewrite filter_app, range_calls_no_sweep. reflexivity.
Qed.

Section AppendBlockCases.

Context {S : Type}.
Context {param : Param}.
Context {blockRepo : BlockRepo S} {temporalRepo : TemporalRepo S}.
Context {nodeManager : NodeManager S} {merkleTrie : MerkleTrie S}.

Lemma AppendBlock_cases (ct : ClaimTrie S) :
  AppendBlock_outcome ct (fst (AppendBlock ct)) (snd (AppendBlock ct)).
Proof.
destruct (nodeManager_IncrementHeightTo (wrap32 (height ct + 1)) (heap ct))
  as [s1 [names|e]] eqn:Hinc.
- destruct (temporalRepo_NodesAt (wrap32 (height ct + 1)) s1) as [expirations|e] eqn:Hat.
  + rewrite (AppendBlock_after_reads ct s1 names expirations Hinc Hat). cbv zeta.
    destruct (temporalRepo_SetNodesAt _ _ _) as [s3 [e|]] eqn:Hset; cbn [fst snd].
    * eapply setNodesAt_failed; eauto.
    * eapply block_appended; eauto.
  + rewrite (AppendBlock_nodesAt_fails ct s1 names e Hinc Hat). cbn [fst snd].
    eapply nodesAt_failed; eauto.
- rewrite (AppendBlock_increment_fails ct s1 e Hinc). cbn [fst snd].
  now apply increment_failed.
Qed.

End AppendBlockCases.

Section AppendBlockClaims.

Context {S : Type}.
Context {param : Param}.
Context {blockRepo : BlockRepo S} {temporalRepo : TemporalRepo S}.
Context {nodeManager : NodeManager S} {merkleTrie : MerkleTrie S}.

Lemma AppendBlock_height (ct : ClaimTrie S) :
  height (snd (AppendBlock ct)) = wrap32 (height ct + 1).
Proof. destruct (AppendBlock_cases ct); reflexivity. Qed.

Lemma tail_calls_no_sweep (h : Z) (all : slice name) (s : S) :
  h <> AllClaimsInMerkleForkHeight ->
  filter is_sweep_call (tail_calls h all s) = [].
Proof.
intros Hne. unfold tail_calls. apply Z.eqb_neq in Hne. rewrite Hne.
unfold hash_call. destruct (h >=? AllClaimsInMerkleForkHeight); reflexivity.
Qed.


Lemma tail_calls_updated (h : Z) (all : slice name) (s : S) :
  updated_names (tail_calls h all s) = [].
Proof.
unfold tail_calls, sweep_calls, hash_call.
destruct (h =? AllClaimsInMerkleForkHeight), (h >=? AllClaimsInMerkleForkHeight);
  cbn [app updated_names flat_map];
  try reflexivity;
  fold (updated_names (map (fun n => CallUpdate n false) (nodeManager_IterateNames s) ++ [CallMerkleHashAllClaims; CallSet h (block_root h s); CallSetRoot (block_root h s) all]));
  fold (updated_names (map (fun n => CallUpdate n false) (nodeManager_IterateNames s) ++ [CallMerkleHash; CallSet h (block_root h s); CallSetRoot (block_root h s) all]));
  rewrite updated_names_app, sweep_updates_none; reflexivity.
Qed.

Lemma tail_calls_batches (h : Z) (all : slice name) (s : S) :
  batches (tail_calls h all s) = [].
Proof.
unfold tail_calls, sweep_calls, hash_call.
destruct (h =? AllClaimsInMerkleForkHeight), (h >=? AllClaimsInMerkleForkHeight);
  cbn [app batches flat_map];
  try reflexivity;
  fold (batches (map (fun n => CallUpdate n false) (nodeManager_IterateNames s) ++ [CallMerkleHashAllClaims; CallSet h (block_root h s); CallSetRoot (block_root h s) all]));
  fold (batches (map (fun n => CallUpdate n false) (nodeManager_IterateNames s) ++ [CallMerkleHash; CallSet h (block_root h s); CallSetRoot (block_root h s) all]));
  rewrite batches_app, sweep_batches_none; reflexivity.
Qed.

End AppendBlockClaims.

Section AppendBlockNames.

Context {S : Type}.
Context {param : Param}.
Context {blockRepo : BlockRepo S} {temporalRepo : TemporalRepo S}.
Context {nodeManager : NodeManager S} {merkleTrie : MerkleTrie S}.

Lemma firstn_exact {A : Type} (l x : list A) : firstn (length l) (l ++ x) = l.
Proof. induction l as [|a l IH]; simpl; [now destruct x|now rewrite IH]. Qed.

(** C9. [removeDuplicates] never indexes out of range and returns its
    input in ascending byte order, without two equal elements, and with
    exactly the elements of the input.  Hence, in [AppendBlock], the names
    handed one by one to the trie's [Update(name, true)] are ascending and
    distinct, and every temporal batch starts with the names the node
    manager reported, ascending and distinct, each at the new height. *)
Theorem removeDuplicates_sorted_unique :
  (forall names : slice name,
     removeDuplicates_checked names = Some (removeDuplicates names) /\
     StronglySorted name_lt (elems (removeDuplicates names)) /\
     NoDup (elems (removeDuplicates names)) /\
     (forall n, In n (elems (removeDuplicates names)) <-> In n (elems names))) /\
  (forall ct : ClaimTrie S,
     let h := wrap32 (height ct + 1) in
     let calls := calls_since ct (snd (AppendBlock ct)) in
     let touched :=
       elems (removeDuplicates
                (reported (snd (nodeManager_IncrementHeightTo h (heap ct))))) in
     StronglySorted name_lt (updated_names calls) /\
     NoDup (updated_names calls) /\
     StronglySorted name_lt touched /\
     NoDup touched /\
     Forall (fun b => firstn (length touched) (fst b) = touched /\
                      firstn (length touched) (snd b) = map (fun _ => h) touched)
            (batches calls)).
Proof.
split.
- intros names. split; [apply removeDuplicates_checked_eq|].
  split; [apply removeDuplicates_sorted|].
  split; [apply strictly_sorted_NoDup, removeDuplicates_sorted|].
  apply removeDuplicates_In.
- intros ct. cbv zeta. unfold calls_since.
  destruct (AppendBlock_cases ct) as [s1 e h Hinc|s1 names e h Hinc Hat
    |s1 names exps s3 e h all s2 sch bn bh Hinc Hat Hset
    |s1 names exps s3 h all s2 sch bn bh Hinc Hat Hset];
    cbn [journal]; rewrite skipn_journal; fold h;
    try rewrite (updated_names_app _ (tail_calls _ _ _)), (batches_app _ (tail_calls _ _ _));
    rewrite ?tail_calls_updated, ?tail_calls_batches, ?app_nil_r,
      ?block_calls_updated, ?block_calls_batches;
    (split; [|split; [|split; [apply removeDuplicates_sorted
                          |split; [apply strictly_sorted_NoDup, removeDuplicates_sorted|]]]]).
  1-6: cbn; constructor.
  1, 4: apply removeDuplicates_sorted.
  1, 3: apply strictly_sorted_NoDup, removeDuplicates_sorted.
  all: constructor; [|constructor]; rewrite Hinc; cbn [snd reported fst];
    subst bn bh; unfold batch_names, batch_heights, touched_names;
    (split; [apply firstn_exact|]);
    rewrite <- (length_map (fun _ : name => h) (elems (removeDuplicates names))) at 1;
    apply firstn_exact.
Qed.

End AppendBlockNames.

Section FailureClaims.

Context {S : Type}.
Context {param : Param}.
Context {blockRepo : BlockRepo S} {temporalRepo : TemporalRepo S}.
Context {nodeManager : NodeManager S} {merkleTrie : MerkleTrie S}.

(** C10. [AppendBlock] drops what [blockRepo.Set] returns: when the node
    manager and the temporal repo do their part, [AppendBlock] returns nil
    although the block repo refused the (height, root) pair. *)
Theorem AppendBlock_discards_Set_error (ct : ClaimTrie S) (s1 s3 : S)
    (names expirations : slice name) (e : error) :
  let h := wrap32 (height ct + 1) in
  let all := all_names names expirations in
  let s2 := fst (range_effect (elems all) s1) in
  let sch := snd (range_effect (elems all) s1) in
  nodeManager_IncrementHeightTo h (heap ct) = (s1, Ok names) ->
  temporalRepo_NodesAt h s1 = Ok expirations ->
  temporalRepo_SetNodesAt (batch_names (touched_names names) sch)
    (batch_heights h (touched_names names) sch) s2 = (s3, None) ->
  snd (persisted h s3) = Some e ->
  fst (AppendBlock ct) = None /\
  In (CallSet h (block_root h s3)) (calls_since ct (snd (AppendBlock ct))).
Proof.
intros h all s2 sch Hinc Hat Hset Hfail.
rewrite (AppendBlock_after_reads ct s1 names expirations Hinc Hat). cbv zeta.
fold h all s2 sch. rewrite Hset. cbn [fst snd].
split; [reflexivity|].
unfold calls_since. cbn [journal]. rewrite skipn_journal.
apply in_or_app; right. unfold tail_calls.
apply in_or_app; right. apply in_or_app; left. right; left; reflexivity.
Qed.

Lemma ResetHeight_collect_frame (fuel : nat) :
  forall (h : Z) (names : slice name) (ct : ClaimTrie S)
         (r : result (slice name)) (ct' : ClaimTrie S),
  ResetHeight_collect fuel h names ct = Some (r, ct') ->
  heap ct' = heap ct /\ height ct' = height ct /\ cleanups ct' = cleanups ct /\
  exists hs : list Z,
    journal ct' = journal ct ++ map CallNodesAt hs /\
    match r with
    | Ok _ => True
    | Err e => exists hs' k, hs = hs' ++ [k] /\ temporalRepo_NodesAt k (heap ct) = Err e
    end.
Proof.
induction fuel as [|fuel IH]; intros h names ct r ct' H; cbn [ResetHeight_collect] in H.
- destruct (h <=? height ct); [discriminate|]. inversion H; subst.
  repeat split. exists []. now rewrite app_nil_r.
- destruct (h <=? height ct).
  + unfold read, call in H.
    destruct (temporalRepo_NodesAt h (heap ct)) as [results|e] eqn:Hat.
    * apply IH in H. cbn [heap height cleanups journal] in H.
      destruct H as (Hh & Hht & Hc & hs & Hj & Hr).
      repeat split; auto. exists (h :: hs). split.
      -- rewrite Hj, <- app_assoc. reflexivity.
      -- destruct r as [|e]; [exact I|].
         destruct Hr as (hs' & k & -> & Hk). exists (h :: hs'), k. now split.
    * inversion H; subst. cbn [heap height cleanups journal].
      repeat split. exists [h]. split; [reflexivity|]. now exists [], h.
  + inversion H; subst. repeat split. exists []. now rewrite app_nil_r.
Qed.

Lemma wrap32_succ_differs (h : Z) : int32 h -> wrap32 (h + 1) <> h.
Proof.
intros Hh. destruct (Z.eq_dec h MaxInt32) as [->|Hne].
- vm_compute. discriminate.
- rewrite wrap32_in_range; [lia|]. unfold int32, MinInt32, MaxInt32 in *. lia.
Qed.

(** C3 (amended). When [IncrementHeightTo], [NodesAt] or [SetNodesAt] fails
    in [AppendBlock], or [NodesAt], [DecrementHeightTo] or the block repo's
    [Get] fails in [ResetHeight] (below the int32 limit, where its loop
    ends), the operation returns that error -- wrapped with a message by
    [AppendBlock], as it is by [ResetHeight] -- and an error either of them
    returns comes from one of these calls or from the final comparison of
    roots.  The height is what it was when [ResetHeight] fails in
    [NodesAt] or [DecrementHeightTo]; a failed [AppendBlock] leaves it
    incremented, and a [ResetHeight] that fails in [Get] leaves it at the
    target. *)
Theorem storage_failure_height :
  (forall (ct : ClaimTrie S) (s1 : S) (e : error),
     let h := wrap32 (height ct + 1) in
     nodeManager_IncrementHeightTo h (heap ct) = (s1, Err e) ->
     fst (AppendBlock ct) = Some (Wrap e "node manager increment") /\
     height (snd (AppendBlock ct)) = h) /\
  (forall (ct : ClaimTrie S) (s1 : S) (names : slice name) (e : error),
     let h := wrap32 (height ct + 1) in
     nodeManager_IncrementHeightTo h (heap ct) = (s1, Ok names) ->
     temporalRepo_NodesAt h s1 = Err e ->
     fst (AppendBlock ct) = Some (Wrap e "temporal repo get") /\
     height (snd (AppendBlock ct)) = h) /\
  (forall (ct : ClaimTrie S) (s1 s3 : S) (names expirations : slice name) (e : error),
     let h := wrap32 (height ct + 1) in
     let all := all_names names expirations in
     let s2 := fst (range_effect (elems all) s1) in
     let sch := snd (range_effect (elems all) s1) in
     nodeManager_IncrementHeightTo h (heap ct) = (s1, Ok names) ->
     temporalRepo_NodesAt h s1 = Ok expirations ->
     temporalRepo_SetNodesAt (batch_names (touched_names names) sch)
       (batch_heights h (touched_names names) sch) s2 = (s3, Some e) ->
     fst (AppendBlock ct) = Some (Wrap e "temporal repo set") /\
     height (snd (AppendBlock ct)) = h) /\
  (forall ct : ClaimTrie S,
     int32 (height ct) -> height (snd (AppendBlock ct)) <> height ct) /\
  (forall (fuel n : nat) (target : Z) (ct : ClaimTrie S) (e : error),
     let k := target + 1 + Z.of_nat n in
     int32 target -> height ct < MaxInt32 -> k <= height ct -> (n < fuel)%nat ->
     readable (heights_from (target + 1) n) (heap ct) ->
     temporalRepo_NodesAt k (heap ct) = Err e ->
     exists ct' : ClaimTrie S,
       ResetHeight fuel target ct = Some (Some e, ct') /\
       height ct' = height ct /\ heap ct' = heap ct) /\
  (forall (fuel : nat) (target : Z) (ct : ClaimTrie S) (s1 : S) (e : error),
     let hs := rewound_heights target (height ct) in
     int32 target -> target < MaxInt32 -> height ct < MaxInt32 ->
     (length hs <= fuel)%nat ->
     readable hs (heap ct) ->
     nodeManager_DecrementHeightTo (Some (collected hs (heap ct))) target (heap ct)
       = (s1, Some e) ->
     exists ct' : ClaimTrie S,
       ResetHeight fuel target ct = Some (Some e, ct') /\ height ct' = height ct) /\
  (forall (fuel : nat) (target : Z) (ct : ClaimTrie S) (s1 : S) (e : error),
     let hs := rewound_heights target (height ct) in
     int32 target -> target < MaxInt32 -> height ct < MaxInt32 ->
     (length hs <= fuel)%nat ->
     readable hs (heap ct) ->
     nodeManager_DecrementHeightTo (Some (collected hs (heap ct))) target (heap ct)
       = (s1, None) ->
     blockRepo_Get target s1 = Err e ->
     exists ct' : ClaimTrie S,
       ResetHeight fuel target ct = Some (Some e, ct') /\ height ct' = target) /\
  (forall (ct : ClaimTrie S) (err : error),
     fst (AppendBlock ct) = Some err ->
     let h := wrap32 (height ct + 1) in
     let ct' := snd (AppendBlock ct) in
     height ct' = h /\
     exists (e : error) (calls : list Call) (c : Call),
       calls_since ct ct' = calls ++ [c] /\
       ((c = CallIncrementHeightTo h /\ err = Wrap e "node manager increment" /\
         snd (nodeManager_IncrementHeightTo h (heap ct)) = Err e) \/
        (c = CallNodesAt h /\ err = Wrap e "temporal repo get" /\
         temporalRepo_NodesAt h (heap ct') = Err e) \/
        (exists (s1 : S) (names expirations : slice name),
           let all := all_names names expirations in
           let sch := snd (range_effect (elems all) s1) in
           let bn := batch_names (touched_names names) sch in
           let bh := batch_heights h (touched_names names) sch in
           nodeManager_IncrementHeightTo h (heap ct) = (s1, Ok names) /\
           temporalRepo_NodesAt h s1 = Ok expirations /\
           c = CallSetNodesAt bn bh /\ err = Wrap e "temporal repo set" /\
           snd (temporalRepo_SetNodesAt bn bh (fst (range_effect (elems all) s1)))
           = Some e))) /\
  (forall (fuel : nat) (target : Z) (ct ct' : ClaimTrie S) (err : error),
     ResetHeight fuel target ct = Some (Some err, ct') ->
     exists (calls : list Call) (c : Call),
       calls_since ct ct' = calls ++ [c] /\
       ((exists k, c = CallNodesAt k /\
           temporalRepo_NodesAt k (heap ct) = Err err /\ height ct' = height ct) \/
        (exists ns, c = CallDecrementHeightTo ns target /\
           snd (nodeManager_DecrementHeightTo ns target (heap ct)) = Some err /\
           height ct' = height ct) \/
        (c = CallGet target /\
           blockRepo_Get target (heap ct') = Err err /\ height ct' = target) \/
        (c = hash_call target /\
           err = RestoreHashFailed target /\ height ct' = target))).
Proof.
split; [|split; [|split; [|split; [|split; [|split; [|split; [|split]]]]]]].
- intros ct s1 e h Hinc. rewrite (AppendBlock_increment_fails ct s1 e Hinc). auto.
- intros ct s1 names e h Hinc Hat.
  rewrite (AppendBlock_nodesAt_fails ct s1 names e Hinc Hat). auto.
- intros ct s1 s3 names exps e h all s2 sch Hinc Hat Hset.
  rewrite (AppendBlock_after_reads ct s1 names exps Hinc Hat). cbv zeta.
  fold h all s2 sch. rewrite Hset. auto.
- intros ct Hint. rewrite AppendBlock_height. now apply wrap32_succ_differs.
- intros fuel n target ct e k Ht Hmax Hk Hfuel Hread Hfail.
  assert (Hw : wrap32 (target + 1) = target + 1).
  { apply wrap32_in_range. unfold int32, MinInt32, MaxInt32 in *. lia. }
  unfold ResetHeight. rewrite Hw.
  rewrite (ResetHeight_collect_fails n fuel (target + 1) (Some []) ct e); try assumption;
    [|unfold int32, MinInt32 in *; lia].
  eexists. split; [reflexivity|]. split; reflexivity.
- intros fuel target ct s1 e hs Ht Hlt Hmax Hfuel Hread Hdec.
  rewrite (ResetHeight_eq fuel target ct Ht Hlt Hmax Hfuel Hread).
  rewrite ResetHeight_finish_eq. cbv zeta. unfold with_journal.
  cbn [heap height cleanups journal]. fold hs. rewrite Hdec. cbn [fst snd].
  eexists. split; [reflexivity|]. reflexivity.
- intros fuel target ct s1 e hs Ht Hlt Hmax Hfuel Hread Hdec Hget.
  rewrite (ResetHeight_eq fuel target ct Ht Hlt Hmax Hfuel Hread).
  rewrite ResetHeight_finish_eq. cbv zeta. unfold with_journal.
  cbn [heap height cleanups journal]. fold hs. rewrite Hdec. cbn [fst snd].
  rewrite Hget. eexists. split; [reflexivity|]. reflexivity.
- intros ct err Herr. cbv zeta. split; [apply AppendBlock_height|].
  unfold calls_since. revert Herr.
  destruct (AppendBlock_cases ct) as [s1 e h Hinc|s1 names e h Hinc Hat
    |s1 names exps s3 e h all s2 sch bn bh Hinc Hat Hset
    |s1 names exps s3 h all s2 sch bn bh Hinc Hat Hset];
    intros Herr; inversion Herr; subst err; cbn [journal heap];
    rewrite skipn_journal; fold h.
  + exists e, [], (CallIncrementHeightTo h). split; [reflexivity|].
    left. rewrite Hinc. auto.
  + exists e, [CallIncrementHeightTo h], (CallNodesAt h). split; [reflexivity|].
    right; left. auto.
  + exists e, ([CallIncrementHeightTo h; CallNodesAt h] ++ range_calls (elems all)),
      (CallSetNodesAt bn bh).
    split; [rewrite <- !app_assoc; reflexivity|].
    right; right. exists s1, names, exps. cbv zeta. fold all sch bn bh s2.
    rewrite Hset. auto.
- intros fuel target ct ct' err H. unfold ResetHeight in H. unfold calls_since.
  destruct (ResetHeight_collect fuel (wrap32 (target + 1)) (Some []) ct)
    as [[[names|e] ct1]|] eqn:Hc; [| |discriminate].
  + apply ResetHeight_collect_frame in Hc as (Hh & Hht & Hcl & hs & Hj & _).
    rewrite ResetHeight_finish_eq in H. cbv zeta in H. rewrite Hh, Hht, Hj in H.
    destruct (nodeManager_DecrementHeightTo names target (heap ct)) as [s1 [e|]] eqn:Hd;
      cbn [fst snd] in H.
    * inversion H; subst. cbn [journal heap height].
      rewrite <- app_assoc, skipn_journal.
      exists (map CallNodesAt hs), (CallDecrementHeightTo names target).
      split; [reflexivity|]. right; left. exists names. rewrite Hd. auto.
    * destruct (blockRepo_Get target s1) as [hash|e] eqn:Hg.
      -- cbv zeta in H.
         destruct (IsEqual _ hash); inversion H; subst. cbn [journal heap height].
         rewrite <- app_assoc, skipn_journal.
         exists (map CallNodesAt hs ++ [CallDecrementHeightTo names target; CallGet target;
                   CallSetRoot hash
                     (if (height ct >=? AllClaimsInMerkleForkHeight)
                           && (target <? AllClaimsInMerkleForkHeight)
                      then None else names)]),
           (hash_call target).
         split; [rewrite <- !app_assoc; reflexivity|]. right; right; right. auto.
      -- inversion H; subst. cbn [journal heap height].
         rewrite <- app_assoc, skipn_journal.
         exists (map CallNodesAt hs ++ [CallDecrementHeightTo names target]), (CallGet target).
         split; [rewrite <- !app_assoc; reflexivity|]. right; right; left. auto.
  + inversion H; subst.
    apply ResetHeight_collect_frame in Hc as (Hh & Hht & Hcl & hs & Hj & hs' & k & -> & Hk).
    rewrite Hj, skipn_journal, map_app. cbn [map].
    exists (map CallNodesAt hs'), (CallNodesAt k). split; [reflexivity|].
    left. exists k. auto.
Qed.

End FailureClaims.

Section RestoreClaims.

Context {S : Type}.
Context {param : Param}.
Context {blockRepo : BlockRepo S} {temporalRepo : TemporalRepo S}.
Context {nodeManager : NodeManager S} {merkleTrie : MerkleTrie S}.

Lemma collected_In (hs : list Z) (s : S) (n : name) :
  readable hs s ->
  In n (collected hs s) <->
  exists k r, In k hs /\ temporalRepo_NodesAt k s = Ok r /\ In n (elems r).
Proof.
intros Hread. unfold collected. rewrite in_flat_map. split.
- intros (k & Hk & Hn). destruct (Hread k Hk) as [r Hr].
  exists k, r. rewrite Hr in Hn. auto.
- intros (k & r & Hk & Hr & Hn). exists k. rewrite Hr. auto.
Qed.


Lemma Close_then_ret {A : Type} (a : A) (ct : ClaimTrie S) :
  fst ((Close ;;; ret a)%ct ct) = a.
Proof. unfold bind, ret. now destruct (Close ct). Qed.

Lemma New_restore (RamTrie : bool) (s s1 : S) (previousHeight : Z) (hash : Hash)
    (names : slice name) :
  blockRepo_Load s = Ok previousHeight ->
  0 < previousHeight ->
  blockRepo_Get previousHeight s = Ok hash ->
  nodeManager_IncrementHeightTo previousHeight s = (s1, Ok names) ->
  let root :=
    snd (hash_effect previousHeight (fst (merkleTrie_SetRoot hash None s1))) in
  fst (New RamTrie s) =
  if IsEqual root hash then None
  else Some (RestoreClaimHashFailed hash previousHeight).
Proof.
intros Hload Hpos Hget Hinc root. unfold New. rewrite Hload.
assert ((previousHeight >? 0) = true) as -> by (apply Z.gtb_lt; lia).
unfold bind at 1, read, call at 1. cbn [heap height cleanups journal].
rewrite Hget.
unfold bind at 1, call at 1. cbn [heap height cleanups journal].
rewrite Hinc.
unfold bind at 1, call at 1. cbn [heap height cleanups journal].
destruct (merkleTrie_SetRoot hash None s1) as [s2 []] eqn:Hroot.
unfold bind at 1. rewrite MerkleHash_eq. cbn [heap height cleanups journal].
subst root. cbn [fst].
destruct (IsEqual _ hash); [reflexivity|]. apply Close_then_ret.
Qed.

(** C5. [New], for a nonzero persisted height (a height is not negative),
    and [ResetHeight(target)] recompute the Merkle root once they have
    restored the state, and compare it with the root the block repo holds
    for that height: they return an error when the two differ and succeed
    when they agree. *)
Theorem root_verified_on_restore :
  (forall (RamTrie : bool) (s s1 : S) (previousHeight : Z) (hash : Hash)
          (names : slice name),
     blockRepo_Load s = Ok previousHeight ->
     0 <= previousHeight -> previousHeight <> 0 ->
     blockRepo_Get previousHeight s = Ok hash ->
     nodeManager_IncrementHeightTo previousHeight s = (s1, Ok names) ->
     let root :=
       snd (hash_effect previousHeight (fst (merkleTrie_SetRoot hash None s1))) in
     (root = hash -> fst (New RamTrie s) = None) /\
     (root <> hash ->
      fst (New RamTrie s) = Some (RestoreClaimHashFailed hash previousHeight))) /\
  (forall (fuel : nat) (target : Z) (ct : ClaimTrie S) (s1 : S) (hash : Hash),
     let hs := rewound_heights target (height ct) in
     let union := collected hs (heap ct) in
     let names :=
       if (height ct >=? AllClaimsInMerkleForkHeight)
            && (target <? AllClaimsInMerkleForkHeight)
       then None else Some union in
     let root := snd (hash_effect target (fst (merkleTrie_SetRoot hash names s1))) in
     int32 target -> target < MaxInt32 -> height ct < MaxInt32 ->
     (length hs <= fuel)%nat ->
     readable hs (heap ct) ->
     nodeManager_DecrementHeightTo (Some union) target (heap ct) = (s1, None) ->
     blockRepo_Get target s1 = Ok hash ->
     exists ct' : ClaimTrie S,
       (root = hash -> ResetHeight fuel target ct = Some (None, ct')) /\
       (root <> hash ->
        ResetHeight fuel target ct = Some (Some (RestoreHashFailed target), ct'))).
Proof.
split.
- intros RamTrie s s1 previousHeight hash names Hload Hnonneg Hnonzero Hget Hinc root.
  assert (0 < previousHeight) as Hpos by lia.
  rewrite (New_restore RamTrie s s1 previousHeight hash names Hload Hpos Hget Hinc).
  fold root. split; intros H.
  + unfold IsEqual. now rewrite (proj2 (Equal_true root hash) H).
  + unfold IsEqual. now rewrite (proj2 (Equal_false root hash) H).
- intros fuel target ct s1 hash hs union names root Ht Hlt Hhi Hfuel Hread Hdec Hget.
  rewrite (ResetHeight_eq fuel target ct Ht Hlt Hhi Hfuel Hread).
  rewrite ResetHeight_finish_eq. cbv zeta.
  unfold with_journal. cbn [heap height cleanups journal].
  fold hs union. rewrite Hdec. cbn [fst snd]. rewrite Hget.
  fold names. fold root.
  eexists. split; intros H.
  + unfold IsEqual. rewrite (proj2 (Equal_true root hash) H). reflexivity.
  + unfold IsEqual. rewrite (proj2 (Equal_false root hash) H). reflexivity.
Qed.

End RestoreClaims.

(** ** Determinism *)

Lemma strictly_sorted_weaken (l : list name) :
  StronglySorted name_lt l -> StronglySorted name_le l.
Proof.
induction 1 as [|x l Hs IH Hx]; constructor; auto.
eapply Forall_impl; [|exact Hx]. intros y Hy. apply name_le_cases. now left.
Qed.

Lemma strictly_sorted_ext (l1 l2 : list name) :
  StronglySorted name_lt l1 -> StronglySorted name_lt l2 ->
  (forall n, In n l1 <-> In n l2) -> l1 = l2.
Proof.
intros H1 H2 Hin. apply sorted_perm_unique; try now apply strictly_sorted_weaken.
apply NoDup_Permutation; auto using strictly_sorted_NoDup.
Qed.

Lemma removeDuplicates_ext (a b : slice name) :
  same_names a b -> removeDuplicates a = removeDuplicates b.
Proof.
intros [Hnil Hin].
assert (elems (removeDuplicates a) = elems (removeDuplicates b)) as E.
{ apply strictly_sorted_ext; try apply removeDuplicates_sorted.
  intros n. rewrite !removeDuplicates_In. apply Hin. }
destruct a as [la|], b as [lb|]; cbn [removeDuplicates elems] in *.
- now rewrite E.
- destruct Hnil as [_ H]. discriminate (H eq_refl).
- destruct Hnil as [H _]. discriminate (H eq_refl).
- reflexivity.
Qed.

Lemma append_same_names (t : slice name) (x y : slice name) :
  same_elems x y -> same_names (append t (elems x)) (append t (elems y)).
Proof.
intros Hxy. unfold same_elems in Hxy.
assert (elems x = [] <-> elems y = []) as Hnil.
{ split; intros H.
  - destruct (elems y) as [|n l] eqn:E; [reflexivity|].
    assert (In n (elems x)) as Hn by (apply Hxy; now left). rewrite H in Hn. contradiction.
  - destruct (elems x) as [|n l] eqn:E; [reflexivity|].
    assert (In n (elems y)) as Hn by (apply Hxy; now left). rewrite H in Hn. contradiction. }
split.
- unfold append. destruct t as [l|]; destruct (elems x), (elems y);
    split; intros H; try discriminate; try reflexivity;
    try (destruct Hnil as [H1 H2]; try discriminate (H1 eq_refl); discriminate (H2 eq_refl)).
- intros n. unfold append.
  destruct t as [l|]; cbn [elems].
  + destruct (elems x) eqn:Ex, (elems y) eqn:Ey; cbn [elems]; rewrite !in_app_iff;
      rewrite <- ?Ex, <- ?Ey; specialize (Hxy n); rewrite ?Ex, ?Ey in *; tauto.
  + destruct (elems x) eqn:Ex, (elems y) eqn:Ey; cbn [elems app];
      specialize (Hxy n); tauto.
Qed.

Lemma all_names_ext (a b x y : slice name) :
  same_names a b -> same_elems x y -> all_names a x = all_names b y.
Proof.
intros Hab Hxy. unfold all_names. apply removeDuplicates_ext.
rewrite (removeDuplicates_ext a b Hab). now apply append_same_names.
Qed.

Section DeterminismFacts.

Context {S1 S2 : Type}.
Context {param : Param}.
Context {blockRepo1 : BlockRepo S1} {temporalRepo1 : TemporalRepo S1}.
Context {nodeManager1 : NodeManager S1} {merkleTrie1 : MerkleTrie S1}.
Context {blockRepo2 : BlockRepo S2} {temporalRepo2 : TemporalRepo S2}.
Context {nodeManager2 : NodeManager S2} {merkleTrie2 : MerkleTrie S2}.

Variable R : S1 -> S2 -> Prop.
Hypothesis sim : simulation R.

(** Two instances agree when their stores are related and their heights
    are equal. *)
Let agree (ct1 : ClaimTrie S1) (ct2 : ClaimTrie S2) : Prop :=
  R (heap ct1) (heap ct2) /\ height ct1 = height ct2.

Lemma range_effect_sim (l : list name) :
  forall s1 s2, R s1 s2 ->
  R (fst (range_effect l s1)) (fst (range_effect l s2)) /\
  snd (range_effect l s1) = snd (range_effect l s2).
Proof.
induction l as [|n rest IH]; intros s1 s2 HR; cbn [range_effect]; [now split|].
pose proof (sim_Update R sim n true s1 s2 HR) as HU.
destruct (sim_NextUpdateHeightOfNode R sim n _ _ HU) as [HN Hnext].
destruct (nodeManager_NextUpdateHeightOfNode n (fst (merkleTrie_Update n true s1)))
  as [s1' next1].
destruct (nodeManager_NextUpdateHeightOfNode n (fst (merkleTrie_Update n true s2)))
  as [s2' next2].
cbn [fst snd] in *. subst next2.
destruct (IH s1' s2' HN) as [HR' Hl].
destruct (range_effect rest s1') as [t1 l1], (range_effect rest s2') as [t2 l2].
cbn [fst snd] in *. subst l2. now split.
Qed.

Lemma sweep_effect_sim (l : list name) :
  forall s1 s2, R s1 s2 -> R (sweep_effect l s1) (sweep_effect l s2).
Proof.
induction l as [|n rest IH]; intros s1 s2 HR; cbn [sweep_effect fold_left]; [assumption|].
apply IH. now apply (sim_Update R sim).
Qed.

Lemma hash_effect_sim (h : Z) (s1 : S1) (s2 : S2) :
  R s1 s2 -> related R eq (hash_effect h s1) (hash_effect h s2).
Proof.
intros HR. unfold hash_effect. destruct (h >=? AllClaimsInMerkleForkHeight).
- now apply (sim_MerkleHashAllClaims R sim).
- now apply (sim_MerkleHash R sim).
Qed.

Lemma tail_effect_sim (h : Z) (all : slice name) (s1 : S1) (s2 : S2) :
  R s1 s2 -> R (tail_effect h all s1) (tail_effect h all s2).
Proof.
intros HR.
assert (R (swept h s1) (swept h s2)) as Hsw.
{ unfold swept. destruct (h =? AllClaimsInMerkleForkHeight); [|assumption].
  rewrite (sim_IterateNames R sim s1 s2 HR). now apply sweep_effect_sim. }
destruct (hash_effect_sim h _ _ Hsw) as [Hh Hroot].
assert (R (fst (persisted h s1)) (fst (persisted h s2))) as Hp.
{ unfold persisted, block_root. rewrite Hroot. now apply (sim_Set R sim). }
unfold tail_effect. destruct (h =? AllClaimsInMerkleForkHeight); [|assumption].
unfold block_root. rewrite Hroot. now apply (sim_SetRoot R sim).
Qed.

Lemma AppendBlock_sim (ct1 : ClaimTrie S1) (ct2 : ClaimTrie S2) :
  agree ct1 ct2 ->
  fst (AppendBlock ct1) = fst (AppendBlock ct2) /\
  agree (snd (AppendBlock ct1)) (snd (AppendBlock ct2)).
Proof.
intros [HR Hh]. unfold agree.
destruct (sim_IncrementHeightTo R sim (wrap32 (height ct1 + 1)) _ _ HR) as [HR1 Hnames].
destruct (nodeManager_IncrementHeightTo (wrap32 (height ct1 + 1)) (heap ct1))
  as [s1 r1] eqn:Hinc1.
rewrite Hh in Hnames, HR1.
destruct (nodeManager_IncrementHeightTo (wrap32 (height ct2 + 1)) (heap ct2))
  as [s2 r2] eqn:Hinc2.
cbn [fst snd] in *. rewrite Hh in Hinc1.
destruct r1 as [names1|e1], r2 as [names2|e2]; cbn [same_result] in Hnames;
  try contradiction.
- pose proof (sim_NodesAt R sim (wrap32 (height ct2 + 1)) _ _ HR1) as Hat.
  destruct (temporalRepo_NodesAt (wrap32 (height ct2 + 1)) s1) as [x1|e1] eqn:Hat1,
           (temporalRepo_NodesAt (wrap32 (height ct2 + 1)) s2) as [x2|e2] eqn:Hat2;
    cbn [same_result] in Hat; try contradiction.
  + rewrite <- Hh in Hinc1, Hat1.
    rewrite (AppendBlock_after_reads ct1 s1 names1 x1 Hinc1 Hat1).
    rewrite (AppendBlock_after_reads ct2 s2 names2 x2 Hinc2 Hat2).
    cbv zeta. rewrite Hh.
    rewrite (all_names_ext names1 names2 x1 x2 Hnames Hat).
    unfold touched_names. rewrite (removeDuplicates_ext names1 names2 Hnames).
    destruct (range_effect_sim (elems (all_names names2 x2)) s1 s2 HR1) as [HR2 Hsch].
    rewrite Hsch.
    match goal with
    | |- context [temporalRepo_SetNodesAt ?bn ?bh (fst (range_effect ?l s1))] =>
        destruct (sim_SetNodesAt R sim bn bh _ _ HR2) as [HR3 Herr];
        destruct (temporalRepo_SetNodesAt bn bh (fst (range_effect l s1))) as [t1 err1];
        destruct (temporalRepo_SetNodesAt bn bh (fst (range_effect l s2))) as [t2 err2]
    end.
    cbn [fst snd] in *. subst err2.
    destruct err1 as [e|]; cbn [fst snd heap height]; [auto|].
    split; [reflexivity|]. split; [|reflexivity]. now apply tail_effect_sim.
  + subst e2. rewrite <- Hh in Hinc1, Hat1.
    rewrite (AppendBlock_nodesAt_fails ct1 s1 names1 e1 Hinc1 Hat1).
    rewrite (AppendBlock_nodesAt_fails ct2 s2 names2 e1 Hinc2 Hat2).
    cbn [fst snd heap height]. rewrite Hh. auto.
- subst e2. rewrite <- Hh in Hinc1.
  rewrite (AppendBlock_increment_fails ct1 s1 e1 Hinc1).
  rewrite (AppendBlock_increment_fails ct2 s2 e1 Hinc2).
  cbn [fst snd heap height]. rewrite Hh. auto.
Qed.

Lemma forwardNodeChange_sim (chg : change.Change)
    (ct1 : ClaimTrie S1) (ct2 : ClaimTrie S2) :
  agree ct1 ct2 ->
  fst (forwardNodeChange chg ct1) = fst (forwardNodeChange chg ct2) /\
  agree (snd (forwardNodeChange chg ct1)) (snd (forwardNodeChange chg ct2)).
Proof.
intros [HR Hh]. unfold agree, forwardNodeChange, bind, Height, call, ret.
rewrite Hh.
destruct (sim_AppendChange R sim
            (change.with_Height (wrap32 (height ct2 + 1)) chg) _ _ HR) as [HR' Herr].
destruct (nodeManager_AppendChange _ (heap ct1)) as [s1 err1].
destruct (nodeManager_AppendChange _ (heap ct2)) as [s2 err2].
cbn [fst snd] in *. subst err2. destruct err1; cbn [fst snd heap height]; auto.
Qed.

Lemma submit_sim (o : Op) (ct1 : ClaimTrie S1) (ct2 : ClaimTrie S2) :
  agree ct1 ct2 ->
  fst (submit o ct1) = fst (submit o ct2) /\
  agree (snd (submit o ct1)) (snd (submit o ct2)).
Proof.
destruct o; cbn [submit]; try apply forwardNodeChange_sim. apply AppendBlock_sim.
Qed.

Lemma MerkleHash_sim (ct1 : ClaimTrie S1) (ct2 : ClaimTrie S2) :
  agree ct1 ct2 ->
  fst (MerkleHash ct1) = fst (MerkleHash ct2) /\
  agree (snd (MerkleHash ct1)) (snd (MerkleHash ct2)).
Proof.
intros [HR Hh]. unfold agree. rewrite !MerkleHash_eq. cbn [fst snd heap height].
rewrite Hh. destruct (hash_effect_sim (height ct2) _ _ HR) as [H1 H2]. auto.
Qed.

(** Two instances whose collaborators answer alike -- the names they
    report possibly in another order or repeated -- and which start from
    related stores at the same height show the same errors and the same
    Merkle root at every height, whatever sequence of change submissions
    and [AppendBlock] calls both are given. *)
Lemma runs_agree (ops : list Op) (ct1 : ClaimTrie S1) (ct2 : ClaimTrie S2) :
  R (heap ct1) (heap ct2) ->
  height ct1 = height ct2 ->
  fst (run ops ct1) = fst (run ops ct2) /\
  R (heap (snd (run ops ct1))) (heap (snd (run ops ct2))) /\
  height (snd (run ops ct1)) = height (snd (run ops ct2)).
Proof.
revert ct1 ct2; induction ops as [|o rest IH]; intros ct1 ct2 HR Hh; cbn [run].
- auto.
- destruct (submit_sim o ct1 ct2 (conj HR Hh)) as [Herr [HR1 Hh1]].
  destruct (submit o ct1) as [err1 c1], (submit o ct2) as [err2 c2].
  cbn [fst snd] in *. subst err2.
  destruct (is_block o).
  + destruct (MerkleHash_sim c1 c2 (conj HR1 Hh1)) as [Hroot [HR2 Hh2]].
    destruct (MerkleHash c1) as [root1 d1], (MerkleHash c2) as [root2 d2].
    cbn [fst snd] in *. subst root2.
    destruct (IH d1 d2 HR2 Hh2) as [Hseen Hrest].
    destruct (run rest d1) as [seen1 f1], (run rest d2) as [seen2 f2].
    cbn [fst snd] in *. subst seen2. rewrite Hh2. auto.
  + destruct (IH c1 c2 HR1 Hh1) as [Hseen Hrest].
    destruct (run rest c1) as [seen1 f1], (run rest c2) as [seen2 f2].
    cbn [fst snd] in *. subst seen2. auto.
Qed.

End DeterminismFacts.

(** ** The claims on concrete runs *)

Section ConcreteFacts.

#[local] Existing Instance fork3.
#[local] Existing Instance ten.

(** C3, as stated, fails: with a node repo that is down, [AppendBlock]
    returns the error and the height has gone from 0 to 1; and
    [ResetHeight(0)] on an instance at height 1, whose block repo holds no
    root for height 0, returns the error and the height has gone from 1
    to 0. *)
Lemma storage_failure_changes_height :
  (snd (nodeManager_IncrementHeightTo 1 (heap (fresh nodes_broken)))
     = Err (KVError "node repo") /\
   fst (AppendBlock (fresh nodes_broken))
     = Some (Wrap (KVError "node repo") "node manager increment") /\
   height (fresh nodes_broken) = 0 /\
   height (snd (AppendBlock (fresh nodes_broken))) = 1) /\
  (blockRepo_Get 0 (heap at_height_1) = Err (KVError "block repo: not found") /\
   height at_height_1 = 1 /\
   exists ct' : ClaimTrie SpecModel.Store,
     ResetHeight 2 0 at_height_1 = Some (Some (KVError "block repo: not found"), ct') /\
     height ct' = 0).
Proof.
split.
- repeat split; reflexivity.
- split; [reflexivity|]. split; [reflexivity|].
  eexists. split; vm_compute; reflexivity.
Qed.

Lemma storage_failure_height_witness :
  (fst (AppendBlock (fresh nodes_broken))
     = Some (Wrap (KVError "node repo") "node manager increment") /\
   height (snd (AppendBlock (fresh nodes_broken))) = 1) /\
  exists ct' : ClaimTrie SpecModel.Store,
    ResetHeight 2 0 at_height_1 = Some (Some (KVError "block repo: not found"), ct') /\
    height ct' = 0.
Proof.
pose proof (storage_failure_height (S := SpecModel.Store)) as
  (increment & _ & _ & _ & _ & _ & get & _).
split.
- pose proof (increment (fresh nodes_broken) nodes_broken (KVError "node repo")
                ltac:(vm_compute; reflexivity)) as W.
  cbv zeta in W. change (wrap32 (height (fresh nodes_broken) + 1)) with 1 in W. exact W.
- apply (get 2%nat 0 at_height_1
           (fst (nodeManager_DecrementHeightTo (Some []) 0 (heap at_height_1)))
           (KVError "block repo: not found")).
  + vm_compute. split; discriminate.
  + vm_compute. reflexivity.
  + vm_compute. reflexivity.
  + vm_compute. lia.
  + intros k Hk. vm_compute in Hk. destruct Hk as [<-|[]]. eexists. vm_compute. reflexivity.
  + vm_compute. reflexivity.
  + vm_compute. reflexivity.
Defined.

Lemma root_verified_on_restore_witness :
  fst (New false persisted_right) = None /\
  fst (New false persisted_wrong) = Some (RestoreClaimHashFailed [x07] 1) /\
  exists ct' : ClaimTrie SpecModel.Store,
    ResetHeight 1 1 (snd (AppendBlock with_pending_claim)) = Some (None, ct').
Proof.
pose proof (proj1 (root_verified_on_restore (S := SpecModel.Store))) as new.
pose proof (proj2 (root_verified_on_restore (S := SpecModel.Store))) as reset.
split; [|split].
- refine (proj1 (new false persisted_right (SpecModel.advance 1 persisted_right)
                   1 [x00] (Some []) _ _ _ _ _) _);
    try (vm_compute; reflexivity); try (vm_compute; discriminate).
- refine (proj2 (new false persisted_wrong (SpecModel.advance 1 persisted_wrong)
                   1 [x07] (Some []) _ _ _ _ _) _);
    try (vm_compute; reflexivity); try (vm_compute; discriminate).
- destruct (reset 1%nat 1 (snd (AppendBlock with_pending_claim))
              (fst (nodeManager_DecrementHeightTo (Some [name_a]) 1
                      (heap (snd (AppendBlock with_pending_claim)))))
              [x00]) as (ct' & Hsame & _).
  + vm_compute. split; discriminate.
  + reflexivity.
  + reflexivity.
  + vm_compute. lia.
  + intros k Hk. vm_compute in Hk. destruct Hk as [<-|[]]. eexists. vm_compute. reflexivity.
  + vm_compute. reflexivity.
  + vm_compute. reflexivity.
  + exists ct'. apply Hsame. vm_compute. reflexivity.
Defined.



Lemma AppendBlock_discards_Set_error_witness :
  fst (AppendBlock (fresh blocks_broken)) = None /\
  In (CallSet 1 [x00])
     (calls_since (fresh blocks_broken) (snd (AppendBlock (fresh blocks_broken)))) /\
  blockRepo_Get 1 (heap (snd (AppendBlock (fresh blocks_broken))))
    = Err (KVError "block repo").
Proof.
destruct (AppendBlock_discards_Set_error (S := SpecModel.Store) (fresh blocks_broken)
            (SpecModel.advance 1 blocks_broken) (SpecModel.advance 1 blocks_broken)
            (Some []) None (KVError "block repo")) as [Hnil Hcall];
  try (vm_compute; reflexivity).
split; [exact Hnil|]. split; [|vm_compute; reflexivity].
change (wrap32 (height (fresh blocks_broken) + 1)) with 1 in Hcall.
exact Hcall.
Defined.

End ConcreteFacts.

(** * Further properties of the orchestrator *)

(** ** [Close] and [New] *)

Section CloseAndNew.

Context {S : Type}.
Context {param : Param}.
Context {blockRepo : BlockRepo S} {temporalRepo : TemporalRepo S}.
Context {nodeManager : NodeManager S} {merkleTrie : MerkleTrie S}.

Lemma Close_from_eq (cs : list Cleanup) :
  forall ct : ClaimTrie S,
  Close_from cs ct =
  (tt, mkClaimTrie (close_effect cs (heap ct)) (height ct) (cleanups ct)
         (journal ct ++ map CallCleanup cs)).
Proof.
induction cs as [|c cs IH]; intros ct.
- cbn. unfold ret. rewrite app_nil_r. now destruct ct.
- cbn [Close_from close_effect fold_left map]. unfold bind, runCleanup, call.
  fold (cleanup_effect c).
  destruct (cleanup_effect c (heap ct)) as [s1 err]. rewrite IH.
  cbn [heap height cleanups journal fst]. rewrite <- app_assoc. reflexivity.
Qed.

Lemma Close_eq (ct : ClaimTrie S) :
  Close ct =
  (tt, mkClaimTrie (close_effect (rev (cleanups ct)) (heap ct)) (height ct) (cleanups ct)
         (journal ct ++ map CallCleanup (rev (cleanups ct)))).
Proof. unfold Close. apply Close_from_eq. Qed.

(** X1. [Close] runs every registered cleanup once, the last registered
    first, whatever errors the cleanups return; it leaves the height and the
    list of cleanups as they are, so that a second [Close] runs all of them
    again. *)
Theorem Close_runs_every_cleanup (ct : ClaimTrie S) :
  let closed := snd (Close ct) in
  calls_since ct closed = map CallCleanup (rev (cleanups ct)) /\
  heap closed = close_effect (rev (cleanups ct)) (heap ct) /\
  height closed = height ct /\
  cleanups closed = cleanups ct /\
  calls_since ct (snd (Close closed))
    = map CallCleanup (rev (cleanups ct)) ++ map CallCleanup (rev (cleanups ct)).
Proof.
cbv zeta. rewrite !Close_eq. cbn [snd heap height cleanups journal].
unfold calls_since. cbn [journal]. rewrite <- app_assoc, !skipn_journal. auto.
Qed.

Lemma Close_then_eq {A : Type} (a : A) (ct : ClaimTrie S) :
  (Close ;;; ret a)%ct ct =
  (a, mkClaimTrie (close_effect (rev (cleanups ct)) (heap ct)) (height ct) (cleanups ct)
        (journal ct ++ map CallCleanup (rev (cleanups ct)))).
Proof. unfold bind, ret. now rewrite Close_eq. Qed.

(** The ways through [New]. *)
Lemma New_cases (RamTrie : bool) (s : S) :
  (exists e,
     blockRepo_Load s = Err e /\
     New RamTrie s = (Some (Wrap e "load block tip"), mkClaimTrie s 0 [] [CallLoad])) \/
  (exists previousHeight,
     blockRepo_Load s = Ok previousHeight /\ previousHeight <= 0 /\
     New RamTrie s =
       (None, mkClaimTrie s previousHeight (registered RamTrie) [CallLoad])) \/
  (exists previousHeight (err : option error) (s' : S) (calls : list Call),
     blockRepo_Load s = Ok previousHeight /\ 0 < previousHeight /\
     filter is_cleanup calls = [] /\
     match err with
     | None =>
         exists hash,
           blockRepo_Get previousHeight s = Ok hash /\
           calls = [CallLoad; CallGet previousHeight; CallIncrementHeightTo previousHeight;
                    CallSetRoot hash None; hash_call previousHeight] /\
           New RamTrie s =
             (None, mkClaimTrie s' previousHeight (registered RamTrie) calls)
     | Some e =>
         New RamTrie s =
           (Some e,
            mkClaimTrie (close_effect (rev (registered RamTrie)) s') previousHeight
              (registered RamTrie)
              (calls ++ map CallCleanup (rev (registered RamTrie))))
     end).
Proof.
remember (New RamTrie s) as r eqn:Hr.
unfold New in Hr. fold (registered RamTrie) in Hr.
destruct (blockRepo_Load s) as [previousHeight|e]; [|left; eauto].
right. destruct (previousHeight >? 0) eqn:Hpos.
- right. apply Z.gtb_lt in Hpos.
  assert (Hkind : forall h, filter is_cleanup [hash_call h] = []).
  { intros h. unfold hash_call. now destruct (h >=? AllClaimsInMerkleForkHeight). }
  unfold bind at 1, read, call at 1 in Hr. cbn [heap height cleanups journal] in Hr.
  destruct (blockRepo_Get previousHeight s) as [hash|e] eqn:Hget.
  + unfold bind at 1, call at 1 in Hr. cbn [heap height cleanups journal fst snd] in Hr.
    destruct (nodeManager_IncrementHeightTo previousHeight s) as [s1 [names|e]].
    * unfold bind at 1, call at 1 in Hr. cbn [heap height cleanups journal fst snd] in Hr.
      destruct (merkleTrie_SetRoot hash None s1) as [s2 []].
      unfold bind at 1 in Hr. rewrite MerkleHash_eq in Hr.
      cbn [heap height cleanups journal fst snd app] in Hr.
      destruct (IsEqual _ hash).
      -- exists previousHeight, None, (fst (hash_effect previousHeight s2)),
           [CallLoad; CallGet previousHeight; CallIncrementHeightTo previousHeight;
            CallSetRoot hash None; hash_call previousHeight].
         repeat split; auto.
         ++ apply (Hkind previousHeight).
         ++ exists hash. repeat split; auto.
      -- exists previousHeight, (Some (RestoreClaimHashFailed hash previousHeight)),
           (fst (hash_effect previousHeight s2)),
           [CallLoad; CallGet previousHeight; CallIncrementHeightTo previousHeight;
            CallSetRoot hash None; hash_call previousHeight].
         repeat split; auto.
         ++ apply (Hkind previousHeight).
         ++ cbn [negb] in Hr. rewrite Close_then_eq in Hr. exact Hr.
    * exists previousHeight, (Some (Wrap e "increment height to")), s1,
        [CallLoad; CallGet previousHeight; CallIncrementHeightTo previousHeight].
      repeat split; auto. rewrite Close_then_eq in Hr. exact Hr.
  + exists previousHeight, (Some (Wrap e "block repo get")), s,
      [CallLoad; CallGet previousHeight].
    repeat split; auto. rewrite Close_then_eq in Hr. exact Hr.
- left. exists previousHeight. repeat split; auto.
  destruct (Z.gtb_spec previousHeight 0); [discriminate|lia].
Qed.

(** The store a failed restore leaves is the store it had reached, with
    the cleanups run on it. *)
Lemma New_restore_fails (RamTrie : bool) (s : S) (previousHeight : Z) (err : error) :
  blockRepo_Load s = Ok previousHeight -> 0 < previousHeight ->
  fst (New RamTrie s) = Some err ->
  heap (snd (New RamTrie s))
  = close_effect (rev (registered RamTrie)) (restore_effect previousHeight s).
Proof.
intros Hload Hpos Hfail.
remember (New RamTrie s) as r eqn:Hr.
unfold New in Hr. fold (registered RamTrie) in Hr. rewrite Hload in Hr.
replace (previousHeight >? 0) with true in Hr by (symmetry; apply Z.gtb_lt; lia).
unfold restore_effect.
unfold bind at 1, read, call at 1 in Hr. cbn [heap height cleanups journal] in Hr.
destruct (blockRepo_Get previousHeight s) as [hash|e] eqn:Hget.
- unfold bind at 1, call at 1 in Hr. cbn [heap height cleanups journal fst snd] in Hr.
  destruct (nodeManager_IncrementHeightTo previousHeight s) as [s1 [names|e]].
  + unfold bind at 1, call at 1 in Hr. cbn [heap height cleanups journal fst snd] in Hr.
    cbn [fst snd].
    destruct (merkleTrie_SetRoot hash None s1) as [s2 []].
    unfold bind at 1 in Hr. rewrite MerkleHash_eq in Hr.
    cbn [heap height cleanups journal fst snd app] in Hr.
    destruct (IsEqual _ hash).
    * cbn [negb] in Hr. unfold ret in Hr. subst r. discriminate.
    * cbn [negb] in Hr. rewrite Close_then_eq in Hr. subst r. reflexivity.
  + rewrite Close_then_eq in Hr. subst r. reflexivity.
- rewrite Close_then_eq in Hr. subst r. reflexivity.
Qed.

(** With the collaborators constructed, [New] as a whole is [New] from
    the restore on. *)
Lemma New_constructed {constructors : Constructors S} (RamTrie : bool) (s s' : S) :
  (let s1 := fst (blockrepo_NewPebble s) in
   let s2 := fst (temporalrepo_NewPebble s1) in
   let s3 := fst (noderepo_NewPebble s2) in
   let s4 := fst (node_NewBaseManager s3) in
   snd (blockrepo_NewPebble s) = None /\
   snd (temporalrepo_NewPebble s1) = None /\
   snd (noderepo_NewPebble s2) = None /\
   snd (node_NewBaseManager s3) = None /\
   (if RamTrie then s' = s4
    else snd (merkletrierepo_NewPebble s4) = None /\
         s' = fst (merkletrierepo_NewPebble s4))) ->
  claimtrie.New RamTrie s = New RamTrie s'.
Proof.
cbv zeta. unfold claimtrie.New. intros (H1 & H2 & H3 & H4 & H5).
destruct (blockrepo_NewPebble s) as [s1 e1]. cbn [fst snd] in *. subst e1.
destruct (temporalrepo_NewPebble s1) as [s2 e2]. cbn [fst snd] in *. subst e2.
destruct (noderepo_NewPebble s2) as [s3 e3]. cbn [fst snd] in *. subst e3.
destruct (node_NewBaseManager s3) as [s4 e4]. cbn [fst snd] in *. subst e4.
destruct RamTrie; [now subst s'|].
destruct (merkletrierepo_NewPebble s4) as [s5 e5]. cbn [fst snd] in *.
destruct H5 as [-> ->]. reflexivity.
Qed.


(** X3. When [New] succeeds, the instance is at the persisted height with
    the cleanups registered in the order block repo, temporal repo, node
    manager and -- unless the trie is the in-memory one -- the persistent
    trie, and no cleanup has run.  For a persisted height of 0 or less the
    only call is the read of the tip and the store is untouched; otherwise
    the calls are [Get], [IncrementHeightTo], [SetRoot] with nil names and
    one root computation, in this order.  A [Close] of that instance then
    closes the persistent trie, if there is one, the node manager, the
    temporal repo and the block repo, in this order. *)
Theorem New_success (RamTrie : bool) (s : S) :
  fst (New RamTrie s) = None ->
  let ct := snd (New RamTrie s) in
  exists previousHeight,
    blockRepo_Load s = Ok previousHeight /\
    height ct = previousHeight /\
    cleanups ct = registered RamTrie /\
    filter is_cleanup (journal ct) = [] /\
    calls_since ct (snd (Close ct)) =
      map CallCleanup ((if RamTrie then [] else [persistentTrieClose])
                         ++ [nodeManagerClose; temporalRepoClose; blockRepoClose]) /\
    ((previousHeight <= 0 /\ journal ct = [CallLoad] /\ heap ct = s) \/
     (0 < previousHeight /\
      exists hash,
        blockRepo_Get previousHeight s = Ok hash /\
        journal ct =
          [CallLoad; CallGet previousHeight; CallIncrementHeightTo previousHeight;
           CallSetRoot hash None; hash_call previousHeight])).
Proof.
intros Hok. cbv zeta.
assert (Hclose : forall ct : ClaimTrie S,
          cleanups ct = registered RamTrie ->
          calls_since ct (snd (Close ct)) =
            map CallCleanup ((if RamTrie then [] else [persistentTrieClose])
                               ++ [nodeManagerClose; temporalRepoClose; blockRepoClose])).
{ intros ct Hc. rewrite Close_eq. unfold calls_since. cbn [snd journal].
  rewrite skipn_journal, Hc. now destruct RamTrie. }
destruct (New_cases RamTrie s) as [(e & Hload & Hnew)|[(ph & Hload & Hle & Hnew)
  |(ph & [e|] & s' & calls & Hload & Hpos & Hclean & Hnew)]].
- rewrite Hnew in Hok. discriminate.
- rewrite Hnew. cbn [snd height cleanups journal heap]. exists ph.
  repeat split; auto.
- rewrite Hnew in Hok. discriminate.
- destruct Hnew as (hash & Hget & Hcalls & Hnew). rewrite Hnew.
  cbn [snd height cleanups journal heap]. exists ph.
  repeat split; auto.
  right. split; [assumption|]. exists hash. subst calls. auto.
Qed.

End CloseAndNew.

(** ** [removeDuplicates] as a canonical form *)

Lemma compact_strictly_sorted (l : list name) :
  StronglySorted name_lt l -> compact l = l.
Proof.
intros Hs. apply strictly_sorted_ext.
- apply compact_sorted, strictly_sorted_weaken, Hs.
- exact Hs.
- intros n. apply compact_In.
Qed.

Lemma Slice_strictly_sorted (l : list name) :
  StronglySorted name_lt l -> sort.Slice names_less l = l.
Proof.
intros Hs. symmetry. apply Slice_unique; [reflexivity|].
apply strictly_sorted_weaken, Hs.
Qed.

Lemma removeDuplicates_incl (names : slice name) :
  incl (elems (removeDuplicates names)) (elems names).
Proof. intros n. apply removeDuplicates_In. Qed.

(** X4. [removeDuplicates] gives a canonical form: two slices have the same
    result exactly when they hold the same names as sets and are both nil or
    both not nil; neither the order of the input nor the number of
    repetitions can be told from the result. *)
Theorem removeDuplicates_canonical (a b : slice name) :
  removeDuplicates a = removeDuplicates b <-> same_names a b.
Proof.
split.
- intros Heq. split.
  + rewrite <- (removeDuplicates_nil a), <- (removeDuplicates_nil b), Heq. reflexivity.
  + intros n. rewrite <- (removeDuplicates_In a), <- (removeDuplicates_In b), Heq.
    reflexivity.
- apply removeDuplicates_ext.
Qed.

(** X5. A slice is left as it is by [removeDuplicates] exactly when it is
    strictly ascending in byte order; in particular nil stays nil, the empty
    slice stays empty, and a second [removeDuplicates] changes nothing. *)
Theorem removeDuplicates_fixed_points (names : slice name) :
  (removeDuplicates names = names <-> StronglySorted name_lt (elems names)) /\
  removeDuplicates (removeDuplicates names) = removeDuplicates names.
Proof.
assert (Hfix : forall a, StronglySorted name_lt (elems a) -> removeDuplicates a = a).
{ intros [l|]; [|reflexivity]. cbn [elems]. intros Hs.
  unfold removeDuplicates. cbv zeta.
  rewrite run_is_compact, (Slice_strictly_sorted l Hs), (compact_strictly_sorted l Hs).
  reflexivity. }
split; [split|].
- intros Heq. rewrite <- Heq. apply removeDuplicates_sorted.
- apply Hfix.
- apply Hfix, removeDuplicates_sorted.
Qed.

(** X6. [removeDuplicates] never returns more names than it was given, and
    returns as many exactly when no name is repeated in the input: every
    repetition is dropped, and nothing else. *)
Theorem removeDuplicates_length (names : slice name) :
  (length (elems (removeDuplicates names)) <= length (elems names))%nat /\
  (length (elems (removeDuplicates names)) = length (elems names) <->
   NoDup (elems names)).
Proof.
pose proof (strictly_sorted_NoDup _ (removeDuplicates_sorted names)) as Hnd.
pose proof (removeDuplicates_incl names) as Hincl.
split; [apply NoDup_incl_length; assumption|]. split.
- intros Hlen. apply (NoDup_incl_NoDup Hnd); [lia|assumption].
- intros Hnd'. apply Nat.le_antisymm.
  + apply NoDup_incl_length; assumption.
  + apply NoDup_incl_length; [assumption|].
    intros n. apply removeDuplicates_In.
Qed.

(** ** The calls of [AppendBlock] *)

Lemma elems_append {A : Type} (s : slice A) (xs : list A) :
  elems (append s xs) = elems s ++ xs.
Proof. destruct s as [l|], xs as [|x xs]; reflexivity. Qed.

Lemma all_names_In (names expirations : slice name) (n : name) :
  In n (elems (all_names names expirations)) <->
  In n (elems names) \/ In n (elems expirations).
Proof.
unfold all_names.
rewrite removeDuplicates_In, elems_append, in_app_iff, removeDuplicates_In.
reflexivity.
Qed.

Lemma asked_names_app (a b : list Call) :
  asked_names (a ++ b) = asked_names a ++ asked_names b.
Proof. apply flat_map_app. Qed.

Lemma range_calls_asked (names : list name) : asked_names (range_calls names) = names.
Proof.
induction names as [|n names IH]; [reflexivity|].
cbn. unfold asked_names, range_calls in IH. now rewrite IH.
Qed.

Lemma range_calls_no_root (names : list name) :
  filter is_root_call (range_calls names) = [].
Proof. induction names as [|n names IH]; [reflexivity|exact IH]. Qed.

Section FurtherAppendBlock.

Context {S : Type}.
Context {param : Param}.
Context {blockRepo : BlockRepo S} {temporalRepo : TemporalRepo S}.
Context {nodeManager : NodeManager S} {merkleTrie : MerkleTrie S}.

Lemma range_effect_positive (names : list name) :
  forall s : S, Forall (fun p => 0 < snd p) (snd (range_effect names s)).
Proof.
induction names as [|n names IH]; intros s; [constructor|].
cbn [range_effect]. cbv zeta.
destruct (nodeManager_NextUpdateHeightOfNode n _) as [s2 next].
specialize (IH s2). destruct (range_effect names s2) as [s3 l]. cbn [snd] in *.
destruct (Z.leb_spec (snd next) 0); [assumption|]. constructor; [lia|assumption].
Qed.

Lemma range_effect_length (names : list name) :
  forall s : S, (length (snd (range_effect names s)) <= length names)%nat.
Proof.
induction names as [|n names IH]; intros s; [reflexivity|].
cbn [range_effect]. cbv zeta.
destruct (nodeManager_NextUpdateHeightOfNode n _) as [s2 next].
specialize (IH s2). destruct (range_effect names s2) as [s3 l]. cbn [snd length] in *.
destruct (snd next <=? 0); cbn [length]; lia.
Qed.

Lemma tail_calls_asked (h : Z) (all : slice name) (s : S) :
  asked_names (tail_calls h all s) = [].
Proof.
unfold tail_calls, sweep_calls, hash_call.
destruct (h =? AllClaimsInMerkleForkHeight), (h >=? AllClaimsInMerkleForkHeight);
  cbn; try reflexivity;
  induction (nodeManager_IterateNames s) as [|n l IH]; cbn; auto.
Qed.

Lemma tail_calls_root (h : Z) (all : slice name) (s : S) :
  filter is_root_call (tail_calls h all s) = [hash_call h; CallSet h (block_root h s)].
Proof.
assert (Hsweep : forall l : list name,
          filter is_root_call (map (fun n => CallUpdate n false) l) = []).
{ induction l as [|n l IH]; [reflexivity|exact IH]. }
assert (Hhash : is_root_call (hash_call h) = true).
{ unfold hash_call. now destruct (h >=? AllClaimsInMerkleForkHeight). }
unfold tail_calls, sweep_calls.
destruct (h =? AllClaimsInMerkleForkHeight).
- cbn [app filter is_root_call]. rewrite filter_app, Hsweep. cbn [app filter is_root_call].
  rewrite Hhash. reflexivity.
- cbn [app filter is_root_call]. rewrite Hhash. reflexivity.
Qed.

Lemma block_calls_asked (h : Z) (l bn : list name) (bh : list Z) :
  asked_names ([CallIncrementHeightTo h; CallNodesAt h]
                 ++ range_calls l ++ [CallSetNodesAt bn bh]) = l.
Proof.
rewrite !asked_names_app, range_calls_asked. cbn. apply app_nil_r.
Qed.

Lemma block_calls_no_root (h : Z) (l bn : list name) (bh : list Z) :
  filter is_root_call ([CallIncrementHeightTo h; CallNodesAt h]
                         ++ range_calls l ++ [CallSetNodesAt bn bh]) = [].
Proof.
rewrite !filter_app, range_calls_no_root. reflexivity.
Qed.

(** X7. [AppendBlock] writes at most one batch to the temporal repo.  In it
    every name has its height; after the names the node manager reported,
    which stand at the new height, come the scheduled names, each at a
    height above 0 -- a name whose next update height is 0 or less is left
    out -- and at most one for each name handed to the trie. *)
Theorem AppendBlock_batch_shape (ct : ClaimTrie S) :
  let h := wrap32 (height ct + 1) in
  let calls := calls_since ct (snd (AppendBlock ct)) in
  let touched :=
    elems (removeDuplicates
             (reported (snd (nodeManager_IncrementHeightTo h (heap ct))))) in
  (length (batches calls) <= 1)%nat /\
  Forall (fun b =>
            length (fst b) = length (snd b) /\
            Forall (fun k => 0 < k) (skipn (length touched) (snd b)) /\
            (length (fst b) <= length touched + length (updated_names calls))%nat)
         (batches calls).
Proof.
cbv zeta. unfold calls_since.
destruct (AppendBlock_cases ct) as [s1 e h Hinc|s1 names e h Hinc Hat
  |s1 names exps s3 e h all s2 sch bn bh Hinc Hat Hset
  |s1 names exps s3 h all s2 sch bn bh Hinc Hat Hset];
  cbn [journal]; rewrite skipn_journal; fold h.
- cbn. auto.
- cbn. auto.
- rewrite block_calls_batches, block_calls_updated. cbn [length]. split; [lia|].
  constructor; [|constructor]. cbn [fst snd].
  rewrite Hinc. cbn [snd reported]. fold (touched_names names).
  subst bn bh. unfold batch_names, batch_heights.
  rewrite !length_app, !length_map. split; [reflexivity|]. split.
  + rewrite <- (length_map (fun _ => h) (elems (touched_names names))) at 1.
    rewrite skipn_journal. apply Forall_map.
    apply (range_effect_positive (elems all) s1).
  + pose proof (range_effect_length (elems all) s1). subst sch. lia.
- rewrite (updated_names_app _ (tail_calls _ _ _)), (batches_app _ (tail_calls _ _ _)).
  rewrite tail_calls_updated, tail_calls_batches, !app_nil_r.
  rewrite block_calls_batches, block_calls_updated. cbn [length]. split; [lia|].
  constructor; [|constructor]. cbn [fst snd].
  rewrite Hinc. cbn [snd reported]. fold (touched_names names).
  subst bn bh. unfold batch_names, batch_heights.
  rewrite !length_app, !length_map. split; [reflexivity|]. split.
  + rewrite <- (length_map (fun _ => h) (elems (touched_names names))) at 1.
    rewrite skipn_journal. apply Forall_map.
    apply (range_effect_positive (elems all) s1).
  + pose proof (range_effect_length (elems all) s1). subst sch. lia.
Qed.

(** X8. When the node manager reports the names of the block and the
    temporal repo answers, the names [AppendBlock] marks in the trie with
    [Update(name, true)] are the reported names together with the names
    the temporal repo holds for the new height, and no others; for each of
    them, and in the same order, the node manager is asked for the next
    update height. *)
Theorem AppendBlock_marks_touched_and_expiring (ct : ClaimTrie S) (s1 : S)
    (names expirations : slice name) :
  let h := wrap32 (height ct + 1) in
  let calls := calls_since ct (snd (AppendBlock ct)) in
  nodeManager_IncrementHeightTo h (heap ct) = (s1, Ok names) ->
  temporalRepo_NodesAt h s1 = Ok expirations ->
  (forall n, In n (updated_names calls) <->
             In n (elems names) \/ In n (elems expirations)) /\
  asked_names calls = updated_names calls.
Proof.
cbv zeta. intros Hinc0 Hat0. unfold calls_since.
destruct (AppendBlock_cases ct) as [s1' e h Hinc|s1' names' e h Hinc Hat
  |s1' names' exps s3 e h all s2 sch bn bh Hinc Hat Hset
  |s1' names' exps s3 h all s2 sch bn bh Hinc Hat Hset];
  cbn [journal]; rewrite skipn_journal;
  unfold h in Hinc; rewrite Hinc0 in Hinc; inversion Hinc; subst s1' ;
  try (unfold h in Hat; rewrite Hat0 in Hat; try discriminate Hat;
       inversion Hat; subst exps); subst names'.
- rewrite block_calls_updated, block_calls_asked. split; [|reflexivity].
  intros n. apply all_names_In.
- rewrite (updated_names_app _ (tail_calls _ _ _)), (asked_names_app _ (tail_calls _ _ _)).
  rewrite tail_calls_updated, tail_calls_asked, !app_nil_r.
  rewrite block_calls_updated, block_calls_asked. split; [|reflexivity].
  intros n. apply all_names_In.
Qed.

(** X9. A successful [AppendBlock] computes the root once, after the
    temporal batch is written, with [MerkleHashAllClaims] from the fork
    height on and [MerkleHash] below it, on the store the batch write left
    (after the sweep, at the fork height), and hands the root that
    computation returned, at the new height, to the block repo once, on the
    store that computation left; an [AppendBlock] that fails computes no
    root and hands nothing to the block repo. *)
Theorem AppendBlock_persists_once (ct : ClaimTrie S) :
  let h := wrap32 (height ct + 1) in
  let calls := calls_since ct (snd (AppendBlock ct)) in
  match fst (AppendBlock ct) with
  | Some _ => filter is_root_call calls = []
  | None =>
      exists (s1 s3 : S) (names expirations : slice name),
        let all := all_names names expirations in
        let s2 := fst (range_effect (elems all) s1) in
        let sch := snd (range_effect (elems all) s1) in
        let bn := batch_names (touched_names names) sch in
        let bh := batch_heights h (touched_names names) sch in
        let hashed := hash_effect h (swept h s3) in
        let stored := fst (blockRepo_Set h (snd hashed) (fst hashed)) in
        nodeManager_IncrementHeightTo h (heap ct) = (s1, Ok names) /\
        temporalRepo_NodesAt h s1 = Ok expirations /\
        temporalRepo_SetNodesAt bn bh s2 = (s3, None) /\
        heap (snd (AppendBlock ct)) =
          (if h =? AllClaimsInMerkleForkHeight
           then fst (merkleTrie_SetRoot (snd hashed) all stored)
           else stored) /\
        exists before after : list Call,
          calls = before ++ [CallSetNodesAt bn bh] ++ after /\
          filter is_root_call before = [] /\
          filter is_root_call after =
            [if h >=? AllClaimsInMerkleForkHeight
             then CallMerkleHashAllClaims else CallMerkleHash;
             CallSet h (snd hashed)]
  end.
Proof.
cbv zeta. unfold calls_since.
destruct (AppendBlock_cases ct) as [s1 e h Hinc|s1 names e h Hinc Hat
  |s1 names exps s3 e h all s2 sch bn bh Hinc Hat Hset
  |s1 names exps s3 h all s2 sch bn bh Hinc Hat Hset];
  cbn [journal heap]; rewrite skipn_journal; fold h; try reflexivity.
- apply block_calls_no_root.
- exists s1, s3, names, exps. fold all s2 sch bn bh.
  split; [exact Hinc|]. split; [exact Hat|]. split; [exact Hset|]. split.
  + unfold tail_effect, persisted, block_root.
    destruct (h =? AllClaimsInMerkleForkHeight); reflexivity.
  + exists ([CallIncrementHeightTo h; CallNodesAt h] ++ range_calls (elems all)),
      (tail_calls h all s3).
    split; [|split].
    * rewrite <- !app_assoc. reflexivity.
    * rewrite filter_app, range_calls_no_root. reflexivity.
    * apply tail_calls_root.
Qed.

End FurtherAppendBlock.

(** ** Heights along a run *)

Lemma stamps_app (a b : list Call) : stamps (a ++ b) = stamps a ++ stamps b.
Proof. apply flat_map_app. Qed.

Lemma advances_app (a b : list Call) : advances (a ++ b) = advances a ++ advances b.
Proof. apply flat_map_app. Qed.

Lemma range_calls_stamps (names : list name) : stamps (range_calls names) = [].
Proof. induction names as [|n names IH]; [reflexivity|exact IH]. Qed.

Lemma range_calls_advances (names : list name) : advances (range_calls names) = [].
Proof. induction names as [|n names IH]; [reflexivity|exact IH]. Qed.

Lemma bump_linear (n : nat) :
  forall h : Z,
  int32 h -> h + Z.of_nat n <= MaxInt32 -> bump n h = h + Z.of_nat n.
Proof.
induction n as [|n IH]; intros h Hh Hle; cbn [bump]; [lia|].
assert (Hw : wrap32 (h + 1) = h + 1).
{ apply wrap32_in_range. unfold int32 in *. lia. }
rewrite Hw, IH; [lia| |lia]. unfold int32 in *. lia.
Qed.

Lemma bump_int32 (n : nat) : forall h : Z, int32 h -> int32 (bump n h).
Proof.
induction n as [|n IH]; intros h Hh; cbn [bump]; [assumption|].
apply IH, wrap32_int32.
Qed.

Section FurtherRuns.

Context {S : Type}.
Context {param : Param}.
Context {blockRepo : BlockRepo S} {temporalRepo : TemporalRepo S}.
Context {nodeManager : NodeManager S} {merkleTrie : MerkleTrie S}.

Lemma tail_calls_stamps (h : Z) (all : slice name) (s : S) :
  stamps (tail_calls h all s) = [].
Proof.
unfold tail_calls, sweep_calls, hash_call.
destruct (h =? AllClaimsInMerkleForkHeight), (h >=? AllClaimsInMerkleForkHeight);
  cbn; try reflexivity;
  induction (nodeManager_IterateNames s) as [|n l IH]; cbn; auto.
Qed.

Lemma tail_calls_advances (h : Z) (all : slice name) (s : S) :
  advances (tail_calls h all s) = [].
Proof.
unfold tail_calls, sweep_calls, hash_call.
destruct (h =? AllClaimsInMerkleForkHeight), (h >=? AllClaimsInMerkleForkHeight);
  cbn; try reflexivity;
  induction (nodeManager_IterateNames s) as [|n l IH]; cbn; auto.
Qed.

(** [AppendBlock] advances the node manager once and hands it no change. *)
Lemma AppendBlock_journal (ct : ClaimTrie S) :
  exists calls : list Call,
    journal (snd (AppendBlock ct)) = journal ct ++ calls /\
    advances calls = [wrap32 (height ct + 1)] /\
    stamps calls = [].
Proof.
destruct (AppendBlock_cases ct) as [s1 e h Hinc|s1 names e h Hinc Hat
  |s1 names exps s3 e h all s2 sch bn bh Hinc Hat Hset
  |s1 names exps s3 h all s2 sch bn bh Hinc Hat Hset]; cbn [journal];
  eexists; (split; [reflexivity|]);
  rewrite ?advances_app, ?stamps_app, ?range_calls_stamps, ?range_calls_advances,
    ?tail_calls_stamps, ?tail_calls_advances; split; reflexivity.
Qed.

Lemma submit_eq (o : Op) (ct : ClaimTrie S) :
  is_block o = false ->
  height (snd (submit o ct)) = height ct /\
  cleanups (snd (submit o ct)) = cleanups ct /\
  journal (snd (submit o ct)) =
    journal ct ++ map CallAppendChange (change_of (height ct) o).
Proof.
intros Hb.
destruct o; try discriminate; cbn [submit change_of];
  unfold AddClaim, UpdateClaim, SpendClaim, AddSupport, SpendSupport;
  rewrite forwardNodeChange_eq; cbn [heap height cleanups journal map];
  repeat split; reflexivity.
Qed.

Lemma run_submissions (subs : list Op) :
  forall ct : ClaimTrie S,
  forallb (fun o => negb (is_block o)) subs = true ->
  height (snd (run subs ct)) = height ct /\
  cleanups (snd (run subs ct)) = cleanups ct /\
  journal (snd (run subs ct)) =
    journal ct ++ map CallAppendChange (flat_map (change_of (height ct)) subs).
Proof.
induction subs as [|o rest IH]; intros ct Hsubs; cbn [run flat_map].
- cbn. now rewrite app_nil_r.
- cbn [forallb] in Hsubs. apply andb_true_iff in Hsubs. destruct Hsubs as [Ho Hrest].
  apply negb_true_iff in Ho.
  destruct (submit_eq o ct Ho) as (Hh & Hc & Hj).
  destruct (submit o ct) as [err ct1]. cbn [snd] in *. rewrite Ho.
  destruct (IH ct1 Hrest) as (Hh' & Hc' & Hj').
  destruct (run rest ct1) as [seen ct3]. cbn [snd] in *.
  rewrite Hh', Hc', Hj', Hh, Hc, Hj, map_app, app_assoc. auto.
Qed.

Lemma stamps_changes (h : Z) (subs : list Op) :
  forallb (fun o => negb (is_block o)) subs = true ->
  stamps (map CallAppendChange (flat_map (change_of h) subs))
    = repeat (wrap32 (h + 1)) (length subs).
Proof.
induction subs as [|o rest IH]; intros Hsubs; [reflexivity|].
cbn [forallb] in Hsubs. apply andb_true_iff in Hsubs. destruct Hsubs as [Ho Hrest].
cbn [flat_map length repeat]. rewrite map_app, stamps_app, (IH Hrest).
destruct o; try discriminate; reflexivity.
Qed.

Lemma advances_changes (l : list change.Change) :
  advances (map CallAppendChange l) = [].
Proof. induction l as [|c l IH]; [reflexivity|exact IH]. Qed.

(** X10. Along any sequence of calls of the five submitters and of
    [AppendBlock], each [AppendBlock] followed by [MerkleHash], the height
    advances by one int32 step for each [AppendBlock], whether that call
    fails or not, and by nothing else: it is the height at the start plus
    the number of [AppendBlock] calls as long as that sum does not pass
    [MaxInt32], and it is an int32 in any case. *)
Theorem run_height (ops : list Op) (ct : ClaimTrie S) :
  height (snd (run ops ct)) = bump (blocks_in ops) (height ct) /\
  (int32 (height ct) ->
   int32 (height (snd (run ops ct))) /\
   (height ct + Z.of_nat (blocks_in ops) <= MaxInt32 ->
    height (snd (run ops ct)) = height ct + Z.of_nat (blocks_in ops))).
Proof.
assert (Hrun : forall ops ct, height (snd (run ops ct)) = bump (blocks_in ops) (height ct)).
{ clear ops ct. induction ops as [|o rest IH]; intros ct; [reflexivity|].
  cbn [run]. unfold blocks_in. cbn [filter].
  destruct (is_block o) eqn:Ho.
  - destruct o; try discriminate. cbn [submit].
    pose proof (AppendBlock_height ct) as Hh.
    destruct (AppendBlock ct) as [err ct1]. cbn [snd] in Hh.
    rewrite MerkleHash_eq. specialize (IH (mkClaimTrie
      (fst (hash_effect (height ct1) (heap ct1))) (height ct1) (cleanups ct1)
      (journal ct1 ++ [hash_call (height ct1)]))).
    destruct (run rest _) as [seen ct3]. cbn [snd length bump] in *.
    rewrite IH. cbn [height]. rewrite Hh. reflexivity.
  - destruct (submit_eq o ct Ho) as (Hh & _).
    destruct (submit o ct) as [err ct1]. cbn [snd] in Hh.
    specialize (IH ct1). destruct (run rest ct1) as [seen ct3]. cbn [snd] in *.
    rewrite IH, Hh. reflexivity. }
split; [apply Hrun|]. intros Hint. rewrite Hrun. split.
- apply bump_int32, Hint.
- apply bump_linear, Hint.
Qed.

(** X11. The changes submitted since the last block carry the height of
    the block that takes them in: after any number of submitter calls,
    [AppendBlock] advances the node manager once, to the very height every
    one of these changes was stamped with, and that is the height the
    orchestrator then has. *)
Theorem changes_stamped_for_next_block (subs : list Op) (ct : ClaimTrie S) :
  forallb (fun o => negb (is_block o)) subs = true ->
  let h := wrap32 (height ct + 1) in
  let submitted := snd (run subs ct) in
  let appended := snd (AppendBlock submitted) in
  calls_since ct submitted
    = map CallAppendChange (flat_map (change_of (height ct)) subs) /\
  stamps (calls_since ct appended) = repeat h (length subs) /\
  advances (calls_since ct appended) = [h] /\
  height appended = h.
Proof.
intros Hsubs. cbv zeta.
destruct (run_submissions subs ct Hsubs) as (Hh & _ & Hj).
destruct (AppendBlock_journal (snd (run subs ct))) as (calls & Hj' & Hadv & Hst).
unfold calls_since. rewrite Hj', Hj, <- app_assoc, !skipn_journal.
rewrite stamps_app, advances_app, Hadv, Hst, advances_changes, app_nil_r, Hh.
rewrite (stamps_changes _ _ Hsubs), AppendBlock_height, Hh. auto.
Qed.

End FurtherRuns.

(** ** What [ResetHeight] does and does not do *)

Lemma is_rewind_NodesAt (hs : list Z) :
  forallb is_rewind_call (map CallNodesAt hs) = true.
Proof. induction hs as [|k hs IH]; [reflexivity|exact IH]. Qed.

Lemma NodesAt_not_Decrement (hs : list Z) (ns : slice name) (h : Z) :
  ~ In (CallDecrementHeightTo ns h) (map CallNodesAt hs).
Proof.
intros Hin. apply in_map_iff in Hin. destruct Hin as (k & Hk & _). discriminate.
Qed.

Section FurtherResetHeight.

Context {S : Type}.
Context {param : Param}.
Context {blockRepo : BlockRepo S} {temporalRepo : TemporalRepo S}.
Context {nodeManager : NodeManager S} {merkleTrie : MerkleTrie S}.

Lemma is_rewind_hash_call (h : Z) : is_rewind_call (hash_call h) = true.
Proof. unfold hash_call. now destruct (h >=? AllClaimsInMerkleForkHeight). Qed.

(** The loop of [ResetHeight] ends within [height - h + 1] reads, whatever
    the temporal repo answers. *)
Lemma ResetHeight_collect_returns (n : nat) :
  forall (fuel : nat) (h : Z) (names : slice name) (ct : ClaimTrie S),
  (n <= fuel)%nat ->
  height ct + 1 - h <= Z.of_nat n ->
  MinInt32 <= h -> height ct < MaxInt32 ->
  exists r ct', ResetHeight_collect fuel h names ct = Some (r, ct').
Proof.
induction n as [|n IH]; intros fuel h names ct Hfuel Hn Hh Hmax.
- destruct fuel; cbn [ResetHeight_collect];
    (destruct (Z.leb_spec h (height ct)); [lia|eauto]).
- destruct fuel as [|fuel]; [lia|]. cbn [ResetHeight_collect].
  destruct (Z.leb_spec h (height ct)); [|eauto].
  unfold read, call.
  destruct (temporalRepo_NodesAt h (heap ct)) as [results|e]; [|eauto].
  assert (Hw : wrap32 (h + 1) = h + 1).
  { apply wrap32_in_range. unfold int32. lia. }
  rewrite Hw. apply IH; cbn [height]; lia.
Qed.

(** X12. A [ResetHeight] that returns has only read the temporal repo,
    rewound the node manager, read the block repo, reset the trie's root and
    computed a root: it hands no change to the node manager, advances
    nothing, writes nothing to the temporal repo or the block repo, marks
    no name in the trie and runs no cleanup.  The height it leaves is the
    one before the call or the target.  If it returns before the node
    manager is rewound, it has failed, and the store and the height are
    what they were. *)
Theorem ResetHeight_only_rewinds (fuel : nat) (target : Z) (ct ct' : ClaimTrie S)
    (err : option error) :
  ResetHeight fuel target ct = Some (err, ct') ->
  let calls := calls_since ct ct' in
  forallb is_rewind_call calls = true /\
  cleanups ct' = cleanups ct /\
  (height ct' = height ct \/ height ct' = target) /\
  ((forall ns h, ~ In (CallDecrementHeightTo ns h) calls) ->
   err <> None /\ heap ct' = heap ct /\ height ct' = height ct).
Proof.
unfold ResetHeight. cbv zeta. unfold calls_since.
destruct (ResetHeight_collect fuel (wrap32 (target + 1)) (Some []) ct)
  as [[r ct1]|] eqn:Hcollect; [|discriminate].
destruct (ResetHeight_collect_frame _ _ _ _ _ _ Hcollect)
  as (Hheap & Hheight & Hclean & hs & Hj & _).
destruct r as [names|e].
- rewrite ResetHeight_finish_eq. cbv zeta. rewrite Hheap, Hheight, Hclean, Hj.
  destruct (snd (nodeManager_DecrementHeightTo names target (heap ct))) as [e|];
    [|destruct (blockRepo_Get target _) as [hash|e]];
    intros Heq; inversion Heq; subst err ct'; cbn [heap height cleanups journal];
    rewrite <- app_assoc, skipn_journal, forallb_app, is_rewind_NodesAt;
    cbn [forallb is_rewind_call andb]; rewrite ?is_rewind_hash_call;
    (split; [reflexivity|]); (split; [reflexivity|]); (split; [auto|]);
    intros Hno; exfalso; apply (Hno names target), in_or_app; right; left; reflexivity.
- intros Heq; inversion Heq; subst err ct'. rewrite Hj, skipn_journal, is_rewind_NodesAt.
  repeat split; auto; try discriminate.
Qed.

(** X13. Below the int32 limit [ResetHeight] always returns: whatever the
    collaborators answer, its loop ends after at most one read of the
    temporal repo for each height between the target and the current
    height. *)
Theorem ResetHeight_returns (fuel : nat) (target : Z) (ct : ClaimTrie S) :
  int32 target -> target < MaxInt32 -> height ct < MaxInt32 ->
  (Z.to_nat (height ct - target) <= fuel)%nat ->
  exists (err : option error) (ct' : ClaimTrie S),
    ResetHeight fuel target ct = Some (err, ct').
Proof.
intros Ht Hlt Hmax Hfuel. unfold ResetHeight.
assert (Hw : wrap32 (target + 1) = target + 1).
{ apply wrap32_in_range. unfold int32 in *. lia. }
rewrite Hw.
destruct (ResetHeight_collect_returns (Z.to_nat (height ct - target)) fuel (target + 1)
            (Some []) ct Hfuel) as (r & ct1 & ->); try lia.
- unfold int32 in Ht. lia.
- destruct r as [names|e]; [|eauto].
  destruct (ResetHeight_finish target names ct1) as [err ct']. eauto.
Qed.

(** X14. A target at or above the current height is not refused: without
    reading the temporal repo -- so without a single iteration of the loop --
    [ResetHeight] asks the node manager to go to the target with an empty,
    non-nil list of names, and once the node manager agrees the
    orchestrator's height is the target, also when it is above the height
    before the call. *)
Theorem ResetHeight_nothing_to_rewind (fuel : nat) (target : Z) (ct : ClaimTrie S) :
  int32 target -> target < MaxInt32 -> height ct <= target ->
  exists (err : option error) (ct' : ClaimTrie S) (rest : list Call),
    ResetHeight fuel target ct = Some (err, ct') /\
    calls_since ct ct' = CallDecrementHeightTo (Some []) target :: rest /\
    (forall k, ~ In (CallNodesAt k) rest) /\
    match snd (nodeManager_DecrementHeightTo (Some []) target (heap ct)) with
    | Some e => err = Some e /\ height ct' = height ct /\ rest = []
    | None => height ct' = target
    end.
Proof.
intros Ht Hlt Hle. unfold ResetHeight, calls_since.
assert (Hw : wrap32 (target + 1) = target + 1).
{ apply wrap32_in_range. unfold int32 in *. lia. }
rewrite Hw.
assert (Hc : ResetHeight_collect fuel (target + 1) (Some []) ct = Some (Ok (Some []), ct)).
{ destruct fuel; cbn [ResetHeight_collect];
    (destruct (Z.leb_spec (target + 1) (height ct)); [lia|reflexivity]). }
rewrite Hc, ResetHeight_finish_eq. cbv zeta.
destruct (snd (nodeManager_DecrementHeightTo (Some []) target (heap ct))) as [e|];
  [|destruct (blockRepo_Get target _) as [hash|e]];
  do 2 eexists; eexists;
  (split; [reflexivity|]); cbn [journal height]; rewrite skipn_journal;
  (split; [reflexivity|]); (split; [|auto]);
  intros k Hin; cbn [In] in Hin;
  repeat (destruct Hin as [Hin|Hin]; try discriminate Hin); try contradiction;
  unfold hash_call in Hin; destruct (target >=? AllClaimsInMerkleForkHeight);
  discriminate Hin.
Qed.

(** X15. At height [MaxInt32] the loop of [ResetHeight] has no way out but
    a failing read: its int32 counter is never above the height, so when the
    temporal repo answers every read, [ResetHeight] does not return,
    whatever the target. *)
Theorem ResetHeight_at_MaxInt32_never_returns (fuel : nat) (target : Z)
    (ct : ClaimTrie S) :
  height ct = MaxInt32 ->
  (forall k, exists r, temporalRepo_NodesAt k (heap ct) = Ok r) ->
  ResetHeight fuel target ct = None.
Proof.
intros Hmax Hread. unfold ResetHeight.
rewrite (ResetHeight_collect_never_ends fuel (wrap32 (target + 1)) (Some []) ct Hmax
           (wrap32_int32 _) Hread).
reflexivity.
Qed.

End FurtherResetHeight.

(** ** Cleanups along a run *)

Lemma range_calls_no_cleanup (names : list name) :
  filter is_cleanup (range_calls names) = [].
Proof. induction names as [|n names IH]; [reflexivity|exact IH]. Qed.

Section FurtherCleanups.

Context {S : Type}.
Context {param : Param}.
Context {blockRepo : BlockRepo S} {temporalRepo : TemporalRepo S}.
Context {nodeManager : NodeManager S} {merkleTrie : MerkleTrie S}.

Lemma hash_call_no_cleanup (h : Z) : is_cleanup (hash_call h) = false.
Proof. unfold hash_call. now destruct (h >=? AllClaimsInMerkleForkHeight). Qed.

Lemma tail_calls_no_cleanup (h : Z) (all : slice name) (s : S) :
  filter is_cleanup (tail_calls h all s) = [].
Proof.
assert (Hsweep : forall l : list name,
          filter is_cleanup (map (fun n => CallUpdate n false) l) = []).
{ induction l as [|n l IH]; [reflexivity|exact IH]. }
unfold tail_calls, sweep_calls.
destruct (h =? AllClaimsInMerkleForkHeight).
- cbn [app filter is_cleanup]. rewrite filter_app, Hsweep. cbn [app filter is_cleanup].
  rewrite hash_call_no_cleanup. reflexivity.
- cbn [app filter is_cleanup]. rewrite hash_call_no_cleanup. reflexivity.
Qed.

Lemma AppendBlock_no_cleanup (ct : ClaimTrie S) :
  cleanups (snd (AppendBlock ct)) = cleanups ct /\
  exists calls : list Call,
    journal (snd (AppendBlock ct)) = journal ct ++ calls /\
    filter is_cleanup calls = [].
Proof.
destruct (AppendBlock_cases ct) as [s1 e h Hinc|s1 names e h Hinc Hat
  |s1 names exps s3 e h all s2 sch bn bh Hinc Hat Hset
  |s1 names exps s3 h all s2 sch bn bh Hinc Hat Hset]; cbn [journal cleanups];
  (split; [reflexivity|]); eexists; (split; [reflexivity|]);
  rewrite ?filter_app, ?range_calls_no_cleanup, ?tail_calls_no_cleanup; reflexivity.
Qed.

(** X16. Cleanups are left to [Close]: no sequence of submitter calls,
    [AppendBlock] and [MerkleHash], whichever of them fail, runs a cleanup
    or changes the list of registered cleanups. *)
Theorem run_keeps_resources_open (ops : list Op) (ct : ClaimTrie S) :
  cleanups (snd (run ops ct)) = cleanups ct /\
  filter is_cleanup (calls_since ct (snd (run ops ct))) = [] /\
  exists calls : list Call, journal (snd (run ops ct)) = journal ct ++ calls.
Proof.
assert (Hrun : forall ops (ct : ClaimTrie S),
          cleanups (snd (run ops ct)) = cleanups ct /\
          exists calls : list Call,
            journal (snd (run ops ct)) = journal ct ++ calls /\
            filter is_cleanup calls = []).
{ clear ops ct. induction ops as [|o rest IH]; intros ct.
  - cbn [run snd]. split; [reflexivity|]. exists []. now rewrite app_nil_r.
  - cbn [run]. destruct (is_block o) eqn:Ho.
    + destruct o; try discriminate. cbn [submit].
      destruct (AppendBlock_no_cleanup ct) as (Hc & calls & Hj & Hf).
      destruct (AppendBlock ct) as [err ct1]. cbn [snd] in Hc, Hj.
      rewrite MerkleHash_eq.
      destruct (IH (mkClaimTrie (fst (hash_effect (height ct1) (heap ct1))) (height ct1)
                      (cleanups ct1) (journal ct1 ++ [hash_call (height ct1)])))
        as (Hc' & calls' & Hj' & Hf').
      destruct (run rest _) as [seen ct3]. cbn [snd cleanups journal] in *.
      split; [congruence|].
      exists (calls ++ [hash_call (height ct1)] ++ calls'). split.
      * rewrite Hj', Hj, <- !app_assoc. reflexivity.
      * rewrite !filter_app, Hf, Hf'. cbn [filter]. rewrite hash_call_no_cleanup.
        reflexivity.
    + destruct (submit_eq o ct Ho) as (_ & Hc & Hj).
      destruct (submit o ct) as [err ct1]. cbn [snd] in Hc, Hj.
      destruct (IH ct1) as (Hc' & calls' & Hj' & Hf').
      destruct (run rest ct1) as [seen ct3]. cbn [snd] in *.
      split; [congruence|].
      exists (map CallAppendChange (change_of (height ct) o) ++ calls'). split.
      * rewrite Hj', Hj, <- !app_assoc. reflexivity.
      * rewrite filter_app, Hf', app_nil_r.
        destruct o; try discriminate; reflexivity. }
destruct (Hrun ops ct) as (Hc & calls & Hj & Hf). split; [exact Hc|].
unfold calls_since. rewrite Hj, skipn_journal. split; [exact Hf|]. now exists calls.
Qed.

End FurtherCleanups.

(** ** The further properties on concrete runs *)

Section FurtherConcreteFacts.

#[local] Existing Instance fork3.
#[local] Existing Instance ten.


Lemma New_success_witness :
  fst (New true persisted_right) = None /\
  exists previousHeight : Z,
    blockRepo_Load persisted_right = Ok previousHeight /\
    height (snd (New true persisted_right)) = previousHeight /\
    cleanups (snd (New true persisted_right)) =
      [blockRepoClose; temporalRepoClose; nodeManagerClose].
Proof.
split; [vm_compute; reflexivity|].
pose proof (New_success (S := SpecModel.Store) true persisted_right) as restored.
destruct (restored ltac:(vm_compute; reflexivity))
  as (previousHeight & Hload & Hheight & Hclean & _).
exists previousHeight. split; [exact Hload|]. split; [exact Hheight|exact Hclean].
Defined.

Lemma AppendBlock_marks_touched_and_expiring_witness :
  nodeManager_IncrementHeightTo 2 (heap with_pending_claim)
    = (SpecModel.advance 2 (heap with_pending_claim), Ok (Some [name_a])) /\
  temporalRepo_NodesAt 2 (SpecModel.advance 2 (heap with_pending_claim)) = Ok None /\
  forall n : name,
    In n (updated_names
            (calls_since with_pending_claim (snd (AppendBlock with_pending_claim)))) <->
    In n [name_a] \/ In n [].
Proof.
split; [vm_compute; reflexivity|]. split; [vm_compute; reflexivity|].
pose proof (AppendBlock_marks_touched_and_expiring (S := SpecModel.Store)
              with_pending_claim (SpecModel.advance 2 (heap with_pending_claim))
              (Some [name_a]) None) as marks.
cbv zeta in marks.
change (wrap32 (height with_pending_claim + 1)) with 2 in marks.
exact (proj1 (marks ltac:(vm_compute; reflexivity) ltac:(vm_compute; reflexivity))).
Defined.

Lemma run_height_witness :
  int32 (height (fresh SpecModel.empty)) /\
  height (snd (run [OpAppendBlock; OpAddClaim name_b op2 id2 50; OpAppendBlock]
                 (fresh SpecModel.empty)))
    = height (fresh SpecModel.empty) + 2.
Proof.
assert (Hint : int32 (height (fresh SpecModel.empty))) by (vm_compute; split; discriminate).
split; [exact Hint|].
pose proof (run_height (S := SpecModel.Store)
              [OpAppendBlock; OpAddClaim name_b op2 id2 50; OpAppendBlock]
              (fresh SpecModel.empty)) as along.
exact (proj2 (proj2 along Hint) ltac:(vm_compute; discriminate)).
Defined.

Lemma changes_stamped_for_next_block_witness :
  stamps (calls_since at_height_1
            (snd (AppendBlock
                    (snd (run [OpAddClaim name_a op1 id1 100; OpAddSupport name_a op2 7 id1]
                            at_height_1)))))
    = [2; 2] /\
  advances (calls_since at_height_1
              (snd (AppendBlock
                      (snd (run [OpAddClaim name_a op1 id1 100; OpAddSupport name_a op2 7 id1]
                              at_height_1)))))
    = [2].
Proof.
pose proof (changes_stamped_for_next_block (S := SpecModel.Store)
              [OpAddClaim name_a op1 id1 100; OpAddSupport name_a op2 7 id1]
              at_height_1 eq_refl) as stamped.
cbv zeta in stamped.
change (wrap32 (height at_height_1 + 1)) with 2 in stamped.
destruct stamped as (_ & Hstamps & Hadv & _).
split; [exact Hstamps|exact Hadv].
Defined.

Lemma ResetHeight_only_rewinds_witness :
  exists ct' : ClaimTrie SpecModel.Store,
    ResetHeight 1 1 (snd (AppendBlock with_pending_claim)) = Some (None, ct') /\
    forallb is_rewind_call (calls_since (snd (AppendBlock with_pending_claim)) ct') = true /\
    cleanups ct' = cleanups (snd (AppendBlock with_pending_claim)).
Proof.
pose proof (ResetHeight_only_rewinds (S := SpecModel.Store)) as only.
eexists. split; [vm_compute; reflexivity|].
match goal with
| |- forallb _ (calls_since ?ct ?ct') = _ /\ _ =>
    destruct (only 1%nat 1 ct ct' None ltac:(vm_compute; reflexivity))
      as (Hcalls & Hclean & _);
    split; [exact Hcalls|exact Hclean]
end.
Defined.

Lemma ResetHeight_returns_witness :
  (Z.to_nat (height claimed_then_spent - 0) <= 2)%nat /\
  exists (err : option error) (ct' : ClaimTrie SpecModel.Store),
    ResetHeight 2 0 claimed_then_spent = Some (err, ct').
Proof.
split; [vm_compute; lia|].
apply (ResetHeight_returns (S := SpecModel.Store) 2 0 claimed_then_spent).
- vm_compute. split; discriminate.
- vm_compute. reflexivity.
- vm_compute. reflexivity.
- vm_compute. lia.
Defined.

Lemma ResetHeight_nothing_to_rewind_witness :
  height at_height_1 <= 5 /\
  exists (err : option error) (ct' : ClaimTrie SpecModel.Store) (rest : list Call),
    ResetHeight 0 5 at_height_1 = Some (err, ct') /\
    calls_since at_height_1 ct' = CallDecrementHeightTo (Some []) 5 :: rest.
Proof.
split; [vm_compute; discriminate|].
destruct (ResetHeight_nothing_to_rewind (S := SpecModel.Store) 0 5 at_height_1)
  as (err & ct' & rest & Hreset & Hcalls & _).
- vm_compute. split; discriminate.
- vm_compute. reflexivity.
- vm_compute. discriminate.
- exists err, ct', rest. split; [exact Hreset|exact Hcalls].
Defined.

Lemma ResetHeight_at_MaxInt32_never_returns_witness :
  height (mkClaimTrie SpecModel.empty MaxInt32 [] []) = MaxInt32 /\
  ResetHeight 3 0 (mkClaimTrie SpecModel.empty MaxInt32 [] []) = None.
Proof.
split; [reflexivity|].
apply (ResetHeight_at_MaxInt32_never_returns (S := SpecModel.Store) 3 0
         (mkClaimTrie SpecModel.empty MaxInt32 [] [])).
- reflexivity.
- intros k. eexists. reflexivity.
Defined.

End FurtherConcreteFacts.

(** * The orchestrator on the collaborators of the specification *)


(** ** Lists *)

Lemma filter_all {A : Type} (f : A -> bool) (l : list A) :
  Forall (fun x => f x = true) l -> filter f l = l.
Proof. induction 1 as [|x l Hx Hl IH]; simpl; [|rewrite Hx, IH]; auto. Qed.

Lemma filter_none {A : Type} (f : A -> bool) (l : list A) :
  Forall (fun x => f x = false) l -> filter f l = [].
Proof. induction 1 as [|x l Hx Hl IH]; simpl; [|rewrite Hx, IH]; auto. Qed.

Lemma flat_map_ext_In {A B : Type} (f g : A -> list B) (l : list A) :
  (forall x, In x l -> f x = g x) -> flat_map f l = flat_map g l.
Proof.
induction l as [|x l IH]; intros H; [reflexivity|].
cbn [flat_map]. rewrite (H x (or_introl eq_refl)), IH; [reflexivity|].
intros y Hy. apply H. now right.
Qed.

Lemma flat_map_filter {A B : Type} (g : A -> list B) (p : A -> bool) (l : list A) :
  (forall x, In x l -> p x = false -> g x = []) ->
  flat_map g l = flat_map g (filter p l).
Proof.
induction l as [|x l IH]; intros H; [reflexivity|].
cbn [flat_map filter]. rewrite IH by (intros y Hy; apply H; now right).
destruct (p x) eqn:E; [reflexivity|].
now rewrite (H x (or_introl eq_refl) E).
Qed.

Lemma strictly_sorted_filter (p : name -> bool) (l : list name) :
  StronglySorted name_lt l -> StronglySorted name_lt (filter p l).
Proof.
induction 1 as [|x l Hs IH Hx]; cbn [filter]; [constructor|].
destruct (p x); [|exact IH]. constructor; [exact IH|].
rewrite Forall_forall in *. intros y Hy. apply Hx. apply filter_In in Hy. tauto.
Qed.

Lemma mem_In (n : name) (l : list name) : SpecModel.mem n l = true <-> In n l.
Proof.
unfold SpecModel.mem. rewrite existsb_exists. split.
- intros (m & Hm & E). apply Equal_true in E. now subst.
- intros H. exists n. split; [assumption|apply Equal_refl].
Qed.

(** The hashes of a larger sorted list of names are those of a smaller
    one when the names left out have none. *)
Lemma flat_map_sorted_sub {B : Type} (g : name -> list B) (K N : list name) :
  StronglySorted name_lt K -> StronglySorted name_lt N ->
  incl N K ->
  (forall n, In n K -> ~ In n N -> g n = []) ->
  flat_map g K = flat_map g N.
Proof.
intros HK HN Hsub Hnil.
rewrite (flat_map_filter g (fun n => SpecModel.mem n N) K).
- f_equal. apply strictly_sorted_ext; [now apply strictly_sorted_filter|assumption|].
  intros n. rewrite filter_In, mem_In. split; [tauto|]. intros H. split; auto.
- intros n Hn Hm. apply Hnil; [assumption|]. intros Hin. apply mem_In in Hin. congruence.
Qed.

(** ** The trie of the specification *)

Lemma lookup_cons (n m : name) (l : SpecModel.Leaf) (c : list (name * SpecModel.Leaf)) :
  SpecModel.lookup n ((m, l) :: c)
  = if bytes.Equal m n then Some l else SpecModel.lookup n c.
Proof.
unfold SpecModel.lookup. cbn [find fst]. destruct (bytes.Equal m n); reflexivity.
Qed.

Lemma lookup_In (n : name) (c : list (name * SpecModel.Leaf)) :
  In n (map fst c) <-> SpecModel.lookup n c <> None.
Proof.
induction c as [|[m l] c IH]; cbn [map In fst].
- split; [tauto|]. intros H. now contradiction H.
- rewrite lookup_cons. destruct (bytes.Equal m n) eqn:E.
  + apply Equal_true in E. split; [discriminate|]. intros _. now left.
  + apply Equal_false in E. rewrite <- IH. split; [|tauto]. intros [H|H]; [contradiction|assumption].
Qed.

Lemma history_app (n : name) (a b : list change.Change) :
  SpecModel.history n (a ++ b) = SpecModel.history n a ++ SpecModel.history n b.
Proof. apply filter_app. Qed.

Lemma history_none (n : name) (l : list change.Change) :
  ~ In n (map change.Name l) -> SpecModel.history n l = [].
Proof.
intros H. apply filter_none, Forall_forall. intros c Hc. apply Equal_false.
intros E. apply H. subst n. now apply in_map.
Qed.

Lemma truncate_all (H : Z) (l : list change.Change) :
  Forall (fun c => change.Height c <= H) l -> SpecModel.truncate H l = l.
Proof.
intros Hl. apply filter_all. eapply Forall_impl; [|exact Hl].
intros c Hc. now apply Z.leb_le.
Qed.

Lemma truncate_In (H : Z) (l : list change.Change) (c : change.Change) :
  In c (SpecModel.truncate H l) -> In c l.
Proof. intros Hc. apply filter_In in Hc. tauto. Qed.

Section TrieFacts.

Context {sem : SpecModel.NodeSemantics}.

Lemma good_input_ok (b : bool) (s : SpecModel.Store) (n : name) (l : SpecModel.Leaf) :
  good_leaf b s n l -> input_ok s n l.
Proof. intros (H1 & H2 & _). now split. Qed.

Lemma fresh_good (b : bool) (s : SpecModel.Store) (n : name) :
  good_leaf b s n
    (SpecModel.mkLeaf (fst (SpecModel.fresh_input n s)) (snd (SpecModel.fresh_input n s))
       (SpecModel.node_hash b (fst (SpecModel.fresh_input n s))
          (snd (SpecModel.fresh_input n s)))).
Proof. repeat split. Qed.

Lemma recompute_lookup (b : bool) (s : SpecModel.Store) (c : list (name * SpecModel.Leaf))
    (m : name * bool) (n : name) :
  fst m <> n ->
  SpecModel.lookup n (SpecModel.recompute b s c m) = SpecModel.lookup n c.
Proof.
intros Hne. unfold SpecModel.recompute. rewrite lookup_cons.
apply Equal_false in Hne. now rewrite Hne.
Qed.

Lemma recompute_here (b : bool) (s : SpecModel.Store) (c : list (name * SpecModel.Leaf))
    (n : name) (required : bool) (l : SpecModel.Leaf) :
  SpecModel.lookup n (SpecModel.recompute b s c (n, required)) = Some l ->
  (required = true \/ SpecModel.lookup n c = None) /\
    l = SpecModel.mkLeaf (fst (SpecModel.fresh_input n s)) (snd (SpecModel.fresh_input n s))
          (SpecModel.node_hash b (fst (SpecModel.fresh_input n s))
             (snd (SpecModel.fresh_input n s))) \/
  exists l0, required = false /\ SpecModel.lookup n c = Some l0 /\
    l = SpecModel.mkLeaf (SpecModel.leaf_history l0) (SpecModel.leaf_height l0)
          (SpecModel.node_hash b (SpecModel.leaf_history l0) (SpecModel.leaf_height l0)).
Proof.
unfold SpecModel.recompute. rewrite lookup_cons. cbn [fst snd]. rewrite Equal_refl.
intros H. inversion H as [Hl]. clear H.
destruct required; [left; auto|].
destruct (SpecModel.lookup n c) as [l0|]; [right; exists l0; auto|left; auto].
Qed.

(** Recomputing any name leaves a good node good. *)
Lemma recompute_good (b : bool) (s : SpecModel.Store) (c : list (name * SpecModel.Leaf))
    (m : name * bool) (n : name) :
  (forall l, SpecModel.lookup n c = Some l -> good_leaf b s n l) ->
  forall l, SpecModel.lookup n (SpecModel.recompute b s c m) = Some l -> good_leaf b s n l.
Proof.
intros Hgood l Hl. destruct m as [k required].
destruct (list_eq_dec Byte.byte_eq_dec k n) as [->|Hne].
- apply recompute_here in Hl as [[_ ->]|(l0 & _ & Hl0 & ->)]; [apply fresh_good|].
  destruct (Hgood l0 Hl0) as (H1 & H2 & H3). repeat split; cbn; auto.
- rewrite recompute_lookup in Hl by assumption. auto.
Qed.

Lemma recompute_input_ok (b : bool) (s : SpecModel.Store)
    (c : list (name * SpecModel.Leaf)) (m : name * bool) (n : name) :
  (forall l, SpecModel.lookup n c = Some l -> input_ok s n l) ->
  forall l, SpecModel.lookup n (SpecModel.recompute b s c m) = Some l -> input_ok s n l.
Proof.
intros Hok l Hl. destruct m as [k required].
destruct (list_eq_dec Byte.byte_eq_dec k n) as [->|Hne].
- apply recompute_here in Hl as [[_ ->]|(l0 & _ & Hl0 & ->)];
    [apply (good_input_ok b), fresh_good|].
  destruct (Hok l0 Hl0) as (H1 & H2). split; cbn; auto.
- rewrite recompute_lookup in Hl by assumption. auto.
Qed.

(** Recomputing a name makes its node good when the input is reloaded or
    was good already. *)
Lemma recompute_marked (b : bool) (s : SpecModel.Store) (c : list (name * SpecModel.Leaf))
    (n : name) (required : bool) :
  required = true \/ (forall l, SpecModel.lookup n c = Some l -> input_ok s n l) ->
  forall l, SpecModel.lookup n (SpecModel.recompute b s c (n, required)) = Some l ->
            good_leaf b s n l.
Proof.
intros Hcase l Hl.
apply recompute_here in Hl as [[_ ->]|(l0 & Hreq & Hl0 & ->)]; [apply fresh_good|].
destruct Hcase as [->|Hok]; [discriminate|].
destruct (Hok l0 Hl0) as (H1 & H2). repeat split; cbn; auto.
Qed.

(** After the dirty names are recomputed, a node is good if it was, or if
    its input was reloaded, or if its input was good and it was marked. *)
Lemma recomputed_good (b : bool) (s : SpecModel.Store) (ms : list (name * bool)) :
  forall (c : list (name * SpecModel.Leaf)) (n : name),
  (forall l, SpecModel.lookup n c = Some l -> good_leaf b s n l) \/
  In (n, true) ms \/
  ((forall l, SpecModel.lookup n c = Some l -> input_ok s n l) /\ In (n, false) ms) ->
  forall l, SpecModel.lookup n (fold_left (SpecModel.recompute b s) ms c) = Some l ->
            good_leaf b s n l.
Proof.
induction ms as [|m ms IH]; intros c n Hcase; cbn [fold_left].
- destruct Hcase as [H|[[]|[_ []]]]. exact H.
- apply IH. destruct Hcase as [H|[[->|H]|[Hok [->|H]]]].
  + left. now apply recompute_good.
  + left. apply recompute_marked. now left.
  + right; left. exact H.
  + left. apply recompute_marked. now right.
  + right; right. split; [now apply recompute_input_ok|exact H].
Qed.

Lemma recomputed_cached (b : bool) (s : SpecModel.Store) (ms : list (name * bool)) :
  forall (c : list (name * SpecModel.Leaf)) (n : name),
  SpecModel.lookup n c <> None \/ (exists r, In (n, r) ms) ->
  SpecModel.lookup n (fold_left (SpecModel.recompute b s) ms c) <> None.
Proof.
induction ms as [|[k r] ms IH]; intros c n Hcase; cbn [fold_left].
- destruct Hcase as [H|[r []]]. exact H.
- apply IH. unfold SpecModel.recompute at 1. cbn [fst snd]. rewrite lookup_cons.
  destruct (bytes.Equal k n) eqn:E; [left; discriminate|].
  destruct Hcase as [H|[r' [H|H]]]; [now left| |right; eauto].
  inversion H; subst. rewrite Equal_refl in E. discriminate.
Qed.

End TrieFacts.

(** ** The root of a trie whose nodes are good *)

Section RootFacts.

Context {sem : SpecModel.NodeSemantics}.
Hypothesis laws : lawful.

(** The node hashes of a tree whose nodes are good are those of the
    log. *)
Lemma leaves_reference (b : bool) (s : SpecModel.Store)
    (c : list (name * SpecModel.Leaf)) :
  (forall n l, SpecModel.lookup n c = Some l -> good_leaf b s n l) ->
  (forall ch, In ch (SpecModel.log s) -> SpecModel.lookup (change.Name ch) c <> None) ->
  SpecModel.leaves c = reference_leaves b (SpecModel.nm_height s) (SpecModel.log s).
Proof.
intros Hgood Hcached. unfold SpecModel.leaves, reference_leaves.
set (g := fun n =>
            match SpecModel.node_hash b
                    (SpecModel.history n
                       (SpecModel.truncate (SpecModel.nm_height s) (SpecModel.log s)))
                    (SpecModel.nm_height s) with
            | Some h => [(n, h)]
            | None => []
            end).
rewrite (flat_map_ext_In _ g).
- apply flat_map_sorted_sub; try apply removeDuplicates_sorted.
  + intros n Hn. rewrite removeDuplicates_In in Hn. rewrite removeDuplicates_In.
    cbn [elems] in *. apply in_map_iff in Hn as (ch & <- & Hch).
    apply lookup_In. now apply Hcached.
  + intros n _ Hn. unfold g. rewrite history_none; [now rewrite (node_absent laws)|].
    intros Hin. apply Hn. rewrite removeDuplicates_In. cbn [elems].
    apply in_map_iff in Hin as (ch & <- & Hch). apply in_map. now apply truncate_In in Hch.
- intros n Hn. rewrite removeDuplicates_In in Hn. cbn [elems] in Hn.
  apply lookup_In in Hn. destruct (SpecModel.lookup n c) as [l|] eqn:Hl; [|congruence].
  destruct (Hgood n l Hl) as (_ & _ & H3). unfold g. rewrite H3. reflexivity.
Qed.

End RootFacts.

(** ** What the calls of [AppendBlock] do to the model *)

Section ModelFacts.

Context {sem : SpecModel.NodeSemantics} {param : Param}.

Lemma marked_marked (s : SpecModel.Store) (a b : list (name * bool)) :
  marked (marked s a) b = marked s (a ++ b).
Proof. unfold marked. cbn. now rewrite app_assoc. Qed.

Lemma marked_nil (s : SpecModel.Store) : marked s [] = s.
Proof. unfold marked. rewrite app_nil_r. now destruct s. Qed.

Lemma model_range_effect (l : list name) :
  forall s : SpecModel.Store,
  range_effect l s =
  (marked s (map (fun n => (n, true)) l),
   map (fun n => (n, SpecModel.next_of n s))
       (filter (fun n => negb (SpecModel.next_of n s <=? 0)) l)).
Proof.
induction l as [|n rest IH]; intros s.
- cbn. now rewrite marked_nil.
- cbn [range_effect]. cbn [merkleTrie_Update nodeManager_NextUpdateHeightOfNode
    SpecModel.merkleTrie SpecModel.nodeManager SpecModel.NextUpdateHeightOfNode fst snd].
  change (fst (SpecModel.Update n true s)) with (marked s [(n, true)]).
  rewrite IH, marked_marked. cbn [map filter snd app].
  change (SpecModel.next_of n (marked s [(n, true)])) with (SpecModel.next_of n s).
  destruct (SpecModel.next_of n s <=? 0); reflexivity.
Qed.

Lemma model_sweep_effect (l : list name) :
  forall s : SpecModel.Store,
  sweep_effect l s = marked s (map (fun n => (n, false)) l).
Proof.
induction l as [|n rest IH]; intros s.
- cbn. now rewrite marked_nil.
- unfold sweep_effect in *. cbn [fold_left map].
  change (fst (merkleTrie_Update n false s)) with (marked s [(n, false)]).
  rewrite IH, marked_marked. reflexivity.
Qed.

Lemma model_swept (h : Z) (s : SpecModel.Store) :
  swept h s =
  marked s (if h =? AllClaimsInMerkleForkHeight
            then map (fun n => (n, false)) (SpecModel.IterateNames s) else []).
Proof.
unfold swept. destruct (h =? AllClaimsInMerkleForkHeight).
- apply model_sweep_effect.
- now rewrite marked_nil.
Qed.

(** With a trie that is ready, returning the root and recomputing it are
    the same. *)
Lemma hash_with_rehash (b : bool) (s : SpecModel.Store) :
  SpecModel.rebuild s = false ->
  SpecModel.marks s <> [] \/ trie_ready s ->
  SpecModel.hash_with b s = SpecModel.rehash b s.
Proof.
intros Hr Hcase. unfold SpecModel.hash_with.
destruct (SpecModel.adopted s) as [r|] eqn:Ha; [|reflexivity].
rewrite Hr. destruct (SpecModel.marks s) as [|m ms] eqn:Hm; [|reflexivity].
destruct Hcase as [H|[_ [H|H]]]; [now contradiction H|congruence|].
unfold SpecModel.rehash, SpecModel.dirty. rewrite Hr, Hm. cbn [app fold_left].
rewrite Ha in H. inversion H as [Hroot]. rewrite <- Hroot.
destruct s. cbn in *. subst. reflexivity.
Qed.

Lemma model_hash_effect (h : Z) (s : SpecModel.Store) :
  hash_effect h s = SpecModel.hash_with (h >=? AllClaimsInMerkleForkHeight) s.
Proof.
unfold hash_effect. destruct (h >=? AllClaimsInMerkleForkHeight); reflexivity.
Qed.

Lemma recompute_ext (b : bool) (s1 s2 : SpecModel.Store) :
  SpecModel.log s1 = SpecModel.log s2 ->
  SpecModel.nm_height s1 = SpecModel.nm_height s2 ->
  forall (ms : list (name * bool)) (c : list (name * SpecModel.Leaf)),
  fold_left (SpecModel.recompute b s1) ms c = fold_left (SpecModel.recompute b s2) ms c.
Proof.
intros Hl Hh. induction ms as [|m ms IH]; intros c; [reflexivity|].
cbn [fold_left]. rewrite IH. f_equal.
unfold SpecModel.recompute, SpecModel.fresh_input. now rewrite Hl, Hh.
Qed.

End ModelFacts.

Section ModelBlock.

Context {sem : SpecModel.NodeSemantics} {param : Param}.

Lemma removeDuplicates_idem (a : slice name) :
  removeDuplicates (removeDuplicates a) = removeDuplicates a.
Proof.
apply removeDuplicates_ext. split.
- apply removeDuplicates_nil.
- intros n. apply removeDuplicates_In.
Qed.

(** The part of [AppendBlock] after the temporal batch. *)
Lemma model_tail_effect (h : Z) (all : slice name) (s : SpecModel.Store) :
  trie_ready s -> all <> None ->
  let b := h >=? AllClaimsInMerkleForkHeight in
  let ms := SpecModel.marks s
              ++ (if h =? AllClaimsInMerkleForkHeight
                  then map (fun n => (n, false)) (SpecModel.IterateNames s) else []) in
  let c := fold_left (SpecModel.recompute b s) ms (SpecModel.cache s) in
  let root := SpecModel.root_over (SpecModel.leaves c) in
  tail_effect h all s =
  SpecModel.mkStore
    (if SpecModel.blocks_down s then SpecModel.blocks s
     else (h, root) :: SpecModel.blocks s)
    (SpecModel.temporal s) (SpecModel.log s) (SpecModel.buffer s) (SpecModel.nm_height s)
    c
    (if h =? AllClaimsInMerkleForkHeight
     then map (fun n => (n, true)) (elems all) else [])
    false (Some root)
    (SpecModel.blocks_down s) (SpecModel.temporal_down s) (SpecModel.nodes_down s).
Proof.
intros [Hr Ha] Hall. cbv zeta. unfold tail_effect, persisted, block_root.
rewrite model_swept, model_hash_effect.
set (sw := if h =? AllClaimsInMerkleForkHeight
           then map (fun n => (n, false)) (SpecModel.IterateNames s) else []).
rewrite hash_with_rehash.
2:{ exact Hr. }
2:{ right. split; assumption. }
unfold SpecModel.rehash, SpecModel.dirty. cbn [SpecModel.rebuild marked]. rewrite Hr.
cbn [app fst snd SpecModel.marks SpecModel.cache SpecModel.blocks SpecModel.temporal
     SpecModel.log SpecModel.buffer SpecModel.nm_height SpecModel.blocks_down
     SpecModel.temporal_down SpecModel.nodes_down].
rewrite (recompute_ext _ (marked s sw) s eq_refl eq_refl).
cbn [blockRepo_Set SpecModel.blockRepo merkleTrie_SetRoot SpecModel.merkleTrie].
unfold SpecModel.Set_, SpecModel.SetRoot, marked.
cbn [SpecModel.marks SpecModel.cache SpecModel.blocks SpecModel.temporal
     SpecModel.log SpecModel.buffer SpecModel.nm_height SpecModel.blocks_down
     SpecModel.temporal_down SpecModel.nodes_down SpecModel.rebuild SpecModel.adopted].
destruct (SpecModel.blocks_down s) eqn:Hb;
  cbn [fst snd SpecModel.marks SpecModel.cache SpecModel.blocks SpecModel.temporal
       SpecModel.log SpecModel.buffer SpecModel.nm_height SpecModel.blocks_down
       SpecModel.temporal_down SpecModel.nodes_down SpecModel.rebuild SpecModel.adopted app];
  destruct (h =? AllClaimsInMerkleForkHeight);
  cbn [fst snd SpecModel.marks SpecModel.cache SpecModel.blocks SpecModel.temporal
       SpecModel.log SpecModel.buffer SpecModel.nm_height SpecModel.blocks_down
       SpecModel.temporal_down SpecModel.nodes_down SpecModel.rebuild SpecModel.adopted app];
  try reflexivity; destruct all; first [reflexivity|now contradiction Hall].
Qed.

Lemma model_all_some (h : Z) (s : SpecModel.Store) : model_all h s <> None.
Proof.
unfold model_all, all_names. rewrite removeDuplicates_nil.
cbn [removeDuplicates]. unfold append.
destruct (elems (SpecModel.nodes_at h (SpecModel.temporal s))); discriminate.
Qed.

(** [AppendBlock] over working node and temporal repos. *)
Lemma model_AppendBlock (ct : ClaimTrie SpecModel.Store) :
  SpecModel.nodes_down (heap ct) = false ->
  SpecModel.temporal_down (heap ct) = false ->
  trie_ready (heap ct) ->
  fst (AppendBlock ct) = None /\
  heap (snd (AppendBlock ct)) = model_appended (wrap32 (height ct + 1)) (heap ct) /\
  height (snd (AppendBlock ct)) = wrap32 (height ct + 1).
Proof.
intros Hn Ht Hready.
set (h := wrap32 (height ct + 1)). set (s := heap ct) in *.
assert (nodeManager_IncrementHeightTo h s =
        (SpecModel.advance h s, Ok (model_touched h s))) as Hinc.
{ cbn [nodeManager_IncrementHeightTo SpecModel.nodeManager].
  unfold SpecModel.IncrementHeightTo. now rewrite Hn. }
assert (temporalRepo_NodesAt h (SpecModel.advance h s) =
        Ok (SpecModel.nodes_at h (SpecModel.temporal s))) as Hat.
{ cbn [temporalRepo_NodesAt SpecModel.temporalRepo].
  unfold SpecModel.NodesAt, SpecModel.advance.
  cbn [SpecModel.temporal_down SpecModel.temporal]. now rewrite Ht. }
rewrite (AppendBlock_after_reads ct _ _ _ Hinc Hat). cbv zeta.
assert (all_names (model_touched h s) (SpecModel.nodes_at h (SpecModel.temporal s))
        = model_all h s) as Hall.
{ unfold model_all, model_touched, all_names. now rewrite removeDuplicates_idem. }
rewrite Hall, model_range_effect. cbn [fst snd].
change (touched_names (model_touched h s)) with (removeDuplicates (model_touched h s)).
assert (removeDuplicates (model_touched h s) = model_touched h s) as Hidem
  by apply removeDuplicates_idem.
rewrite Hidem. fold (model_schedule h s).
cbn [temporalRepo_SetNodesAt SpecModel.temporalRepo]. unfold SpecModel.SetNodesAt.
cbn [marked SpecModel.temporal_down SpecModel.advance]. rewrite Ht.
cbn [fst snd heap height]. split; [reflexivity|]. split; [|reflexivity].
rewrite model_tail_effect.
2:{ destruct Hready as [Hr Ha]. split; assumption. }
2:{ apply model_all_some. }
cbv zeta. unfold SpecModel.IterateNames, marked, SpecModel.advance.
cbn [SpecModel.marks SpecModel.cache SpecModel.blocks SpecModel.temporal
     SpecModel.log SpecModel.buffer SpecModel.nm_height SpecModel.blocks_down
     SpecModel.temporal_down SpecModel.nodes_down SpecModel.rebuild SpecModel.adopted].
fold h.
unfold model_appended, model_root, model_cache, model_marks.
rewrite <- !app_assoc.
match goal with
| |- context [fold_left (SpecModel.recompute ?b ?s1) ?ms ?c] =>
    rewrite (recompute_ext b s1 (SpecModel.advance h s) eq_refl eq_refl ms c)
end.
rewrite Ht. reflexivity.
Qed.

End ModelBlock.

(** ** Consistency of the trie with the node manager *)

Lemma distinct_In (n : name) (l : list name) : In n (SpecModel.distinct l) <-> In n l.
Proof.
induction l as [|x t IH]; cbn [SpecModel.distinct In]; [tauto|].
rewrite filter_In, IH. split.
- intros [H|[H _]]; auto.
- intros [H|H]; [now left|].
  destruct (bytes.Equal x n) eqn:E.
  + apply Equal_true in E. now left.
  + right. split; [assumption|]. reflexivity.
Qed.

Section Consistency.

Context {sem : SpecModel.NodeSemantics} {param : Param}.
Hypothesis laws : lawful.

Lemma good_leaf_ext (b : bool) (s1 s2 : SpecModel.Store) (n : name) (l : SpecModel.Leaf) :
  SpecModel.log s1 = SpecModel.log s2 ->
  SpecModel.nm_height s1 = SpecModel.nm_height s2 ->
  good_leaf b s1 n l -> good_leaf b s2 n l.
Proof.
intros Hl Hh. unfold good_leaf, node_history. now rewrite Hl, Hh.
Qed.

(** The nodes after a recomputation are good, and their root is the root
    of the log, when every node was good, or marked for a fresh input, or
    marked with an input as good as the present one. *)
Lemma recomputed_consistent (b : bool) (s : SpecModel.Store) (ms : list (name * bool))
    (c : list (name * SpecModel.Leaf)) :
  (forall n,
     (forall l, SpecModel.lookup n c = Some l -> good_leaf b s n l) \/
     In (n, true) ms \/
     ((forall l, SpecModel.lookup n c = Some l -> input_ok s n l) /\ In (n, false) ms)) ->
  (forall ch, In ch (SpecModel.log s) ->
     SpecModel.lookup (change.Name ch) c <> None \/ exists r, In (change.Name ch, r) ms) ->
  let c' := fold_left (SpecModel.recompute b s) ms c in
  (forall n l, SpecModel.lookup n c' = Some l -> good_leaf b s n l) /\
  (forall ch, In ch (SpecModel.log s) -> SpecModel.lookup (change.Name ch) c' <> None) /\
  SpecModel.leaves c' = reference_leaves b (SpecModel.nm_height s) (SpecModel.log s).
Proof.
intros Hcase Hcached c'.
assert (forall n l, SpecModel.lookup n c' = Some l -> good_leaf b s n l) as Hgood.
{ intros n l. apply recomputed_good. apply Hcase. }
assert (forall ch, In ch (SpecModel.log s) -> SpecModel.lookup (change.Name ch) c' <> None)
  as Hall.
{ intros ch Hch. apply recomputed_cached. now apply Hcached. }
split; [exact Hgood|]. split; [exact Hall|].
now apply leaves_reference.
Qed.

(** A consistent trie is ready. *)
Lemma consistent_ready (s : SpecModel.Store) : consistent s -> trie_ready s.
Proof.
intros (_ & _ & Hr & Hgood & Hcached & Ha). split; [exact Hr|].
destruct Ha as [Ha|Ha]; [now left|right].
rewrite Ha. unfold reference_root.
now rewrite <- (leaves_reference laws _ s (SpecModel.cache s) Hgood Hcached).
Qed.

(** The history of a name that is not touched by a block is the same
    after it. *)
Lemma untouched_history (h : Z) (s : SpecModel.Store) (n : name) :
  Forall (fun c => change.Height c <= SpecModel.nm_height s) (SpecModel.log s) ->
  Forall (fun c => change.Height c <= h) (SpecModel.buffer s) ->
  SpecModel.nm_height s <= h ->
  ~ In n (map change.Name (SpecModel.buffer s)) ->
  node_history n (SpecModel.advance h s) = node_history n s.
Proof.
intros Hlog Hbuf Hle Hn. unfold node_history, SpecModel.advance.
cbn [SpecModel.log SpecModel.nm_height].
rewrite !truncate_all; try assumption.
- rewrite history_app, (history_none n (SpecModel.buffer s)) by assumption.
  apply app_nil_r.
- apply Forall_app. split; [|assumption].
  eapply Forall_impl; [|exact Hlog]. cbv beta. intros c Hc. lia.
Qed.

(** A node that is not touched by the next block hashes the same at the
    next height. *)
Lemma untouched_hash (s : SpecModel.Store) (n : name) (b : bool) :
  0 <= SpecModel.nm_height s ->
  ~ In n (SpecModel.due (SpecModel.nm_height s + 1) s) ->
  SpecModel.node_hash b (node_history n s) (SpecModel.nm_height s + 1)
  = SpecModel.node_hash b (node_history n s) (SpecModel.nm_height s).
Proof.
intros Hpos Hn.
destruct (in_dec (list_eq_dec Byte.byte_eq_dec) n (map change.Name (SpecModel.log s)))
  as [Hin|Hout].
- apply (quiet_step laws); [assumption|]. intros Hdue. apply Hn.
  unfold SpecModel.due. apply filter_In. split; [now apply distinct_In|].
  unfold SpecModel.next_of. fold (node_history n s).
  apply andb_true_iff. split; [apply Z.ltb_lt|apply Z.leb_le]; lia.
- unfold node_history. rewrite history_none.
  + now rewrite !(node_absent laws).
  + intros Hin. apply Hout. apply in_map_iff in Hin as (ch & <- & Hch).
    apply in_map. now apply truncate_In in Hch.
Qed.

Lemma model_all_In (h : Z) (s : SpecModel.Store) (n : name) :
  In n (elems (model_all h s)) <->
  In n (SpecModel.touched h s) \/ In n (SpecModel.names_at h (SpecModel.temporal s)).
Proof.
unfold model_all. rewrite all_names_In. cbn [elems]. unfold SpecModel.nodes_at.
destruct (SpecModel.names_at h (SpecModel.temporal s)); cbn [elems In]; tauto.
Qed.

(** The block appended to a consistent trie leaves a consistent trie,
    whose root is the root of the log with the changes of the block. *)
Lemma appended_consistent (s : SpecModel.Store) :
  consistent s ->
  let h := SpecModel.nm_height s + 1 in
  Forall (fun c => change.Height c <= h) (SpecModel.buffer s) ->
  consistent (model_appended h s) /\
  model_root h s = reference_root h (SpecModel.log s ++ SpecModel.buffer s).
Proof.
intros (Hpos & Hlog & Hr & Hgood & Hcached & Ha) h Hbuf.
set (b := SpecModel.nm_height s >=? AllClaimsInMerkleForkHeight) in *.
set (b' := h >=? AllClaimsInMerkleForkHeight).
destruct (recomputed_consistent b' (SpecModel.advance h s) (model_marks h s)
            (SpecModel.cache s)) as (Hgood' & Hcached' & Hleaves).
- intros n.
  destruct (in_dec (list_eq_dec Byte.byte_eq_dec) n (elems (model_all h s))) as [Hin|Hout].
  { right; left. unfold model_marks. apply in_or_app; right. apply in_or_app; left.
    apply in_map_iff. now exists n. }
  assert (~ In n (map change.Name (SpecModel.buffer s))) as Hnb.
  { intros Hc. apply Hout. apply model_all_In. left. unfold SpecModel.touched.
    apply in_or_app. now left. }
  assert (~ In n (SpecModel.due h s)) as Hnd.
  { intros Hc. apply Hout. apply model_all_In. left. unfold SpecModel.touched.
    apply in_or_app. now right. }
  assert (node_history n (SpecModel.advance h s) = node_history n s) as Hhist
    by (apply untouched_history; try assumption; unfold h; lia).
  assert (forall l, SpecModel.lookup n (SpecModel.cache s) = Some l ->
                    input_ok (SpecModel.advance h s) n l) as Hinput.
  { intros l Hl. destruct (Hgood n l Hl) as (H1 & H2 & _). split.
    - now rewrite Hhist.
    - intros b0. rewrite Hhist, H2. cbn [SpecModel.advance SpecModel.nm_height].
      symmetry. now apply untouched_hash. }
  destruct (in_dec (list_eq_dec Byte.byte_eq_dec) n (map change.Name (SpecModel.log s)))
    as [Hlogged|Hnew].
  + destruct (h =? AllClaimsInMerkleForkHeight) eqn:Hfork.
    * right; right. split; [exact Hinput|].
      unfold model_marks. rewrite Hfork. apply in_or_app; right. apply in_or_app; right.
      apply in_map_iff. exists n. split; [reflexivity|]. apply distinct_In.
      rewrite map_app. apply in_or_app. now left.
    * left. intros l Hl. destruct (Hinput l Hl) as [H1 H2].
      destruct (Hgood n l Hl) as (_ & _ & H3). split; [exact H1|]. split; [exact H2|].
      rewrite H3, Hhist. cbn [SpecModel.advance SpecModel.nm_height].
      replace b' with b.
      -- symmetry. now apply untouched_hash.
      -- unfold b, b'. apply Z.eqb_neq in Hfork. unfold h in *.
         destruct (SpecModel.nm_height s >=? AllClaimsInMerkleForkHeight) eqn:E1,
                  (SpecModel.nm_height s + 1 >=? AllClaimsInMerkleForkHeight) eqn:E2;
           try reflexivity; rewrite ?Z.geb_leb in *;
           rewrite ?Z.leb_le, ?Z.leb_gt in *; lia.
  + left. intros l Hl. destruct (Hinput l Hl) as [H1 H2].
    destruct (Hgood n l Hl) as (_ & _ & H3). split; [exact H1|]. split; [exact H2|].
    rewrite H3, Hhist. unfold node_history. rewrite history_none.
    * now rewrite !(node_absent laws).
    * intros Hin. apply Hnew. apply in_map_iff in Hin as (ch & <- & Hch).
      apply in_map. now apply truncate_In in Hch.
- intros ch Hch. cbn [SpecModel.advance SpecModel.log] in Hch.
  apply in_app_or in Hch as [Hch|Hch].
  + left. now apply Hcached.
  + right. exists true. unfold model_marks. apply in_or_app; right. apply in_or_app; left.
    apply in_map_iff. exists (change.Name ch). split; [reflexivity|].
    apply model_all_In. left. unfold SpecModel.touched. apply in_or_app. left.
    now apply in_map.
- assert (model_root h s = reference_root h (SpecModel.log s ++ SpecModel.buffer s))
    as Hroot.
  { unfold model_root, reference_root. fold b'. unfold model_cache. fold b'.
    rewrite Hleaves. reflexivity. }
  split; [|exact Hroot].
  unfold consistent, model_appended.
  cbn [SpecModel.nm_height SpecModel.log SpecModel.rebuild SpecModel.cache SpecModel.adopted].
  split; [unfold h; lia|]. split.
  { apply Forall_app. split; [|assumption].
    eapply Forall_impl; [|exact Hlog]. cbv beta. unfold h. intros c Hc. lia. }
  split; [reflexivity|]. fold b'. split.
  { intros n l Hl. apply (good_leaf_ext b' (SpecModel.advance h s)); try reflexivity.
    now apply Hgood'. }
  split.
  { intros ch Hch. now apply Hcached'. }
  right. now rewrite Hroot.
Qed.

End Consistency.

(** ** Runs on the model *)

Section ModelRuns.

Context {sem : SpecModel.NodeSemantics} {param : Param}.
Hypothesis laws : lawful.

(** [MerkleHash] on a consistent trie returns the root of the log and
    leaves a consistent trie. *)
Lemma consistent_hash (s : SpecModel.Store) :
  consistent s ->
  let b := SpecModel.nm_height s >=? AllClaimsInMerkleForkHeight in
  snd (SpecModel.hash_with b s) = reference_root (SpecModel.nm_height s) (SpecModel.log s) /\
  consistent (fst (SpecModel.hash_with b s)) /\
  SpecModel.blocks (fst (SpecModel.hash_with b s)) = SpecModel.blocks s /\
  SpecModel.temporal (fst (SpecModel.hash_with b s)) = SpecModel.temporal s /\
  SpecModel.log (fst (SpecModel.hash_with b s)) = SpecModel.log s /\
  SpecModel.buffer (fst (SpecModel.hash_with b s)) = SpecModel.buffer s /\
  SpecModel.nm_height (fst (SpecModel.hash_with b s)) = SpecModel.nm_height s /\
  SpecModel.blocks_down (fst (SpecModel.hash_with b s)) = SpecModel.blocks_down s /\
  SpecModel.temporal_down (fst (SpecModel.hash_with b s)) = SpecModel.temporal_down s /\
  SpecModel.nodes_down (fst (SpecModel.hash_with b s)) = SpecModel.nodes_down s.
Proof.
intros Hc b. pose proof (consistent_ready laws s Hc) as Hready.
destruct Hc as (Hpos & Hlog & Hr & Hgood & Hcached & Ha).
rewrite hash_with_rehash by (try assumption; now right).
unfold SpecModel.rehash, SpecModel.dirty. rewrite Hr. cbn [app fst snd].
destruct (recomputed_consistent laws b s (SpecModel.marks s) (SpecModel.cache s))
  as (Hgood' & Hcached' & Hleaves).
- intros n. left. intros l Hl. now apply Hgood.
- intros ch Hch. left. now apply Hcached.
- unfold reference_root. fold b. rewrite Hleaves.
  split; [reflexivity|]. split; [|repeat split].
  unfold consistent.
  cbn [SpecModel.nm_height SpecModel.log SpecModel.rebuild SpecModel.cache SpecModel.adopted].
  fold b. split; [assumption|]. split; [assumption|]. split; [reflexivity|].
  split; [|split; [assumption|]].
  + intros n l Hl. eapply good_leaf_ext; [| |now apply (Hgood' n l Hl)]; reflexivity.
  + right. reflexivity.
Qed.

Lemma buffered_nil (s : SpecModel.Store) : buffered s [] = s.
Proof. unfold buffered. rewrite app_nil_r. now destruct s. Qed.

Lemma buffered_app (s : SpecModel.Store) (a b : list change.Change) :
  buffered (buffered s a) b = buffered s (a ++ b).
Proof. unfold buffered. cbn. now rewrite app_assoc. Qed.

Lemma model_submit (o : Op) (ct : ClaimTrie SpecModel.Store) :
  is_block o = false ->
  SpecModel.nodes_down (heap ct) = false ->
  fst (submit o ct) = None /\
  heap (snd (submit o ct)) = buffered (heap ct) (change_of (height ct) o) /\
  height (snd (submit o ct)) = height ct.
Proof.
intros Hb Hn.
destruct o; try discriminate; cbn [submit change_of];
  unfold AddClaim, UpdateClaim, SpendClaim, AddSupport, SpendSupport;
  (split; [|rewrite forwardNodeChange_eq; cbn [heap height];
    cbn [nodeManager_AppendChange SpecModel.nodeManager]; unfold SpecModel.AppendChange;
    rewrite Hn; unfold buffered, change.with_Height;
    cbn [fst change.Type_ change.Name change.ClaimID_ change.OutPoint change.Amount];
    rewrite Hn; split; reflexivity]);
  unfold forwardNodeChange, bind, Height, call, ret;
  cbn [nodeManager_AppendChange SpecModel.nodeManager]; unfold SpecModel.AppendChange;
  cbn [heap]; rewrite Hn; reflexivity.
Qed.

Lemma model_run_submissions (subs : list Op) :
  forall ct : ClaimTrie SpecModel.Store,
  Forall (fun o => is_block o = false) subs ->
  SpecModel.nodes_down (heap ct) = false ->
  heap (snd (run subs ct)) = buffered (heap ct) (flat_map (change_of (height ct)) subs) /\
  height (snd (run subs ct)) = height ct.
Proof.
induction subs as [|o rest IH]; intros ct Hsubs Hn; cbn [run flat_map].
- now rewrite buffered_nil.
- inversion Hsubs as [|? ? Ho Hrest]; subst.
  destruct (model_submit o ct Ho Hn) as (_ & Hheap & Hht).
  destruct (submit o ct) as [err ct1]. cbn [snd] in *. rewrite Ho.
  specialize (IH ct1 Hrest).
  destruct (run rest ct1) as [seen ct2]. cbn [snd] in *.
  rewrite Hheap in IH. cbn [buffered SpecModel.nodes_down] in IH.
  destruct (IH Hn) as [H1 H2]. rewrite H1, H2, Hht.
  split; [|reflexivity]. apply buffered_app.
Qed.

Lemma change_of_Height (h : Z) (o : Op) :
  Forall (fun c => change.Height c = wrap32 (h + 1)) (change_of h o).
Proof. destruct o; cbn [change_of]; repeat constructor. Qed.

Lemma changes_of_Height (h : Z) (subs : list Op) :
  Forall (fun c => change.Height c = wrap32 (h + 1)) (flat_map (change_of h) subs).
Proof.
induction subs as [|o rest IH]; cbn [flat_map]; [constructor|].
apply Forall_app. split; [apply change_of_Height|assumption].
Qed.

(** What one block does on a consistent trie. *)
Lemma model_block (ct : ClaimTrie SpecModel.Store) :
  consistent (heap ct) ->
  SpecModel.nm_height (heap ct) = height ct ->
  SpecModel.nodes_down (heap ct) = false ->
  SpecModel.temporal_down (heap ct) = false ->
  Forall (fun c => change.Height c = wrap32 (height ct + 1)) (SpecModel.buffer (heap ct)) ->
  height ct < MaxInt32 ->
  fst (AppendBlock ct) = None /\
  heap (snd (AppendBlock ct)) = model_appended (height ct + 1) (heap ct) /\
  height (snd (AppendBlock ct)) = height ct + 1 /\
  consistent (model_appended (height ct + 1) (heap ct)) /\
  model_root (height ct + 1) (heap ct)
  = reference_root (height ct + 1) (SpecModel.log (heap ct) ++ SpecModel.buffer (heap ct)).
Proof.
intros Hc Hnm Hn Ht Hbuf Hlt.
assert (0 <= height ct) as Hpos by (rewrite <- Hnm; apply Hc).
assert (wrap32 (height ct + 1) = height ct + 1) as Hw
  by (apply wrap32_in_range; unfold int32, MinInt32, MaxInt32 in *; lia).
destruct (model_AppendBlock ct Hn Ht (consistent_ready laws _ Hc)) as (Hok & Hheap & Hht).
rewrite Hw in *. split; [exact Hok|]. split; [exact Hheap|]. split; [exact Hht|].
rewrite <- Hnm. apply (appended_consistent laws (heap ct) Hc).
eapply Forall_impl; [|exact Hbuf]. cbv beta. intros c Hch. rewrite Hch, Hnm. lia.
Qed.

(** A run from a consistent trie shows the roots of the specification. *)
Lemma run_reference (ops : list Op) :
  forall ct : ClaimTrie SpecModel.Store,
  consistent (heap ct) ->
  SpecModel.nm_height (heap ct) = height ct ->
  SpecModel.nodes_down (heap ct) = false ->
  SpecModel.temporal_down (heap ct) = false ->
  Forall (fun c => change.Height c = wrap32 (height ct + 1)) (SpecModel.buffer (heap ct)) ->
  height ct + Z.of_nat (blocks_in ops) <= MaxInt32 ->
  fst (run ops ct)
  = reference ops (height ct) (SpecModel.log (heap ct) ++ SpecModel.buffer (heap ct)).
Proof.
induction ops as [|o rest IH]; intros ct Hc Hnm Hn Ht Hbuf Hmax; [reflexivity|].
cbn [run reference]. destruct (is_block o) eqn:Hb.
- assert (o = OpAppendBlock) as -> by (destruct o; try discriminate; reflexivity).
  cbn [submit]. unfold blocks_in in Hmax. cbn [filter is_block length] in Hmax.
  fold (blocks_in rest) in Hmax.
  destruct (model_block ct Hc Hnm Hn Ht Hbuf ltac:(lia)) as (Hok & Hheap & Hht & Hc1 & Hroot).
  destruct (AppendBlock ct) as [err ct1]. cbn [fst snd] in *. subst err.
  rewrite MerkleHash_eq. rewrite Hheap, Hht, model_hash_effect.
  pose proof (consistent_hash _ Hc1) as Hh. cbv zeta in Hh.
  change (SpecModel.nm_height (model_appended (height ct + 1) (heap ct)))
    with (height ct + 1) in Hh.
  change (SpecModel.log (model_appended (height ct + 1) (heap ct)))
    with (SpecModel.log (heap ct) ++ SpecModel.buffer (heap ct)) in Hh.
  destruct Hh as (Hr & Hc2 & _ & _ & Hlog2 & Hbuf2 & Hnm2 & _ & Ht2 & Hn2).
  set (hashed := SpecModel.hash_with (height ct + 1 >=? AllClaimsInMerkleForkHeight)
                   (model_appended (height ct + 1) (heap ct))) in *.
  match goal with
  | |- context [run rest ?c] => specialize (IH c)
  end.
  cbn [heap height] in IH.
  destruct (run rest _) as [seen ct3]. cbn [fst snd height] in *.
  rewrite Hr, IH; try assumption; try lia.
  + rewrite Hlog2, Hbuf2. cbn [model_appended SpecModel.buffer]. now rewrite app_nil_r.
  + rewrite Hn2. exact Hn.
  + rewrite Ht2. exact Ht.
  + rewrite Hbuf2. constructor.
- destruct (model_submit o ct Hb Hn) as (Hok & Hheap & Hht).
  destruct (submit o ct) as [err ct1]. cbn [fst snd] in *. subst err.
  specialize (IH ct1). destruct (run rest ct1) as [seen ct3]. cbn [fst snd] in *.
  rewrite IH.
  + rewrite Hheap, Hht. unfold buffered. cbn [SpecModel.log SpecModel.buffer].
    now rewrite app_assoc.
  + rewrite Hheap. destruct Hc as (H1 & H2 & H3 & H4 & H5 & H6).
    unfold consistent, buffered. cbn [SpecModel.nm_height SpecModel.log SpecModel.rebuild
      SpecModel.cache SpecModel.adopted].
    split; [assumption|]. split; [assumption|]. split; [assumption|].
    split; [|split; assumption].
    intros n l Hl. eapply good_leaf_ext; [| |exact (H4 n l Hl)]; reflexivity.
  + rewrite Hheap, Hht. exact Hnm.
  + rewrite Hheap. exact Hn.
  + rewrite Hheap. exact Ht.
  + rewrite Hheap, Hht. unfold buffered. cbn [SpecModel.buffer].
    apply Forall_app. split; [assumption|apply change_of_Height].
  + rewrite Hht. unfold blocks_in in *. cbn [filter] in Hmax. now rewrite Hb in Hmax.
Qed.

End ModelRuns.

(** ** The expiring node semantics is lawful *)

Lemma fold_min_le (l : list Z) :
  forall a x, In x (a :: l) -> fold_left Z.min l a <= x.
Proof.
induction l as [|y l IH]; intros a x Hx; cbn [fold_left].
- destruct Hx as [<-|[]]. lia.
- destruct Hx as [<-|[<-|Hx]].
  + assert (fold_left Z.min l (Z.min a y) <= Z.min a y) by (apply IH; now left). lia.
  + assert (fold_left Z.min l (Z.min a y) <= Z.min a y) by (apply IH; now left). lia.
  + apply IH. now right.
Qed.

Lemma fold_min_In (l : list Z) : forall a, In (fold_left Z.min l a) (a :: l).
Proof.
induction l as [|y l IH]; intros a; cbn [fold_left]; [now left|].
destruct (IH (Z.min a y)) as [H|H].
- rewrite <- H. destruct (Z.min_spec a y) as [[_ E]|[_ E]]; rewrite E; cbn [In]; auto.
- right. now right.
Qed.

Lemma expiring_lawful (expiration : Z) : @lawful (SpecModel.expiring expiration).
Proof.
constructor.
- intros hist H allClaims Hpos Hquiet.
  cbn [SpecModel.node_hash SpecModel.next_update_height SpecModel.expiring] in *.
  assert (SpecModel.alive expiration (H + 1) (SpecModel.entries hist)
          = SpecModel.alive expiration H (SpecModel.entries hist)) as ->; [|reflexivity].
  unfold SpecModel.alive in *.
  set (es := SpecModel.entries hist) in *.
  destruct (filter (fun e => H <? SpecModel.e_accepted e + expiration) es) as [|e0 rest] eqn:E.
  + assert (forall e, In e es -> (H <? SpecModel.e_accepted e + expiration) = false) as Hall.
    { intros e He. destruct (H <? SpecModel.e_accepted e + expiration) eqn:Ee; [|reflexivity].
      assert (In e []) as Hin by (rewrite <- E; apply filter_In; auto). contradiction. }
    apply filter_none. apply Forall_forall. intros e He.
    specialize (Hall e He). apply Z.ltb_ge in Hall. apply Z.ltb_ge. lia.
  + rewrite <- E. apply filter_ext_in. intros e He.
    destruct (H <? SpecModel.e_accepted e + expiration) eqn:Ee.
    * apply Z.ltb_lt. apply Z.ltb_lt in Ee.
      assert (In e (e0 :: rest)) as Hin by (rewrite <- E; apply filter_In; split;
        [assumption|now apply Z.ltb_lt]).
      cbn [map SpecModel.earliest] in Hquiet.
      set (f := fun x : SpecModel.Entry => SpecModel.e_accepted x + expiration) in *.
      set (m := fold_left Z.min (map f rest) (f e0)) in *.
      assert (m <= f e) as Hle.
      { apply fold_min_le. change (In (f e) (map f (e0 :: rest))). now apply in_map. }
      assert (H < m) as Hm.
      { pose proof (fold_min_In (map f rest) (f e0)) as Hin'.
        fold m in Hin'. change (In m (map f (e0 :: rest))) in Hin'.
        apply in_map_iff in Hin' as (e1 & <- & He1). rewrite <- E in He1.
        apply filter_In in He1 as [_ He1]. now apply Z.ltb_lt in He1. }
      unfold f in *.
      lia.
    * apply Z.ltb_ge. apply Z.ltb_ge in Ee. lia.
- intros allClaims H. reflexivity.
Qed.

(** ** Determinism *)

Lemma same_elems_refl (a : slice name) : same_elems a a.
Proof. intros n. reflexivity. Qed.

Lemma sorted_unsorted_simulation {sem : SpecModel.NodeSemantics} :
  @simulation SpecModel.Store SpecModel.Store
    SpecModel.blockRepo SpecModel.temporalRepo SpecModel.nodeManager SpecModel.merkleTrie
    SpecModel.blockRepo SpecModel.temporalRepo SpecModel.nodeManager_unsorted
    SpecModel.merkleTrie eq.
Proof.
constructor; intros; subst; try reflexivity; try (split; reflexivity).
- unfold related.
  cbn [nodeManager_IncrementHeightTo SpecModel.nodeManager SpecModel.nodeManager_unsorted].
  unfold SpecModel.IncrementHeightTo, SpecModel.IncrementHeightTo_unsorted.
  destruct (SpecModel.nodes_down s2); cbn [fst snd same_result]; split; try reflexivity.
  split.
  + split; discriminate.
  + intros n. apply (removeDuplicates_In (Some (SpecModel.touched h s2))).
- destruct (temporalRepo_NodesAt h s2); cbn [same_result];
    [apply same_elems_refl|reflexivity].
Qed.

Section Determinism.

Context {sem : SpecModel.NodeSemantics} {param : Param}.

Lemma empty_consistent : consistent SpecModel.empty.
Proof.
unfold consistent, SpecModel.empty. cbn. split; [lia|]. split; [constructor|].
split; [reflexivity|]. split; [intros n l H; discriminate|].
split; [intros c []|now left].
Qed.

(** C1. On the collaborators of the specification (below the
    normalization fork, with a node semantics that keeps the promise of
    [next_update_height]): two fresh instances -- opened by [New] on empty
    stores, with either kind of trie, the node manager of the second
    reporting the touched names as they come, unsorted and repeated -- that
    are fed the same sequence of submissions and [AppendBlock] calls (the
    heights staying below the int32 limit) show the same errors, heights
    and [MerkleHash] roots: no error, the next height after every block, and
    there the root the specification defines as a function of the changes
    submitted so far, the height and the fork height. *)
Theorem roots_deterministic (ops : list Op) (RamTrie1 RamTrie2 : bool) :
  lawful ->
  Z.of_nat (blocks_in ops) <= MaxInt32 ->
  let first := New RamTrie1 SpecModel.empty in
  let second :=
    @New SpecModel.Store param SpecModel.blockRepo SpecModel.temporalRepo
      SpecModel.nodeManager_unsorted SpecModel.merkleTrie RamTrie2 SpecModel.empty in
  fst first = None /\ fst second = None /\
  fst (run ops (snd first))
  = fst (@run SpecModel.Store param SpecModel.blockRepo SpecModel.temporalRepo
           SpecModel.nodeManager_unsorted SpecModel.merkleTrie ops (snd second)) /\
  fst (run ops (snd first)) = reference ops 0 [].
Proof.
intros laws Hmax first second.
split; [reflexivity|]. split; [reflexivity|].
assert (forall r, fst (run ops (snd (New r SpecModel.empty))) = reference ops 0 []) as Hrun.
{ intros r.
  change (New r SpecModel.empty)
    with (@None error, mkClaimTrie SpecModel.empty 0 (registered r) [CallLoad]).
  cbn [snd].
  apply (run_reference laws ops (mkClaimTrie SpecModel.empty 0 (registered r) [CallLoad]));
    cbn [heap height]; try reflexivity.
  - apply empty_consistent.
  - constructor.
  - lia. }
split; [|apply Hrun].
unfold first. rewrite (Hrun RamTrie1), <- (Hrun RamTrie2).
apply (@runs_agree SpecModel.Store SpecModel.Store param
         SpecModel.blockRepo SpecModel.temporalRepo SpecModel.nodeManager
         SpecModel.merkleTrie
         SpecModel.blockRepo SpecModel.temporalRepo SpecModel.nodeManager_unsorted
         SpecModel.merkleTrie eq sorted_unsorted_simulation ops); reflexivity.
Qed.

End Determinism.

(** ** The temporal index of the model *)

Lemma has_pair_In (p : Z * name) (t : list (Z * name)) :
  SpecModel.has_pair p t = true <-> In p t.
Proof.
unfold SpecModel.has_pair. rewrite existsb_exists. split.
- intros ([k m] & Hin & Heq). apply andb_true_iff in Heq as [Hk Hm].
  apply Z.eqb_eq in Hk. apply Equal_true in Hm. destruct p as [k' m'].
  cbn [fst snd] in *. now subst.
- intros Hin. exists p. split; [assumption|].
  rewrite Z.eqb_refl, Equal_refl. reflexivity.
Qed.

Lemma add_pairs_In (ps t : list (Z * name)) (q : Z * name) :
  In q (fold_left SpecModel.add_pair ps t) <-> In q t \/ In q ps.
Proof.
revert t; induction ps as [|p ps IH]; intros t; cbn [fold_left In]; [tauto|].
rewrite IH. unfold SpecModel.add_pair.
destruct (SpecModel.has_pair p t) eqn:E.
- apply has_pair_In in E. split; [tauto|]. intros [H|[H|H]]; subst; auto.
- rewrite in_app_iff. cbn [In]. tauto.
Qed.

Lemma names_at_In (h : Z) (n : name) (t : list (Z * name)) :
  In n (SpecModel.names_at h t) <-> In (h, n) t.
Proof.
unfold SpecModel.names_at. rewrite in_map_iff. split.
- intros ([k m] & Hm & Hin). apply filter_In in Hin as [Hin Hk].
  cbn [fst snd] in *. apply Z.eqb_eq in Hk. now subst.
- intros Hin. exists (h, n). split; [reflexivity|].
  apply filter_In. split; [assumption|]. apply Z.eqb_refl.
Qed.

Lemma combine_batch_In (h : Z) (tn : slice name) (sch : list (name * Z))
    (k : Z) (n : name) :
  In (k, n) (combine (batch_heights h tn sch) (batch_names tn sch)) <->
  (k = h /\ In n (elems tn)) \/ In (n, k) sch.
Proof.
unfold batch_heights, batch_names.
induction (elems tn) as [|m l IH]; cbn [map app combine In].
- induction sch as [|[m j] sch IHs]; cbn [map combine In fst snd]; [tauto|].
  rewrite IHs. split.
  + intros [H|[[_ []]|H]]; [inversion H; subst|]; auto.
  + intros [[_ []]|[H|H]]; [inversion H; subst|]; auto.
- rewrite IH. split.
  + intros [H|[[Hk Hn]|H]]; [inversion H; subst|..]; auto.
  + intros [[Hk [Hn|Hn]]|H]; subst; auto.
Qed.

Lemma set_nodes_at_In (names : list name) (heights : list Z) (t : list (Z * name))
    (k : Z) (n : name) :
  In n (SpecModel.names_at k (SpecModel.set_nodes_at names heights t)) <->
  In n (SpecModel.names_at k t) \/ In (k, n) (combine heights names).
Proof. unfold SpecModel.set_nodes_at. now rewrite !names_at_In, add_pairs_In. Qed.

Section RoundTrip.

Context {sem : SpecModel.NodeSemantics} {param : Param}.
Hypothesis laws : lawful.

(** The touched names of a block are listed for its height afterwards. *)
Lemma appended_lists_touched (h : Z) (s : SpecModel.Store) (n : name) :
  In n (SpecModel.touched h s) ->
  In n (SpecModel.names_at h (SpecModel.temporal (model_appended h s))).
Proof.
intros Hn. unfold model_appended. cbn [SpecModel.temporal].
apply set_nodes_at_In. right. apply combine_batch_In. left. split; [reflexivity|].
unfold model_touched. apply removeDuplicates_In. exact Hn.
Qed.

Lemma hash_with_frame (b : bool) (s : SpecModel.Store) :
  exists c m r a,
    fst (SpecModel.hash_with b s) =
    SpecModel.mkStore (SpecModel.blocks s) (SpecModel.temporal s) (SpecModel.log s)
      (SpecModel.buffer s) (SpecModel.nm_height s) c m r a
      (SpecModel.blocks_down s) (SpecModel.temporal_down s) (SpecModel.nodes_down s).
Proof.
unfold SpecModel.hash_with.
destruct (SpecModel.adopted s) as [r|] eqn:Ha;
  [destruct (SpecModel.rebuild s) eqn:Hr;
   [|destruct (SpecModel.marks s) as [|m ms] eqn:Hm]|];
  try (unfold SpecModel.rehash; cbn [fst]; eauto).
exists (SpecModel.cache s), [], false, (Some r).
destruct s. cbn in *. now subst.
Qed.

(** [MerkleHash] on a trie whose nodes are good or marked returns the
    root of the log and leaves a consistent trie. *)
Lemma hash_restores (s : SpecModel.Store) :
  let H := SpecModel.nm_height s in
  let b := H >=? AllClaimsInMerkleForkHeight in
  0 <= H ->
  Forall (fun c => change.Height c <= H) (SpecModel.log s) ->
  (forall n,
     (forall l, SpecModel.lookup n (SpecModel.cache s) = Some l -> good_leaf b s n l) \/
     In (n, true) (SpecModel.dirty s) \/
     ((forall l, SpecModel.lookup n (SpecModel.cache s) = Some l -> input_ok s n l) /\
      In (n, false) (SpecModel.dirty s))) ->
  (forall ch, In ch (SpecModel.log s) ->
     SpecModel.lookup (change.Name ch) (SpecModel.cache s) <> None \/
     exists r, In (change.Name ch, r) (SpecModel.dirty s)) ->
  SpecModel.adopted s = Some (reference_root H (SpecModel.log s)) ->
  snd (SpecModel.hash_with b s) = reference_root H (SpecModel.log s) /\
  consistent (fst (SpecModel.hash_with b s)).
Proof.
intros H b Hpos Hlog Hcase Hcached Ha.
destruct (recomputed_consistent laws b s (SpecModel.dirty s) (SpecModel.cache s)
            Hcase Hcached) as (Hgood' & Hcached' & Hleaves).
assert (snd (SpecModel.rehash b s) = reference_root H (SpecModel.log s) /\
        consistent (fst (SpecModel.rehash b s))) as Hrehash.
{ unfold SpecModel.rehash. cbn [fst snd]. unfold reference_root. fold b. rewrite Hleaves.
  split; [reflexivity|]. unfold consistent.
  cbn [SpecModel.nm_height SpecModel.log SpecModel.rebuild SpecModel.cache
       SpecModel.adopted].
  fold H b. split; [assumption|]. split; [assumption|]. split; [reflexivity|].
  split; [|split; [assumption|]].
  - intros n l Hl. eapply good_leaf_ext; [| |now apply (Hgood' n l Hl)]; reflexivity.
  - right. reflexivity. }
unfold SpecModel.hash_with. rewrite Ha.
destruct (SpecModel.rebuild s) eqn:Hr; [exact Hrehash|].
destruct (SpecModel.marks s) as [|m ms] eqn:Hm; [|exact Hrehash].
cbn [fst snd]. split; [reflexivity|].
unfold SpecModel.dirty in Hcase, Hcached. rewrite Hr, Hm in Hcase, Hcached.
cbn [app] in Hcase, Hcached.
unfold consistent. fold H b. split; [assumption|]. split; [assumption|].
split; [assumption|]. split; [|split].
- intros n l Hl. destruct (Hcase n) as [Hg|[[]|[_ []]]]. now apply Hg.
- intros ch Hch. destruct (Hcached ch Hch) as [Hc|[r []]]. exact Hc.
- now right.
Qed.

(** Rewinding one block: the changes of the block are dropped because
    their names are listed for the block in the temporal repo, and the
    nodes of the names not listed are as they were before the block. *)
Lemma model_ResetHeight_one (fuel : nat) (H : Z) (ct : ClaimTrie SpecModel.Store)
    (L P : list change.Change) :
  let s := heap ct in
  let U := SpecModel.names_at (H + 1) (SpecModel.temporal s) in
  (1 <= fuel)%nat -> 0 <= H -> H + 1 < MaxInt32 -> height ct = H + 1 ->
  consistent s -> SpecModel.nm_height s = H + 1 -> SpecModel.buffer s = [] ->
  SpecModel.blocks_down s = false -> SpecModel.temporal_down s = false ->
  SpecModel.nodes_down s = false ->
  SpecModel.log s = L ++ P ->
  Forall (fun c => change.Height c <= H) L ->
  Forall (fun c => change.Height c = H + 1) P ->
  Forall (fun c => In (change.Name c) U) P ->
  (forall n, In n (map change.Name L) ->
             0 < SpecModel.next_update_height (SpecModel.history n L) H <= H + 1 ->
             In n U) ->
  SpecModel.Get H s = Ok (reference_root H L) ->
  exists ct' : ClaimTrie SpecModel.Store,
    ResetHeight fuel H ct = Some (None, ct') /\
    height ct' = H /\
    consistent (heap ct') /\
    SpecModel.log (heap ct') = L /\
    SpecModel.buffer (heap ct') = [] /\
    SpecModel.nm_height (heap ct') = H /\
    SpecModel.blocks (heap ct') = SpecModel.blocks s /\
    SpecModel.temporal (heap ct') = SpecModel.temporal s /\
    SpecModel.blocks_down (heap ct') = false /\
    SpecModel.temporal_down (heap ct') = false /\
    SpecModel.nodes_down (heap ct') = false.
Proof.
intros s U Hfuel HH Hlt Hht Hc Hnm Hbuf Hb Ht Hn Hlog HL HP Hnames Hdue Hget.
assert (rewound_heights H (height ct) = [H + 1]) as Hhs.
{ unfold rewound_heights. rewrite Hht. replace (H + 1 - H) with 1 by lia. reflexivity. }
assert (readable [H + 1] (heap ct)) as Hread.
{ intros k _. cbn [temporalRepo_NodesAt SpecModel.temporalRepo].
  unfold SpecModel.NodesAt. fold s. rewrite Ht. eauto. }
rewrite ResetHeight_eq; rewrite ?Hhs; try assumption; try lia;
  try (cbn [length]; lia);
  try (unfold int32, MinInt32, MaxInt32 in *; lia).
rewrite ResetHeight_finish_eq. cbv zeta.
unfold with_journal. cbn [heap height cleanups journal].
assert (collected [H + 1] (heap ct) = U) as Hcol.
{ unfold collected. cbn [flat_map temporalRepo_NodesAt SpecModel.temporalRepo].
  unfold SpecModel.NodesAt, SpecModel.nodes_at. fold s. rewrite Ht, app_nil_r.
  fold U. now destruct U. }
rewrite Hcol.
cbn [nodeManager_DecrementHeightTo SpecModel.nodeManager].
unfold SpecModel.DecrementHeightTo. fold s. rewrite Hn. cbn [fst snd elems].
assert (filter (SpecModel.kept U H) (SpecModel.log s) = L) as HfL.
{ rewrite Hlog, filter_app, (filter_all _ L), (filter_none _ P), app_nil_r; auto.
  - rewrite Forall_forall in *. intros c Hc0. unfold SpecModel.kept.
    apply negb_false_iff, andb_true_iff. split.
    + apply Z.ltb_lt. rewrite (HP c Hc0). lia.
    + apply mem_In. auto.
  - eapply Forall_impl; [|exact HL]. intros c Hc0. unfold SpecModel.kept.
    apply negb_true_iff, andb_false_iff. left. apply Z.ltb_ge. exact Hc0. }
rewrite HfL, Hbuf. cbn [filter].
cbn [blockRepo_Get SpecModel.blockRepo]. unfold SpecModel.Get at 1.
cbn [SpecModel.blocks_down SpecModel.blocks].
unfold SpecModel.Get in Hget. rewrite Hb in *.
destruct (find (fun p => fst p =? H) (SpecModel.blocks s)) as [p|] eqn:Hfind;
  [|discriminate].
inversion Hget as [Hp]. rewrite Hp. clear Hget.
rewrite model_hash_effect.
set (passed := (height ct >=? AllClaimsInMerkleForkHeight)
               && (H <? AllClaimsInMerkleForkHeight)).
set (s1 := SpecModel.mkStore (SpecModel.blocks s) (SpecModel.temporal s) L [] H
             (SpecModel.cache s) (SpecModel.marks s) (SpecModel.rebuild s)
             (SpecModel.adopted s) false (SpecModel.temporal_down s) false).
set (s2 := fst (merkleTrie_SetRoot (reference_root H L) (if passed then None else Some U) s1)).
destruct Hc as (Hpos & Hlogh & Hr & Hgood & Hcached & Ha).
assert (SpecModel.log s2 = L /\ SpecModel.nm_height s2 = H /\
        SpecModel.buffer s2 = [] /\ SpecModel.blocks s2 = SpecModel.blocks s /\
        SpecModel.temporal s2 = SpecModel.temporal s /\
        SpecModel.blocks_down s2 = false /\ SpecModel.temporal_down s2 = false /\
        SpecModel.nodes_down s2 = false /\
        SpecModel.adopted s2 = Some (reference_root H L)) as Hs2.
{ unfold s2, s1. cbn [merkleTrie_SetRoot SpecModel.merkleTrie]. unfold SpecModel.SetRoot.
  destruct passed; cbn; rewrite ?Ht; repeat split; reflexivity. }
destruct Hs2 as (Hlog2 & Hnm2 & Hbuf2 & Hbl2 & Htm2 & Hb2 & Ht2 & Hn2 & Ha2).
assert (snd (SpecModel.hash_with (H >=? AllClaimsInMerkleForkHeight) s2)
        = reference_root H L /\
        consistent (fst (SpecModel.hash_with (H >=? AllClaimsInMerkleForkHeight) s2)))
  as [Hroot Hc2].
{ rewrite <- Hlog2, <- Hnm2. apply hash_restores; rewrite ?Hlog2, ?Hnm2; try assumption.
  - intros n. unfold s2, s1. cbn [merkleTrie_SetRoot SpecModel.merkleTrie].
    unfold SpecModel.SetRoot. destruct passed eqn:Hpassed.
    + left. cbn [fst SpecModel.cache SpecModel.lookup find option_map]. discriminate.
    + cbn [fst SpecModel.cache SpecModel.dirty SpecModel.rebuild SpecModel.marks].
      unfold SpecModel.dirty. cbn [SpecModel.rebuild SpecModel.marks]. rewrite Hr.
      cbn [app].
      destruct (in_dec (list_eq_dec Byte.byte_eq_dec) n U) as [Hin|Hout].
      { right; left. apply in_or_app. right. apply in_map_iff. now exists n. }
      left. intros l Hl. destruct (Hgood n l Hl) as (H1 & H2 & H3).
      assert (node_history n s = SpecModel.history n L) as Hhist.
      { unfold node_history. rewrite Hlog, Hnm, truncate_all.
        - rewrite history_app, (history_none n P), app_nil_r; [reflexivity|].
          intros Hin. apply Hout. apply in_map_iff in Hin as (c & <- & Hc0).
          rewrite Forall_forall in Hnames. now apply Hnames.
        - apply Forall_app. split.
          + eapply Forall_impl; [|exact HL]. cbv beta. intros c Hc0. lia.
          + eapply Forall_impl; [|exact HP]. cbv beta. intros c Hc0. lia. }
      assert (forall b0, SpecModel.node_hash b0 (SpecModel.history n L) (H + 1)
                         = SpecModel.node_hash b0 (SpecModel.history n L) H) as Hquiet.
      { intros b0.
        destruct (in_dec (list_eq_dec Byte.byte_eq_dec) n (map change.Name L))
          as [Hlogged|Hnew].
        - apply (quiet_step laws); [assumption|]. intros Hd. apply Hout.
          now apply Hdue.
        - rewrite history_none by assumption. now rewrite !(node_absent laws). }
      unfold good_leaf, node_history.
      cbn [SpecModel.log SpecModel.nm_height].
      rewrite (truncate_all H L) by assumption.
      rewrite Hhist in H1, H2, H3. rewrite Hnm in H2, H3.
      split; [exact H1|]. split.
      * intros b0. rewrite H2. apply Hquiet.
      * rewrite H3.
        replace (H + 1 >=? AllClaimsInMerkleForkHeight)
          with (H >=? AllClaimsInMerkleForkHeight); [apply Hquiet|].
        unfold passed in Hpassed. rewrite Hht in Hpassed.
        destruct (H >=? AllClaimsInMerkleForkHeight) eqn:E1,
                 (H + 1 >=? AllClaimsInMerkleForkHeight) eqn:E2,
                 (H <? AllClaimsInMerkleForkHeight) eqn:E3;
          try reflexivity; try discriminate;
          rewrite ?Z.geb_leb in *; rewrite ?Z.leb_le, ?Z.leb_gt, ?Z.ltb_lt, ?Z.ltb_ge in *;
          lia.
  - intros ch Hch. unfold s2, s1. cbn [merkleTrie_SetRoot SpecModel.merkleTrie].
    unfold SpecModel.SetRoot. destruct passed.
    + right. exists true. unfold SpecModel.dirty, SpecModel.IterateNames.
      cbn [fst SpecModel.rebuild SpecModel.marks SpecModel.log]. rewrite app_nil_r.
      apply in_map_iff. exists (change.Name ch). split; [reflexivity|].
      apply distinct_In. now apply in_map.
    + left. cbn [fst SpecModel.cache]. apply Hcached. rewrite Hlog.
      apply in_or_app. now left. }
match goal with
| |- context [SpecModel.hash_with _ ?x] => change x with s2
end.
rewrite Hroot. unfold IsEqual. rewrite Equal_refl.
eexists. split; [reflexivity|]. cbn [heap height].
split; [reflexivity|]. split; [exact Hc2|].
destruct (hash_with_frame (H >=? AllClaimsInMerkleForkHeight) s2) as (c & m & r & a & E).
rewrite E. cbn [SpecModel.log SpecModel.buffer SpecModel.nm_height SpecModel.blocks
  SpecModel.temporal SpecModel.blocks_down SpecModel.temporal_down SpecModel.nodes_down].
repeat split; assumption.
Qed.

End RoundTrip.

(** ** The round trip *)

Section RoundTripFacts.

Context {sem : SpecModel.NodeSemantics} {param : Param}.
Hypothesis laws : lawful.

Lemma buffered_consistent (s : SpecModel.Store) (cs : list change.Change) :
  consistent s -> consistent (buffered s cs).
Proof.
intros (H1 & H2 & H3 & H4 & H5 & H6).
unfold consistent, buffered. cbn [SpecModel.nm_height SpecModel.log SpecModel.rebuild
  SpecModel.cache SpecModel.adopted].
split; [assumption|]. split; [assumption|]. split; [assumption|].
split; [|split; assumption].
intros n l Hl. eapply good_leaf_ext; [| |exact (H4 n l Hl)]; reflexivity.
Qed.

(** The root [MerkleHash] shows on a consistent trie. *)
Lemma model_MerkleHash (ct : ClaimTrie SpecModel.Store) :
  consistent (heap ct) ->
  SpecModel.nm_height (heap ct) = height ct ->
  fst (MerkleHash ct) = reference_root (height ct) (SpecModel.log (heap ct)).
Proof.
intros Hc Hnm. rewrite MerkleHash_eq. cbn [fst]. rewrite model_hash_effect, <- Hnm.
apply (consistent_hash laws (heap ct) Hc).
Qed.

(** Submissions and a block on a settled state. *)
Lemma settled_block (ct : ClaimTrie SpecModel.Store) (subs : list Op) :
  consistent (heap ct) ->
  SpecModel.buffer (heap ct) = [] ->
  SpecModel.nm_height (heap ct) = height ct ->
  SpecModel.temporal_down (heap ct) = false ->
  SpecModel.nodes_down (heap ct) = false ->
  height ct < MaxInt32 ->
  Forall (fun o => is_block o = false) subs ->
  let P := flat_map (change_of (height ct)) subs in
  let s1 := buffered (heap ct) P in
  let ct2 := snd (AppendBlock (snd (run subs ct))) in
  fst (AppendBlock (snd (run subs ct))) = None /\
  heap ct2 = model_appended (height ct + 1) s1 /\
  height ct2 = height ct + 1 /\
  consistent (heap ct2) /\
  fst (MerkleHash ct2) = reference_root (height ct + 1) (SpecModel.log (heap ct) ++ P).
Proof.
intros Hc Hbuf Hnm Ht Hn Hlt Hsubs P s1 ct2.
destruct (model_run_submissions subs ct Hsubs Hn) as [Hheap1 Hht1].
fold P s1 in Hheap1.
set (ct1 := snd (run subs ct)) in *.
destruct (model_block laws ct1) as (Hok & Hheap2 & Hht2 & Hc2 & _).
- rewrite Hheap1. now apply buffered_consistent.
- rewrite Hheap1, Hht1. exact Hnm.
- rewrite Hheap1. exact Hn.
- rewrite Hheap1. exact Ht.
- rewrite Hheap1, Hht1. unfold s1, buffered. cbn [SpecModel.buffer]. rewrite Hbuf.
  apply changes_of_Height.
- lia.
- rewrite Hht1, Hheap1 in *. fold ct2 in Hheap2, Hht2.
  split; [exact Hok|]. split; [exact Hheap2|]. split; [exact Hht2|].
  rewrite Hheap2. split; [exact Hc2|].
  rewrite model_MerkleHash; rewrite ?Hheap2, ?Hht2; try assumption; try reflexivity.
  unfold model_appended, s1, buffered. cbn [SpecModel.log SpecModel.buffer].
  now rewrite Hbuf.
Qed.

(** The state after a run shows what the run invariant promises. *)
Lemma run_app {S : Type} {blockRepo : BlockRepo S} {temporalRepo : TemporalRepo S}
    {nodeManager : NodeManager S} {merkleTrie : MerkleTrie S}
    (a b : list Op) :
  forall ct : ClaimTrie S, snd (run (a ++ b) ct) = snd (run b (snd (run a ct))).
Proof.
induction a as [|o a IH]; intros ct; cbn [app run]; [reflexivity|].
destruct (submit o ct) as [err ct1]. destruct (is_block o).
- destruct (MerkleHash ct1) as [root ct2]. specialize (IH ct2).
  destruct (run (a ++ b) ct2), (run a ct2). exact IH.
- specialize (IH ct1). destruct (run (a ++ b) ct1), (run a ct1). exact IH.
Qed.

Lemma blocks_in_app (a b : list Op) : blocks_in (a ++ b) = (blocks_in a + blocks_in b)%nat.
Proof. unfold blocks_in. now rewrite filter_app, length_app. Qed.

Lemma run_invariant (ops : list Op) :
  forall ct : ClaimTrie SpecModel.Store,
  consistent (heap ct) ->
  SpecModel.nm_height (heap ct) = height ct ->
  SpecModel.blocks_down (heap ct) = false ->
  SpecModel.temporal_down (heap ct) = false ->
  SpecModel.nodes_down (heap ct) = false ->
  Forall (fun c => change.Height c = wrap32 (height ct + 1)) (SpecModel.buffer (heap ct)) ->
  height ct + Z.of_nat (blocks_in ops) <= MaxInt32 ->
  let ct' := snd (run ops ct) in
  consistent (heap ct') /\
  SpecModel.nm_height (heap ct') = height ct' /\
  SpecModel.blocks_down (heap ct') = false /\
  SpecModel.temporal_down (heap ct') = false /\
  SpecModel.nodes_down (heap ct') = false /\
  Forall (fun c => change.Height c = wrap32 (height ct' + 1)) (SpecModel.buffer (heap ct')) /\
  height ct' = height ct + Z.of_nat (blocks_in ops).
Proof.
induction ops as [|o rest IH]; intros ct Hc Hnm Hb Ht Hn Hbuf Hmax.
- cbn [run snd]. do 6 (split; [assumption|]). unfold blocks_in. cbn. lia.
- cbn [run]. destruct (is_block o) eqn:Hblk.
  + assert (o = OpAppendBlock) as -> by (destruct o; try discriminate; reflexivity).
    cbn [submit]. unfold blocks_in in Hmax |- *. cbn [filter is_block length] in Hmax |- *.
    fold (blocks_in rest) in Hmax |- *.
    destruct (model_block laws ct Hc Hnm Hn Ht Hbuf ltac:(lia))
      as (Hok & Hheap & Hht & Hc1 & Hroot).
    destruct (AppendBlock ct) as [err ct1]. cbn [fst snd] in *. subst err.
    rewrite MerkleHash_eq. rewrite Hheap, Hht, model_hash_effect.
    pose proof (consistent_hash laws _ Hc1) as Hh. cbv zeta in Hh.
    change (SpecModel.nm_height (model_appended (height ct + 1) (heap ct)))
      with (height ct + 1) in Hh.
    destruct Hh as (_ & Hc2 & _ & _ & _ & Hbuf2 & Hnm2 & Hb2 & Ht2 & Hn2).
    match goal with
    | |- context [run rest ?c] => specialize (IH c)
    end.
    cbn [heap height] in IH.
    destruct (run rest _) as [seen ct3]. cbn [fst snd height] in *.
    destruct IH as (I1 & I2 & I3 & I4 & I5 & I6 & I7); try assumption; try lia.
    * rewrite Hb2. exact Hb.
    * rewrite Ht2. exact Ht.
    * rewrite Hn2. exact Hn.
    * rewrite Hbuf2. constructor.
    * do 6 (split; [assumption|]). lia.
  + destruct (model_submit o ct Hblk Hn) as (Hok & Hheap & Hht).
    destruct (submit o ct) as [err ct1]. cbn [fst snd] in *. subst err.
    specialize (IH ct1). destruct (run rest ct1) as [seen ct3]. cbn [fst snd] in *.
    unfold blocks_in in Hmax |- *. cbn [filter] in Hmax |- *. rewrite Hblk in Hmax |- *.
    fold (blocks_in rest) in Hmax |- *.
    rewrite <- Hht. apply IH.
    * rewrite Hheap. now apply buffered_consistent.
    * rewrite Hheap, Hht. exact Hnm.
    * rewrite Hheap. exact Hb.
    * rewrite Hheap. exact Ht.
    * rewrite Hheap. exact Hn.
    * rewrite Hheap, Hht. unfold buffered. cbn [SpecModel.buffer].
      apply Forall_app. split; [assumption|apply change_of_Height].
    * rewrite Hht. exact Hmax.
Qed.

(** A block on a state of a run leaves a settled state. *)
Lemma block_settled (ct : ClaimTrie SpecModel.Store) :
  consistent (heap ct) ->
  SpecModel.nm_height (heap ct) = height ct ->
  SpecModel.blocks_down (heap ct) = false ->
  SpecModel.temporal_down (heap ct) = false ->
  SpecModel.nodes_down (heap ct) = false ->
  Forall (fun c => change.Height c = wrap32 (height ct + 1)) (SpecModel.buffer (heap ct)) ->
  height ct < MaxInt32 ->
  settled (snd (run [OpAppendBlock] ct)).
Proof.
intros Hc Hnm Hb Ht Hn Hbuf Hmax.
destruct (model_block laws ct Hc Hnm Hn Ht Hbuf Hmax)
  as (Hok & Hheap & Hht1 & Hc1 & Hroot).
pose proof (consistent_hash laws _ Hc1) as Hh. cbv zeta in Hh.
change (SpecModel.nm_height (model_appended (height ct + 1) (heap ct)))
  with (height ct + 1) in Hh.
destruct Hh as (Hr & Hc2 & Hbl2 & _ & Hlog2 & Hbuf2 & Hnm2 & Hb2 & Ht2 & Hn2).
assert (snd (run [OpAppendBlock] ct) =
        mkClaimTrie (fst (SpecModel.hash_with (height ct + 1 >=? AllClaimsInMerkleForkHeight)
                            (model_appended (height ct + 1) (heap ct))))
          (height ct + 1) (cleanups (snd (AppendBlock ct)))
          (journal (snd (AppendBlock ct)) ++ [hash_call (height ct + 1)])) as ->.
{ cbn [run submit is_block]. destruct (AppendBlock ct) as [err ct1]. cbn [fst snd] in *.
  rewrite MerkleHash_eq. cbn [snd]. now rewrite Hheap, Hht1, model_hash_effect. }
set (s2 := fst (SpecModel.hash_with _ _)) in *.
assert (SpecModel.nm_height s2 = height ct + 1) as Hnm2' by exact Hnm2.
unfold settled. cbv zeta. cbn [heap height].
split; [exact Hc2|]. split; [rewrite Hbuf2; reflexivity|]. split; [exact Hnm2|].
split; [rewrite Hb2; exact Hb|]. split; [rewrite Ht2; exact Ht|].
split; [rewrite Hn2; exact Hn|].
rewrite model_MerkleHash; cbn [heap height]; try assumption.
unfold SpecModel.Get. rewrite Hb2, Hbl2.
cbn [model_appended SpecModel.blocks_down SpecModel.blocks]. rewrite Hb.
cbn [find fst snd]. rewrite Z.eqb_refl. f_equal.
rewrite Hroot, Hlog2. reflexivity.
Qed.

(** The state a run without failures is in after a block is settled. *)
Lemma run_settled (ops : list Op) (ct : ClaimTrie SpecModel.Store) :
  heap ct = SpecModel.empty -> height ct = 0 ->
  Z.of_nat (blocks_in ops) < MaxInt32 ->
  settled (snd (run (ops ++ [OpAppendBlock]) ct)).
Proof.
intros Hheap Hzero Hmax. rewrite run_app.
destruct (run_invariant ops ct) as (Hc & Hnm & Hb & Ht & Hn & Hbuf & Hht);
  rewrite ?Hheap, ?Hzero; try reflexivity.
- apply empty_consistent.
- constructor.
- lia.
- rewrite Hzero in Hht. apply block_settled; try assumption. lia.
Qed.

End RoundTripFacts.

Section RoundTripClaim.

Context {sem : SpecModel.NodeSemantics} {param : Param}.

(** C2 (amended). On the collaborators of the specification (below the
    normalization fork, with a node semantics that keeps the promise of
    [next_update_height]), from a settled state at height h-1 below the
    int32 limit, with any changes submitted for block h: [AppendBlock]
    succeeds; [ResetHeight(h-1)] then succeeds; the same submissions again
    and [AppendBlock] then give the root of the first [AppendBlock], at the
    same height, the root of the log with the submitted changes -- with
    nothing submitted this is the plain round trip.  Without the
    resubmission the second [AppendBlock] gives the root block
    h has without the submitted changes, which [ResetHeight] has made the
    node manager drop. *)
Theorem round_trip_with_resubmission (fuel : nat) (ct : ClaimTrie SpecModel.Store)
    (subs : list Op) :
  lawful ->
  settled ct ->
  height ct + 1 < MaxInt32 ->
  Forall (fun o => is_block o = false) subs ->
  (1 <= fuel)%nat ->
  let ct2 := snd (AppendBlock (snd (run subs ct))) in
  fst (AppendBlock (snd (run subs ct))) = None /\
  fst (MerkleHash ct2)
  = reference_root (height ct + 1)
      (SpecModel.log (heap ct) ++ flat_map (change_of (height ct)) subs) /\
  exists ct3 : ClaimTrie SpecModel.Store,
    ResetHeight fuel (height ct) ct2 = Some (None, ct3) /\
    fst (AppendBlock (snd (run subs ct3))) = None /\
    height (snd (AppendBlock (snd (run subs ct3)))) = height ct2 /\
    fst (MerkleHash (snd (AppendBlock (snd (run subs ct3))))) = fst (MerkleHash ct2) /\
    fst (AppendBlock ct3) = None /\
    height (snd (AppendBlock ct3)) = height ct2 /\
    fst (MerkleHash (snd (AppendBlock ct3))) = fst (MerkleHash (snd (AppendBlock ct))).
Proof.
intros laws (Hc & Hbuf & Hnm & Hb & Ht & Hn & Hget) Hlt Hsubs Hfuel ct2.
set (H := height ct) in *. set (s := heap ct) in *.
set (P := flat_map (change_of H) subs).
assert (0 <= H) as Hpos by (rewrite <- Hnm; apply Hc).
assert (wrap32 (H + 1) = H + 1) as Hw
  by (apply wrap32_in_range; unfold int32, MinInt32, MaxInt32 in *; lia).
destruct (settled_block laws ct subs Hc Hbuf Hnm Ht Hn ltac:(fold H; lia) Hsubs)
  as (Hok & Hheap2 & Hht2 & Hc2 & Hroot2).
fold H s P ct2 in Hok, Hheap2, Hht2, Hc2, Hroot2.
split; [exact Hok|]. split; [exact Hroot2|].
assert (Forall (fun c => change.Height c <= H) (SpecModel.log s)) as HL.
{ destruct Hc as (_ & HL & _). now rewrite Hnm in HL. }
destruct (model_ResetHeight_one laws fuel H ct2 (SpecModel.log s) P)
  as (ct3 & Hreset & Hht3 & Hc3 & Hlog3 & Hbuf3 & Hnm3 & _ & _ & _ & Ht3 & Hn3);
  try assumption; try lia.
- rewrite Hheap2. reflexivity.
- rewrite Hheap2. reflexivity.
- rewrite Hheap2. unfold model_appended, buffered. cbn [SpecModel.blocks_down]. exact Hb.
- rewrite Hheap2. unfold model_appended, buffered. cbn [SpecModel.temporal_down]. exact Ht.
- rewrite Hheap2. unfold model_appended, buffered. cbn [SpecModel.nodes_down]. exact Hn.
- rewrite Hheap2. unfold model_appended, buffered. cbn [SpecModel.log SpecModel.buffer].
  fold s. now rewrite Hbuf.
- rewrite <- Hw. apply changes_of_Height.
- apply Forall_forall. intros c Hc0. rewrite Hheap2. apply appended_lists_touched.
  unfold SpecModel.touched. apply in_or_app. left.
  unfold buffered. cbn [SpecModel.buffer]. fold s. rewrite Hbuf. now apply in_map.
- intros n Hn0 Hdue. rewrite Hheap2. apply appended_lists_touched.
  unfold SpecModel.touched. apply in_or_app. right.
  unfold SpecModel.due. apply filter_In. split.
  + unfold buffered. cbn [SpecModel.log]. now apply distinct_In.
  + unfold SpecModel.next_of, buffered. cbn [SpecModel.log SpecModel.nm_height].
    fold s. rewrite Hnm, truncate_all by assumption.
    apply andb_true_iff. split; [apply Z.ltb_lt|apply Z.leb_le]; lia.
- rewrite Hheap2. unfold model_appended, buffered, SpecModel.Get.
  cbn [SpecModel.blocks_down SpecModel.blocks]. fold s.
  unfold SpecModel.Get in Hget. fold s H in Hget. rewrite Hb in *.
  cbn [find fst]. replace (H + 1 =? H) with false by (symmetry; apply Z.eqb_neq; lia).
  rewrite Hget. f_equal. apply (model_MerkleHash laws ct Hc Hnm).
- exists ct3. split; [exact Hreset|].
  destruct (settled_block laws ct3 subs Hc3 Hbuf3 ltac:(now rewrite Hnm3, Hht3) Ht3 Hn3
              ltac:(rewrite Hht3; lia) Hsubs)
    as (Hok5 & _ & Hht5 & _ & Hroot5).
  destruct (settled_block laws ct3 [] Hc3 Hbuf3 ltac:(now rewrite Hnm3, Hht3) Ht3 Hn3
              ltac:(rewrite Hht3; lia) ltac:(constructor))
    as (Hok6 & _ & Hht6 & _ & Hroot6).
  destruct (settled_block laws ct [] Hc Hbuf Hnm Ht Hn ltac:(fold H; lia) ltac:(constructor))
    as (_ & _ & _ & _ & Hroot0).
  cbn [run snd flat_map] in Hok6, Hht6, Hroot6, Hroot0.
  rewrite Hht3, Hlog3 in *. fold H s P in Hroot0, Hroot5.
  split; [exact Hok5|]. split; [now rewrite Hht5, Hht2|].
  split; [now rewrite Hroot5, Hroot2|].
  split; [exact Hok6|]. split; [now rewrite Hht6, Hht2|].
  now rewrite Hroot6, Hroot0.
Qed.

End RoundTripClaim.

(** ** The temporal index *)

Section AnswerFacts.

Context {S : Type}.
Context {nodeManager : NodeManager S} {merkleTrie : MerkleTrie S}.

Lemma range_effect_answers (l : list name) :
  forall (s : S) (p : name * Z),
  In p (snd (range_effect l s)) <->
  0 < snd p /\ exists asked, In (asked, p) (answers l s).
Proof.
induction l as [|n rest IH]; intros s p; cbn [range_effect answers].
- cbn [snd In]. split; [contradiction|]. intros (_ & asked & []).
- destruct (nodeManager_NextUpdateHeightOfNode n (fst (merkleTrie_Update n true s)))
    as [s2 next] eqn:E.
  specialize (IH s2 p). destruct (range_effect rest s2) as [s3 l0]. cbn [snd] in *.
  destruct (snd next <=? 0) eqn:Hle.
  + rewrite IH. apply Z.leb_le in Hle. split.
    * intros (Hp & asked & Hin). split; [assumption|]. exists asked. now right.
    * intros (Hp & asked & [Heq|Hin]).
      -- inversion Heq; subst. lia.
      -- split; [assumption|]. now exists asked.
  + apply Z.leb_gt in Hle. cbn [In]. rewrite IH. split.
    * intros [<-|(Hp & asked & Hin)].
      -- split; [assumption|]. exists n. now left.
      -- split; [assumption|]. exists asked. now right.
    * intros (Hp & asked & [Heq|Hin]).
      -- left. now inversion Heq.
      -- right. split; [assumption|]. now exists asked.
Qed.

Lemma answers_asked (l : list name) :
  forall (s : S) (asked : name) (p : name * Z),
  In (asked, p) (answers l s) -> In asked l.
Proof.
induction l as [|n rest IH]; intros s asked p; cbn [answers]; [contradiction|].
destruct (nodeManager_NextUpdateHeightOfNode n (fst (merkleTrie_Update n true s)))
  as [s2 next].
intros [Heq|Hin].
- left. now inversion Heq.
- right. eapply IH. exact Hin.
Qed.

End AnswerFacts.

Section TemporalIndex.

Context {N : Type} {param : Param}.
Context {blockRepoN : BlockRepo N} {nodeManagerN : NodeManager N}.
Context {merkleTrieN : MerkleTrie N}.

#[local] Existing Instance indexed_blockRepo.
#[local] Existing Instance indexed_temporalRepo.
#[local] Existing Instance indexed_nodeManager.
#[local] Existing Instance indexed_merkleTrie.

Lemma indexed_range_effect (l : list name) :
  forall s : Indexed N, snd (fst (range_effect l s)) = snd s.
Proof.
induction l as [|n rest IH]; intros s; cbn [range_effect]; [reflexivity|].
destruct (nodeManager_NextUpdateHeightOfNode n (fst (merkleTrie_Update n true s)))
  as [s2 next] eqn:E.
specialize (IH s2). destruct (range_effect rest s2) as [s3 l0]. cbn [fst] in *.
rewrite IH.
cbn [nodeManager_NextUpdateHeightOfNode indexed_nodeManager merkleTrie_Update
     indexed_merkleTrie] in E.
unfold beside in E. cbn [fst snd] in E. now inversion E.
Qed.

Lemma indexed_sweep_effect (l : list name) :
  forall s : Indexed N, snd (sweep_effect l s) = snd s.
Proof.
induction l as [|n rest IH]; intros s; [reflexivity|].
unfold sweep_effect in *. cbn [fold_left]. now rewrite IH.
Qed.

Lemma indexed_tail_effect (h : Z) (all : slice name) (s : Indexed N) :
  snd (tail_effect h all s) = snd s.
Proof.
unfold tail_effect, persisted, block_root, swept, hash_effect.
destruct (h =? AllClaimsInMerkleForkHeight), (h >=? AllClaimsInMerkleForkHeight);
  cbn [merkleTrie_SetRoot merkleTrie_MerkleHash merkleTrie_MerkleHashAllClaims
       indexed_merkleTrie blockRepo_Set indexed_blockRepo beside fst snd];
  unfold beside; cbn [fst snd]; rewrite ?indexed_sweep_effect; reflexivity.
Qed.


End TemporalIndex.

Section IndexWitnesses.

#[local] Existing Instance fork3.
#[local] Existing Instance ten.


End IndexWitnesses.

Lemma will_change_next {sem : SpecModel.NodeSemantics}
    (hist : list change.Change) (current h : Z) :
  will_change hist current h -> current < SpecModel.next_update_height hist current.
Proof. intros []; assumption. Qed.

Section IndexCounterexample.

#[local] Existing Instance fork3.
#[local] Existing Instance ten.


End IndexCounterexample.

(** ** The claims on the model, on concrete runs *)

Section ModelWitnesses.

#[local] Existing Instance fork3.
#[local] Existing Instance ten.

Lemma roots_deterministic_witness :
  fst (run [OpAddClaim name_b op2 id2 50; OpAddClaim name_a op1 id1 100;
            OpAddSupport name_b op1 7 id2; OpAppendBlock; OpAppendBlock;
            OpSpendClaim name_a op1 id1; OpAppendBlock; OpAppendBlock]
           (snd (New true SpecModel.empty)))
  = fst (@run SpecModel.Store fork3 SpecModel.blockRepo SpecModel.temporalRepo
           SpecModel.nodeManager_unsorted SpecModel.merkleTrie
           [OpAddClaim name_b op2 id2 50; OpAddClaim name_a op1 id1 100;
            OpAddSupport name_b op1 7 id2; OpAppendBlock; OpAppendBlock;
            OpSpendClaim name_a op1 id1; OpAppendBlock; OpAppendBlock]
           (snd (@New SpecModel.Store fork3 SpecModel.blockRepo SpecModel.temporalRepo
                   SpecModel.nodeManager_unsorted SpecModel.merkleTrie false
                   SpecModel.empty))) /\
  fst (run [OpAddClaim name_b op2 id2 50; OpAddClaim name_a op1 id1 100;
            OpAddSupport name_b op1 7 id2; OpAppendBlock; OpAppendBlock;
            OpSpendClaim name_a op1 id1; OpAppendBlock; OpAppendBlock]
           (snd (New true SpecModel.empty)))
  = [SeenSubmit None; SeenSubmit None; SeenSubmit None;
     SeenBlock None 1 [x00; x61; x01; x62; x02];
     SeenBlock None 2 [x00; x61; x01; x62; x02];
     SeenSubmit None;
     SeenBlock None 3 [x00; x62; x01; x02; x01];
     SeenBlock None 4 [x00; x62; x01; x02; x01]].
Proof.
pose proof (roots_deterministic (sem := ten) (param := fork3)
              [OpAddClaim name_b op2 id2 50; OpAddClaim name_a op1 id1 100;
               OpAddSupport name_b op1 7 id2; OpAppendBlock; OpAppendBlock;
               OpSpendClaim name_a op1 id1; OpAppendBlock; OpAppendBlock]
              true false (expiring_lawful 10)
              ltac:(vm_compute; discriminate)) as W.
cbv zeta in W. destruct W as (_ & _ & W1 & W2).
split; [exact W1|].
rewrite W2. vm_compute. reflexivity.
Defined.

(** C2, as stated, fails: the claim submitted for block 2 is dropped by
    [ResetHeight(1)], so that the second [AppendBlock] gives the root of a
    block without it. *)
Lemma round_trip_loses_pending_changes :
  height with_pending_claim = 1 /\
  fst (AppendBlock with_pending_claim) = None /\
  fst (MerkleHash (snd (AppendBlock with_pending_claim))) = [x00; x61; x01] /\
  exists ct3 : ClaimTrie SpecModel.Store,
    ResetHeight 1 1 (snd (AppendBlock with_pending_claim)) = Some (None, ct3) /\
    fst (AppendBlock ct3) = None /\
    height (snd (AppendBlock ct3)) = 2 /\
    fst (MerkleHash (snd (AppendBlock ct3))) = [x00] /\
    fst (MerkleHash (snd (AppendBlock ct3)))
      <> fst (MerkleHash (snd (AppendBlock with_pending_claim))).
Proof.
split; [reflexivity|]. split; [vm_compute; reflexivity|]. split; [vm_compute; reflexivity|].
eexists. split; [vm_compute; reflexivity|].
split; [vm_compute; reflexivity|]. split; [vm_compute; reflexivity|].
split; [vm_compute; reflexivity|].
vm_compute. discriminate.
Qed.

Lemma round_trip_with_resubmission_witness :
  exists ct3 : ClaimTrie SpecModel.Store,
    ResetHeight 1 2 (snd (AppendBlock (snd (run [OpSpendClaim name_a op1 id1]
                                              before_the_fork))))
    = Some (None, ct3) /\
    fst (MerkleHash (snd (AppendBlock (snd (run [OpSpendClaim name_a op1 id1] ct3)))))
    = fst (MerkleHash (snd (AppendBlock (snd (run [OpSpendClaim name_a op1 id1]
                                                before_the_fork))))) /\
    fst (MerkleHash (snd (AppendBlock (snd (run [OpSpendClaim name_a op1 id1]
                                              before_the_fork)))))
    = [x00; x62; x01; x02; x01] /\
    fst (MerkleHash (snd (AppendBlock ct3)))
    = fst (MerkleHash (snd (AppendBlock before_the_fork))) /\
    fst (MerkleHash (snd (AppendBlock before_the_fork)))
    = [x00; x61; x01; x01; x62; x01; x02; x01].
Proof.
assert (settled before_the_fork) as Hsettled.
{ exact (run_settled (expiring_lawful 10)
           [OpAppendBlock; OpAddClaim name_b op2 id2 50; OpAddClaim name_a op1 id1 100;
            OpAddSupport name_b op1 7 id2]
           (fresh SpecModel.empty) eq_refl eq_refl ltac:(vm_compute; reflexivity)). }
destruct (round_trip_with_resubmission (sem := ten) (param := fork3)
            1 before_the_fork [OpSpendClaim name_a op1 id1]
            (expiring_lawful 10) Hsettled
            ltac:(vm_compute; reflexivity)
            ltac:(repeat constructor)
            ltac:(lia)) as (_ & _ & ct3 & Hreset & _ & _ & Hroot & _ & _ & Hplain).
exists ct3. split; [exact Hreset|]. split; [exact Hroot|].
split; [vm_compute; reflexivity|]. split; [exact Hplain|].
vm_compute. reflexivity.
Defined.

End ModelWitnesses.
